(** * Semantic-map inference (Regier, Khetarpal & Majid; Angluin et al.)

    A shallow embedding of [src/code/code.py] and the properties of its
    file reader, greedy connectivity optimiser, edge-frequency aggregation,
    final thresholding and DOT output.

    Python values are modelled as follows.
    - [str] is [string], the UTF-8 bytes of the text; a character is a byte
      with the continuation bytes that follow it ([chars]).  Concepts and
      languages are strings.
    - [int] is [Z] (unbounded).
    - a [dict] is an association list in insertion order: assigning to an
      existing key keeps its position, a new key goes to the end.
    - [networkx.Graph] is its adjacency dict [_adj]: for every node, in
      insertion order, the dict of its neighbours with the edge's attribute
      dict.  The only attribute this program ever sets is ["weight"], so an
      attribute dict is an [option Q].
    - an uncaught exception is the [Raise] outcome; nothing in the program
      catches one.
    - the module [random] and the standard output are threaded as a
      [World]. *)

From Stdlib Require Import List String Ascii Bool Arith ZArith QArith Lia Permutation.
Import ListNotations.

Local Close Scope Q_scope.
Local Open Scope string_scope.
Local Open Scope list_scope.
Local Open Scope nat_scope.

(* ================================================================== *)
(** * Python outcomes *)

Inductive exn : Type :=
| NameError | ValueError | KeyError | IndexError | OSError | NetworkXError
| UnicodeDecodeError.

(** [OutOfFuel] is produced only by the fuel-bounded model of the [while]
    loop; the fuel the program is run with is never exhausted
    ([main_loop_converges], [main_fuel]). *)
Inductive outcome (A : Type) : Type :=
| Ok (a : A)
| Raise (e : exn)
| OutOfFuel.
Arguments Ok {A} a.
Arguments Raise {A} e.
Arguments OutOfFuel {A}.

Definition obind {A B} (o : outcome A) (k : A -> outcome B) : outcome B :=
  match o with
  | Ok a => k a
  | Raise e => Raise e
  | OutOfFuel => OutOfFuel
  end.

(* ================================================================== *)
(** * Lists and dicts *)

Definition node := string.
Definition edge := (node * node)%type.

Definition memb (x : node) (l : list node) : bool := existsb (String.eqb x) l.

Definition edge_eqb (e1 e2 : edge) : bool :=
  String.eqb (fst e1) (fst e2) && String.eqb (snd e1) (snd e2).

Definition edge_memb (e : edge) (l : list edge) : bool := existsb (edge_eqb e) l.

(** [allpairs(seq)]: yields [seq[i], seq[j]] for [i < j], [i] outermost. *)
Fixpoint allpairs {A} (seq : list A) : list (A * A) :=
  match seq with
  | [] => []
  | x :: xs => map (pair x) xs ++ allpairs xs
  end.

(** [d.get(k)] on a string-keyed dict. *)
Fixpoint lookup {A} (k : node) (d : list (node * A)) : option A :=
  match d with
  | [] => None
  | (k', x) :: d' => if String.eqb k k' then Some x else lookup k d'
  end.

(** [d[k] = x]. *)
Fixpoint set_item {A} (k : node) (x : A) (d : list (node * A)) : list (node * A) :=
  match d with
  | [] => [(k, x)]
  | (k', y) :: d' =>
      if String.eqb k k' then (k', x) :: d' else (k', y) :: set_item k x d'
  end.

(** [del d[k]]; [None] is Python's [KeyError]. *)
Fixpoint del_item {A} (k : node) (d : list (node * A)) : option (list (node * A)) :=
  match d with
  | [] => None
  | (k', y) :: d' =>
      if String.eqb k k' then Some d'
      else match del_item k d' with
           | Some d'' => Some ((k', y) :: d'')
           | None => None
           end
  end.

(* ================================================================== *)
(** * networkx.Graph *)

Definition attrs := option Q.
Definition adjdict := list (node * attrs).
Definition Graph := list (node * adjdict).

Definition empty_graph : Graph := [].

Definition nodes_of (G : Graph) : list node := map fst G.

Definition has_node (G : Graph) (n : node) : bool :=
  match lookup n G with Some _ => true | None => false end.

(** [G._adj[n]], empty for a node that is not in the graph. *)
Definition adj (G : Graph) (n : node) : adjdict :=
  match lookup n G with Some a => a | None => [] end.

Definition neighbors (G : Graph) (n : node) : list node := map fst (adj G n).

Definition has_edge (G : Graph) (u v : node) : bool := memb v (neighbors G u).

(** [G[u][v]["weight"]]. *)
Definition edge_weight (G : Graph) (u v : node) : option Q :=
  match lookup v (adj G u) with Some w => w | None => None end.

Definition add_node (G : Graph) (n : node) : Graph :=
  if has_node G n then G else set_item n [] G.

(** [G.add_edge(u, v, **attr)]: both endpoints are created when absent, the
    edge's attribute dict is the existing one (or a fresh empty one) updated
    with [attr], and it is stored under [_adj[u][v]] and [_adj[v][u]]. *)
Definition add_edge (G : Graph) (u v : node) (attr : attrs) : Graph :=
  let G1 := add_node G u in
  let G2 := add_node G1 v in
  let datadict := match lookup v (adj G2 u) with Some dd => dd | None => None end in
  let datadict := match attr with Some w => Some w | None => datadict end in
  let G3 := set_item u (set_item v datadict (adj G2 u)) G2 in
  set_item v (set_item u datadict (adj G3 v)) G3.

(** [G.remove_edge(u, v)]: deletes [_adj[u][v]] and, unless [u == v],
    [_adj[v][u]]; a missing entry raises [NetworkXError]. *)
Definition remove_edge (G : Graph) (u v : node) : outcome Graph :=
  match lookup u G with
  | None => Raise NetworkXError
  | Some au =>
      match del_item v au with
      | None => Raise NetworkXError
      | Some au' =>
          let G1 := set_item u au' G in
          if String.eqb u v then Ok G1
          else match lookup v G1 with
               | None => Raise NetworkXError
               | Some av =>
                   match del_item u av with
                   | None => Raise NetworkXError
                   | Some av' => Ok (set_item v av' G1)
                   end
               end
      end
  end.

(** [G.edges()]: every node in order, every neighbour in order, an edge is
    reported from the endpoint met first. *)
Fixpoint edges_from (seen : list node) (G : Graph) : list edge :=
  match G with
  | [] => []
  | (n, nbrs) :: G' =>
      map (pair n) (filter (fun w => negb (memb w seen)) (map fst nbrs))
        ++ edges_from (n :: seen) G'
  end.

Definition edges (G : Graph) : list edge := edges_from [] G.

(** [G.subgraph(c)]: the subgraph induced by the members of [c] that are
    nodes of [G], in the order of [G].  networkx returns a view whose
    iteration order may be that of a set; the section on the order of
    subgraph views below runs the program with any such order. *)
Definition subgraph (G : Graph) (c : list node) : Graph :=
  let induced := filter (has_node G) c in
  map (fun '(n, nbrs) => (n, filter (fun '(w, _) => memb w induced) nbrs))
      (filter (fun '(n, _) => memb n induced) G).

(** ** Connected components

    [networkx.connected_components] walks the nodes and starts a breadth-first
    search, [_plain_bfs], from every node no earlier search has reached;
    [number_connected_components] counts the searches. *)

(** The inner [for w in adj[v]] of [_plain_bfs]. *)
Fixpoint bfs_visit (seen next : list node) (ws : list node) : list node * list node :=
  match ws with
  | [] => (seen, next)
  | w :: ws' =>
      if memb w seen then bfs_visit seen next ws'
      else bfs_visit (w :: seen) (next ++ [w]) ws'
  end.

(** [for v in thislevel]. *)
Fixpoint bfs_level (G : Graph) (seen next : list node) (thislevel : list node)
  : list node * list node :=
  match thislevel with
  | [] => (seen, next)
  | v :: vs =>
      let '(seen', next') := bfs_visit seen next (neighbors G v) in
      bfs_level G seen' next' vs
  end.

(** [while nextlevel]; one unit of fuel per level. *)
Fixpoint bfs_loop (fuel : nat) (G : Graph) (seen thislevel : list node) : list node :=
  match thislevel with
  | [] => seen
  | _ :: _ =>
      match fuel with
      | O => seen
      | S fuel' =>
          let '(seen', next) := bfs_level G seen [] thislevel in
          bfs_loop fuel' G seen' next
      end
  end.

(** [_plain_bfs(G, source)]: the set of nodes reachable from [source].  Every
    level but the last adds a node, so [S (List.length G)] levels are enough
    ([plain_bfs_spec]).  networkx also returns as soon as it has seen all
    the nodes, which saves work and changes nothing in the result. *)
Definition plain_bfs (G : Graph) (source : node) : list node :=
  bfs_loop (S (List.length G)) G [source] [source].

Fixpoint components_from (G : Graph) (seen : list node) (vs : list node)
  : list (list node) :=
  match vs with
  | [] => []
  | v :: vs' =>
      if memb v seen then components_from G seen vs'
      else let c := plain_bfs G v in c :: components_from G (c ++ seen) vs'
  end.

Definition connected_components (G : Graph) : list (list node) :=
  components_from G [] (nodes_of G).

Definition number_connected_components (G : Graph) : nat :=
  List.length (connected_components G).

(* ================================================================== *)
(** * The connectedness function *)

(** [C(g, s)].  The body reads the module-level name [G], not its parameter
    [g]; the first argument of the model is the graph that global is bound to
    when [C] runs, the second is the parameter. *)
Definition C (G : Graph) (g : Graph) (s : list (list node)) : Z :=
  fold_left
    (fun total c =>
       let ncc := number_connected_components (subgraph G c) in
       (total + (1 - Z.of_nat ncc))%Z)
    s 0%Z.

(* ================================================================== *)
(** * DOT output *)

Local Infix "+++" := String.append (right associativity, at level 60).

(** The two characters the source writes with a backslash: the double quote
    and the line feed. *)
Definition dquote : string := String (ascii_of_nat 34) EmptyString.
Definition newline : string := String (ascii_of_nat 10) EmptyString.

Section Graphviz.

(** [str] of a Python float, the shortest decimal that reads back as the same
    double; the conversion is a parameter of the model. *)
Variable str_float : Q -> string.

(** The body of [for n in G.neighbors(m)].  Python orders strings by code
    point, which on the bytes the model holds is the order of
    [String.compare].  The second [+=] reads [G[m][n]["weight"]], a
    [KeyError] for an edge without a weight. *)
Definition dot_edge (G : Graph) (m : node) (graphviz_string : string) (n : node)
  : outcome string :=
  if String.ltb m n then
    let graphviz_string :=
      graphviz_string +++ ("  " +++ dquote) +++ m +++ (dquote +++ " -> " +++ dquote)
                      +++ n +++ (dquote +++ " ") in
    match edge_weight G m n with
    | Some weight =>
        Ok (graphviz_string
              +++ (" [color=" +++ dquote +++ "#cc0000ff" +++ dquote
                              +++ ",penwidth=" +++ dquote)
              +++ str_float weight +++ (dquote +++ "];" +++ newline))
    | None => Raise KeyError
    end
  else Ok graphviz_string.

Fixpoint dot_neighbors (G : Graph) (m : node) (graphviz_string : string)
  (ns : list node) : outcome string :=
  match ns with
  | [] => Ok graphviz_string
  | n :: ns' =>
      obind (dot_edge G m graphviz_string n) (fun s => dot_neighbors G m s ns')
  end.

(** [for m in G.nodes()]. *)
Fixpoint dot_edges (G : Graph) (graphviz_string : string) (ms : list node)
  : outcome string :=
  match ms with
  | [] => Ok graphviz_string
  | m :: ms' =>
      obind (dot_neighbors G m graphviz_string (neighbors G m))
            (fun s => dot_edges G s ms')
  end.

Definition graphviz_output (G : Graph) : outcome string :=
  let graphviz_string :=
    "digraph CausalGraph" +++ newline +++ "{" +++ newline
                          +++ "  splines=true;" +++ newline in
  let graphviz_string :=
    graphviz_string
      +++ "  " +++ "node [ fontname=Arial, fontcolor=blue, fontsize=20];" +++ newline in
  let graphviz_string :=
    fold_left (fun s n => s +++ ("  " +++ dquote) +++ n +++ (dquote +++ ";" +++ newline))
              (nodes_of G) graphviz_string in
  let graphviz_string :=
    graphviz_string +++ "subgraph undirected" +++ newline +++ "{" +++ newline
                    +++ "  edge [dir=none];" +++ newline in
  obind (dot_edges G graphviz_string (nodes_of G)) (fun graphviz_string =>
  Ok (graphviz_string +++ "  }" +++ newline +++ "}" +++ newline)).

End Graphviz.

(* ================================================================== *)
(** * Module constants *)

Definition languages : list string :=
  ["Rapanui"; "Lezgian"; "Sherbro"; "Nuer"; "Palula"; "Mauwake"; "Mawng";
   "Yir-Yoront"; "Cusco Quechua"; "Paraguayan Guarani"; "Lakota";
   "Passamaquoddy-melecite"].

Definition nodes : list node :=
  ["LOVE"; "HAPPYNESS"; "ANGER"; "MISSING"; "FEAR"; "WORRY"; "SHAME";
   "SURPRISE"; "TRUST"; "RESPECT"; "SADNESS"; "PITY"].

(* ================================================================== *)
(** * Reading the isolectic-set file *)

(** A string from its bytes. *)
Definition bytes (l : list nat) : string :=
  fold_right (fun n s => String (ascii_of_nat n) s) EmptyString l.

(** A continuation byte of UTF-8: [10xxxxxx]. *)
Definition is_continuation (c : ascii) : bool :=
  let n := nat_of_ascii c in (128 <=? n) && (n <=? 191).

(** The characters of a text, each as its bytes: a byte and the continuation
    bytes that follow it. *)
Fixpoint chars (s : string) : list string :=
  match s with
  | EmptyString => []
  | String b r =>
      match chars r with
      | (String c _ as next) :: cs =>
          if is_continuation c then String b next :: cs
          else String b EmptyString :: next :: cs
      | cs => String b EmptyString :: cs
      end
  end.

(** The text of a list of characters. *)
Definition text (cs : list string) : string :=
  fold_right String.append EmptyString cs.

(** One character of well-formed UTF-8, as Python's decoder accepts it: no
    overlong form, no surrogate, nothing above U+10FFFF. *)
Definition utf8_char (c : string) : bool :=
  let cont n := (128 <=? n) && (n <=? 191) in
  match map nat_of_ascii (list_ascii_of_string c) with
  | [a] => a <? 128
  | [a; b] => (194 <=? a) && (a <=? 223) && cont b
  | [a; b; c] =>
      ((a =? 224) && (160 <=? b) && (b <=? 191) && cont c)
      || ((225 <=? a) && (a <=? 236) && cont b && cont c)
      || ((a =? 237) && (128 <=? b) && (b <=? 159) && cont c)
      || ((238 <=? a) && (a <=? 239) && cont b && cont c)
  | [a; b; c; d] =>
      ((a =? 240) && (144 <=? b) && (b <=? 191) && cont c && cont d)
      || ((241 <=? a) && (a <=? 243) && cont b && cont c && cont d)
      || ((a =? 244) && (128 <=? b) && (b <=? 143) && cont c && cont d)
  | _ => false
  end.

(** The bytes are the UTF-8 form of a text. *)
Definition utf8_valid (s : string) : bool := forallb utf8_char (chars s).

(** The characters for which [str.isspace()] holds: U+0009 to U+000D, U+001C
    to U+0020, U+0085, U+00A0, U+1680, U+2000 to U+200A, U+2028, U+2029,
    U+202F, U+205F and U+3000. *)
Definition whitespace : list string :=
  map bytes
    [[9]; [10]; [11]; [12]; [13]; [28]; [29]; [30]; [31]; [32];
     [194; 133]; [194; 160]; [225; 154; 128];
     [226; 128; 128]; [226; 128; 129]; [226; 128; 130]; [226; 128; 131];
     [226; 128; 132]; [226; 128; 133]; [226; 128; 134]; [226; 128; 135];
     [226; 128; 136]; [226; 128; 137]; [226; 128; 138];
     [226; 128; 168]; [226; 128; 169]; [226; 128; 175];
     [226; 129; 159]; [227; 128; 128]].

Definition is_space (c : string) : bool := existsb (String.eqb c) whitespace.

Fixpoint lstrip (cs : list string) : list string :=
  match cs with
  | [] => []
  | c :: cs' => if is_space c then lstrip cs' else cs
  end.

Definition rstrip (cs : list string) : list string := rev (lstrip (rev cs)).

(** [s.strip()]: the whitespace characters at both ends are removed. *)
Definition strip (s : string) : string := text (rstrip (lstrip (chars s))).

(** [s.split(sep)] for a non-empty [sep]: [skip] counts the bytes of a
    separator still to be passed over, [cur] is the field being read.  A
    separator of UTF-8 text is found at the same places in the bytes as in
    the characters. *)
Fixpoint split_from (sep : string) (skip : nat) (cur : string) (s : string)
  : list string :=
  match s with
  | EmptyString => [cur]
  | String c s' =>
      match skip with
      | S k => split_from sep k cur s'
      | O =>
          if prefix sep s
          then cur :: split_from sep (String.length sep - 1) EmptyString s'
          else split_from sep 0 (String.append cur (String c EmptyString)) s'
      end
  end.

Definition split (sep : string) (s : string) : list string :=
  split_from sep 0 EmptyString s.

(** [s[1:-1]]: the text without its first and its last character. *)
Definition slice_1_m1 (s : string) : string :=
  text (removelast (tl (chars s))).

Definition tab : string := String (ascii_of_nat 9) EmptyString.

(** [for j in range(num_L)]: the term's name is read from [fields[1]], its
    senses from [fields[2]]. *)
Fixpoint append_term (num_L : nat) (fields : list string) (T : list (list node))
  : outcome (list (list node)) :=
  match num_L with
  | O => Ok T
  | S j =>
      match nth_error fields 1, nth_error fields 2 with
      | Some _, Some f2 =>
          let senses := split ", " (slice_1_m1 f2) in
          append_term j fields (T ++ [senses])
      | _, _ => Raise IndexError
      end
  end.

Definition read_line (L : list string) (T : list (list node)) (line : string)
  : outcome (list (list node)) :=
  let fields := split tab (strip line) in
  let num_L := count_occ string_dec L (hd EmptyString fields) in
  append_term num_L fields T.

Fixpoint read_data (L : list string) (T : list (list node)) (lines : list string)
  : outcome (list (list node)) :=
  match lines with
  | [] => Ok T
  | line :: rest => obind (read_line L T line) (fun T' => read_data L T' rest)
  end.

(** How iterating over the open file ends: at the end of the file, or with
    [UnicodeDecodeError] (a [ValueError]) at bytes that are not UTF-8. *)
Inductive file_end : Type := EndOfFile | DecodeError.

(** What [for line in isolectic_set_file] goes through: the lines the
    iterator delivers, then how it ends.  The decoder works on blocks of
    bytes, so a line is delivered only once the block that holds its end has
    been decoded. *)
Definition file := (list string * file_end)%type.

(** [for line in isolectic_set_file]. *)
Definition read_file (L : list string) (f : file) : outcome (list (list node)) :=
  obind (read_data L [] (fst f)) (fun T =>
  match snd f with
  | EndOfFile => Ok T
  | DecodeError => Raise UnicodeDecodeError
  end).

(* ================================================================== *)
(** * The initial graph and the candidate edges *)

Definition add_term_nodes (G : Graph) (t : list node) : Graph :=
  fold_left (fun G n => if negb (has_node G n) then add_node G n else G) t G.

Definition add_term_pairs (PossE : list edge) (t : list node) : list edge :=
  fold_left
    (fun PossE pair =>
       let u := fst pair in
       let v := snd pair in
       if negb (edge_memb (u, v) PossE || edge_memb (v, u) PossE)
       then PossE ++ [(u, v)] else PossE)
    (allpairs t) PossE.

Definition create_initial_graph (T : list (list node)) : Graph * list edge :=
  fold_left
    (fun st t => (add_term_nodes (fst st) t, add_term_pairs (snd st) t))
    T (empty_graph, []).

(* ================================================================== *)
(** * One greedy step: the [for e in PossE] loop *)

(** The names the loop assigns: [G], [max_score], [max_edge].  [max_edge] is
    a module-level name that is unbound ([None]) until the first assignment
    and keeps its value from one step, and one bootstrap iteration, to the
    next. *)
Definition search_state := (Graph * Z * option edge)%type.

Definition try_edge (T : list (list node)) (objfn : Z) (st : search_state) (e : edge)
  : outcome search_state :=
  let '(G, max_score, max_edge) := st in
  let G := add_edge G (fst e) (snd e) None in
  let score := (C G G T - objfn)%Z in
  obind (remove_edge G (fst e) (snd e)) (fun G =>
  if (score >? max_score)%Z then Ok (G, score, Some e)
  else Ok (G, max_score, max_edge)).

Fixpoint for_each_edge (T : list (list node)) (objfn : Z) (st : search_state)
  (PossE : list edge) : outcome search_state :=
  match PossE with
  | [] => Ok st
  | e :: rest => obind (try_edge T objfn st e) (fun st' => for_each_edge T objfn st' rest)
  end.

(** [PossE.remove(e)]: drops the first element equal to [e]; [None] is
    Python's [ValueError]. *)
Fixpoint list_remove (e : edge) (l : list edge) : option (list edge) :=
  match l with
  | [] => None
  | x :: l' =>
      if edge_eqb e x then Some l'
      else match list_remove e l' with
           | Some r => Some (x :: r)
           | None => None
           end
  end.

(* ================================================================== *)
(** * Edge frequencies *)

Definition freq_table := list (edge * Z).

Fixpoint dict_get (k : edge) (d : freq_table) : option Z :=
  match d with
  | [] => None
  | (k', x) :: d' => if edge_eqb k k' then Some x else dict_get k d'
  end.

(** [d[k] += 1]; [None] is Python's [KeyError]. *)
Fixpoint dict_incr (k : edge) (d : freq_table) : option freq_table :=
  match d with
  | [] => None
  | (k', x) :: d' =>
      if edge_eqb k k' then Some ((k', (x + 1)%Z) :: d')
      else match dict_incr k d' with
           | Some r => Some ((k', x) :: r)
           | None => None
           end
  end.

Definition dict_contains (k : edge) (d : freq_table) : bool :=
  match dict_get k d with Some _ => true | None => false end.

(** The body of [for edge in list(G.edges())]. *)
Definition count_edge (d : freq_table) (e : edge) : outcome freq_table :=
  let k := if dict_contains e d then e else (snd e, fst e) in
  match dict_incr k d with
  | Some d' => Ok d'
  | None => Raise KeyError
  end.

Fixpoint adding_edges (es : list edge) (d : freq_table) : outcome freq_table :=
  match es with
  | [] => Ok d
  | e :: rest => obind (count_edge d e) (adding_edges rest)
  end.

(** [{key: 0 for key in posible_nodes}]. *)
Definition initial_edges_dictionary : freq_table :=
  map (fun key => (key, 0%Z)) (allpairs nodes).

(* ================================================================== *)
(** * Final graph creation *)

(** [edges_dictionary[key]/200] is a Python float, the double nearest to the
    quotient; the model keeps the quotient itself. *)
Definition final_graph_creation (edges_dictionary : freq_table) : Graph * list edge :=
  fold_left
    (fun st item =>
       let '(G, important_links) := st in
       let '(key, f) := item in
       if (f <? 250)%Z then (G, important_links)
       else
         let G := add_edge G (fst key) (snd key) (Some (Qmake f 200)) in
         if (f >? 500)%Z then (G, important_links ++ [key])
         else (G, important_links))
    edges_dictionary
    (fold_left add_node nodes empty_graph, []).

(* ================================================================== *)
(** * The program *)

(** The module [random]: a hidden generator state, and the two functions the
    program calls.  Each returns its result and the next state. *)
Class Random : Type := {
  rng : Type;
  random_choices : rng -> list string -> nat -> list string * rng;
  random_shuffle : rng -> list edge -> list edge * rng
}.

(** [random.shuffle] permutes its argument. *)
Class RandomLaws (R : Random) : Prop := {
  random_shuffle_perm :
    forall (r : rng) (l : list edge), Permutation l (fst (random_shuffle r l))
}.

(** What the program prints before the final report. *)
Inductive output : Type :=
| print_usage
| print_L (L : list string)
| print_objective (objfn : Z)
| print_adding (max_edge : edge) (max_score : Z).

(** The state of the greedy loop: [G], [PossE], [max_edge], [objfn]. *)
Definition loop_state := (Graph * list edge * option edge * Z)%type.

Section Program.

Context {R : Random}.

Record World : Type := { gen : rng; stdout : list output }.

Definition M (A : Type) : Type := World -> outcome A * World.

Definition ret {A} (a : A) : M A := fun w => (Ok a, w).

Definition bind {A B} (m : M A) (k : A -> M B) : M B :=
  fun w =>
    match m w with
    | (Ok a, w') => k a w'
    | (Raise e, w') => (Raise e, w')
    | (OutOfFuel, w') => (OutOfFuel, w')
    end.

Definition lift {A} (o : outcome A) : M A := fun w => (o, w).

Definition print (o : output) : M unit :=
  fun w => (Ok tt, {| gen := gen w; stdout := stdout w ++ [o] |}).

Definition shuffle (l : list edge) : M (list edge) :=
  fun w =>
    let '(l', g) := random_shuffle (gen w) l in
    (Ok l', {| gen := g; stdout := stdout w |}).

Definition choices (population : list string) (k : nat) : M (list string) :=
  fun w =>
    let '(L, g) := random_choices (gen w) population k in
    (Ok L, {| gen := g; stdout := stdout w |}).

Notation "x <- m ;; k" := (bind m (fun x => k))
  (at level 61, m at next level, right associativity).
Notation "m ;;; k" := (bind m (fun _ => k))
  (at level 61, right associativity).

(** The body of [while (objfn < 0)]. *)
Definition greedy_step (T : list (list node)) (st : loop_state) : M loop_state :=
  let '(G, PossE, max_edge, objfn) := st in
  print (print_objective objfn) ;;;
  PossE <- shuffle PossE ;;
  found <- lift (for_each_edge T objfn (G, 0%Z, max_edge) PossE) ;;
  let '(G, max_score, max_edge) := found in
  match max_edge with
  | None => lift (Raise NameError)
  | Some e =>
      print (print_adding e max_score) ;;;
      let G := add_edge G (fst e) (snd e) None in
      match list_remove e PossE with
      | None => lift (Raise ValueError)
      | Some PossE => ret (G, PossE, Some e, C G G T)
      end
  end.

Fixpoint main_loop (fuel : nat) (T : list (list node)) (st : loop_state) : M loop_state :=
  let '(_, _, _, objfn) := st in
  if (objfn <? 0)%Z then
    match fuel with
    | O => lift OutOfFuel
    | S fuel' => st' <- greedy_step T st ;; main_loop fuel' T st'
    end
  else ret st.

(** The file system: what reading the file a path names goes through, if the
    file can be opened. *)
Variable open_file : string -> option file.

(** The command line, [sys.argv]. *)
Variable argv : list string.

(** One pass of the bootstrap loop.  It carries the two module-level names
    that survive it: [edges_dictionary] and [max_edge].  The list [N] of term
    names is only ever appended to and is left out; [append_term] keeps the
    [IndexError] that reading [fields[1]] can raise. *)
Definition iteration (st : freq_table * option edge) : M (freq_table * option edge) :=
  let '(edges_dictionary, max_edge) := st in
  L <- choices languages 12 ;;
  print (print_L L) ;;;
  fname <- lift (match nth_error argv 1 with
                 | Some f => Ok f
                 | None => Raise IndexError
                 end) ;;
  f <- lift (match open_file fname with
             | Some f => Ok f
             | None => Raise OSError
             end) ;;
  T <- lift (read_file L f) ;;
  let '(G, PossE) := create_initial_graph T in
  let objfn := C G G T in
  final <- main_loop (S (List.length PossE)) T (G, PossE, max_edge, objfn) ;;
  let '(G, _, max_edge, _) := final in
  d <- lift (adding_edges (edges G) edges_dictionary) ;;
  ret (d, max_edge).

Fixpoint bootstrap (n : nat) (st : freq_table * option edge)
  : M (freq_table * option edge) :=
  match n with
  | O => ret st
  | S n' => st' <- iteration st ;; bootstrap n' st'
  end.

(** The module body up to the final report.  [inputFname] is assigned when
    there is exactly one argument and never read; the file is opened through
    [sys.argv[1]].  The unused generator [posible_edges] is left out. *)
Definition main : M (Graph * list edge) :=
  (if List.length argv =? 2 then ret tt else print print_usage) ;;;
  let edges_dictionary := initial_edges_dictionary in
  st <- bootstrap 1000 (edges_dictionary, None) ;;
  ret (final_graph_creation (fst st)).

End Program.

(* ================================================================== *)
(** * The order of subgraph views

    [G.subgraph(c)] is a view of [G] filtered by the set of the members of
    [c].  networkx iterates the nodes of the view, and the neighbours of a
    node in it, in the order of [G] or in the order of that set of strings,
    whichever is smaller; the order of a set of strings follows their
    hashes, which change from one process to the next and do not depend on
    the module [random].  [view G c] stands for the view as one run iterates
    it.  The definitions of this section are those above with [view] in the
    place of [subgraph]. *)

Section Views.

Context {R : Random}.

Variable view : Graph -> list node -> Graph.

Definition C_view (G : Graph) (g : Graph) (s : list (list node)) : Z :=
  fold_left
    (fun total c =>
       let ncc := number_connected_components (view G c) in
       (total + (1 - Z.of_nat ncc))%Z)
    s 0%Z.

Definition try_edge_view (T : list (list node)) (objfn : Z) (st : search_state)
  (e : edge) : outcome search_state :=
  let '(G, max_score, max_edge) := st in
  let G := add_edge G (fst e) (snd e) None in
  let score := (C_view G G T - objfn)%Z in
  obind (remove_edge G (fst e) (snd e)) (fun G =>
  if (score >? max_score)%Z then Ok (G, score, Some e)
  else Ok (G, max_score, max_edge)).

Fixpoint for_each_edge_view (T : list (list node)) (objfn : Z) (st : search_state)
  (PossE : list edge) : outcome search_state :=
  match PossE with
  | [] => Ok st
  | e :: rest =>
      obind (try_edge_view T objfn st e)
            (fun st' => for_each_edge_view T objfn st' rest)
  end.

Definition greedy_step_view (T : list (list node)) (st : loop_state) : M loop_state :=
  let '(G, PossE, max_edge, objfn) := st in
  bind (print (print_objective objfn)) (fun _ =>
  bind (shuffle PossE) (fun PossE =>
  bind (lift (for_each_edge_view T objfn (G, 0%Z, max_edge) PossE)) (fun found =>
  let '(G, max_score, max_edge) := found in
  match max_edge with
  | None => lift (Raise NameError)
  | Some e =>
      bind (print (print_adding e max_score)) (fun _ =>
      let G := add_edge G (fst e) (snd e) None in
      match list_remove e PossE with
      | None => lift (Raise ValueError)
      | Some PossE => ret (G, PossE, Some e, C_view G G T)
      end)
  end))).

Fixpoint main_loop_view (fuel : nat) (T : list (list node)) (st : loop_state)
  : M loop_state :=
  let '(_, _, _, objfn) := st in
  if (objfn <? 0)%Z then
    match fuel with
    | O => lift OutOfFuel
    | S fuel' => bind (greedy_step_view T st) (main_loop_view fuel' T)
    end
  else ret st.

Variable open_file : string -> option file.
Variable argv : list string.

Definition iteration_view (st : freq_table * option edge)
  : M (freq_table * option edge) :=
  let '(edges_dictionary, max_edge) := st in
  bind (choices languages 12) (fun L =>
  bind (print (print_L L)) (fun _ =>
  bind (lift (match nth_error argv 1 with
              | Some f => Ok f
              | None => Raise IndexError
              end)) (fun fname =>
  bind (lift (match open_file fname with
              | Some f => Ok f
              | None => Raise OSError
              end)) (fun f =>
  bind (lift (read_file L f)) (fun T =>
  let '(G, PossE) := create_initial_graph T in
  let objfn := C_view G G T in
  bind (main_loop_view (S (List.length PossE)) T (G, PossE, max_edge, objfn))
       (fun final =>
  let '(G, _, max_edge, _) := final in
  bind (lift (adding_edges (edges G) edges_dictionary)) (fun d =>
  ret (d, max_edge)))))))).

Fixpoint bootstrap_view (n : nat) (st : freq_table * option edge)
  : M (freq_table * option edge) :=
  match n with
  | O => ret st
  | S n' => bind (iteration_view st) (bootstrap_view n')
  end.

Definition main_view : M (Graph * list edge) :=
  bind (if List.length argv =? 2 then ret tt else print print_usage) (fun _ =>
  let edges_dictionary := initial_edges_dictionary in
  bind (bootstrap_view 1000 (edges_dictionary, None)) (fun st =>
  ret (final_graph_creation (fst st)))).

End Views.

(* ================================================================== *)
(** * Specification vocabulary

    Predicates and auxiliary functions the statements below are written
    with. *)

Ltac split_all := repeat match goal with |- _ /\ _ => split end.

(** [edge[::-1]]. *)
Definition swap (e : edge) : edge := (snd e, fst e).

(** The attribute dict [add_edge] stores. *)
Definition edge_data (G : Graph) (u v : node) (attr : attrs) : attrs :=
  match attr with
  | Some w => Some w
  | None => match lookup v (adj G u) with Some dd => dd | None => None end
  end.

(** Well-formed graphs: what every [networkx.Graph] satisfies. *)
Record wf_graph (G : Graph) : Prop := {
  wf_nodes : NoDup (nodes_of G);
  wf_nbrs : forall x, NoDup (neighbors G x);
  wf_closed : forall x w, In w (neighbors G x) -> In w (nodes_of G);
  wf_sym : forall x w, In w (neighbors G x) -> In x (neighbors G w)
}.

(** A graph that has only nodes. *)
Definition edgeless (G : Graph) : Prop := forall x, adj G x = [].

(** [walk G u w]: [w] can be reached from [u] along edges of [G]. *)
Inductive walk (G : Graph) : node -> node -> Prop :=
| walk_here (u : node) : walk G u u
| walk_step (u v w : node) : In v (neighbors G u) -> walk G v w -> walk G u w.

(** What holds at the head of [while nextlevel]. *)
Record bfs_inv (G : Graph) (source : node) (seen thislevel : list node) : Prop := {
  inv_source : In source seen;
  inv_reach : forall x, In x seen -> walk G source x;
  inv_done : forall x w, In x seen -> ~ In x thislevel ->
                         In w (neighbors G x) -> In w seen;
  inv_level : incl thislevel seen;
  inv_nodup : NoDup seen;
  inv_bound : incl seen (source :: nodes_of G)
}.

(** [connb G u v]: the search from [u] reaches [v]. *)
Definition connb (G : Graph) (u v : node) : bool := memb v (plain_bfs G u).

(** The nodes a search is started from: those related to none of the
    earlier ones. *)
Fixpoint firsts (r : node -> node -> bool) (reps vs : list node) : list node :=
  match vs with
  | [] => []
  | v :: vs' =>
      if existsb (fun u => r u v) reps then firsts r reps vs'
      else v :: firsts r (v :: reps) vs'
  end.

(** The contribution of one constraint: [1 - ncc]. *)
Definition term (G : Graph) (c : list node) : Z :=
  (1 - Z.of_nat (number_connected_components (subgraph G c)))%Z.

Definition Zsum (l : list Z) : Z := fold_right Z.add 0%Z l.

(** [score] in the source: the value of [C] with [e] added, minus [objfn]. *)
Definition gain (T : list (list node)) (G : Graph) (objfn : Z) (e : edge) : Z :=
  let G' := add_edge G (fst e) (snd e) None in
  (C G' G' T - objfn)%Z.

(** The body of [for pair in allpairs(t)]. *)
Definition add_pair (PossE : list edge) (p : edge) : list edge :=
  if negb (edge_memb (fst p, snd p) PossE || edge_memb (snd p, fst p) PossE)
  then PossE ++ [(fst p, snd p)] else PossE.

(** No pair is listed in both orientations. *)
Definition oriented (P : list edge) : Prop :=
  forall u v, In (u, v) P -> In (v, u) P -> u = v.

(** What the greedy loop maintains for the terms [T]: the graph is
    well-formed and has every concept of every term; the candidates join
    nodes of the graph, are not edges yet, and are listed once, in one
    orientation; two distinct concepts of a term are a candidate or are
    joined already. *)
Record greedy_inv (T : list (list node)) (G : Graph) (PossE : list edge) : Prop := {
  gi_wf : wf_graph G;
  gi_nodes : forall t n, In t T -> In n t -> In n (nodes_of G);
  gi_pool_nodes : forall u v, In (u, v) PossE -> In u (nodes_of G) /\ In v (nodes_of G);
  gi_pool_fresh : forall u v, In (u, v) PossE -> ~ In v (neighbors G u);
  gi_pool_nodup : NoDup PossE;
  gi_pool_orient : forall u v, In (u, v) PossE -> In (v, u) PossE -> u = v;
  gi_cover : forall t a b, In t T -> In a t -> In b t -> a <> b ->
             In (a, b) PossE \/ In (b, a) PossE \/ In b (neighbors G a)
}.

(** What [for e in PossE] leaves in [max_score] and [max_edge] when every
    trial restores the graph. *)
Fixpoint select (g : edge -> Z) (best : Z * option edge) (es : list edge)
  : Z * option edge :=
  match es with
  | [] => best
  | e :: es' =>
      if (g e >? fst best)%Z then select g (g e, Some e) es' else select g best es'
  end.

(** The components of a state of the greedy loop. *)
Definition graph_of (st : loop_state) : Graph := fst (fst (fst st)).
Definition pool_of (st : loop_state) : list edge := snd (fst (fst st)).
Definition max_edge_of (st : loop_state) : option edge := snd (fst st).
Definition objfn_of (st : loop_state) : Z := snd st.

(** The state in which [while (objfn < 0)] is entered; [me] is what
    [max_edge] holds from earlier bootstrap iterations. *)
Definition initial_state (T : list (list node)) (me : option edge) : loop_state :=
  (fst (create_initial_graph T), snd (create_initial_graph T), me,
   C (fst (create_initial_graph T)) (fst (create_initial_graph T)) T).

(** [steps T st st']: the loop gets from [st] to [st'] by passes of its body,
    each entered with a negative objective. *)
Inductive steps {R : Random} (T : list (list node)) : loop_state -> loop_state -> Prop :=
| steps_refl (st : loop_state) : steps T st st
| steps_cons (st st1 st2 : loop_state) (w w1 : World) :
    (objfn_of st < 0)%Z ->
    greedy_step T st w = (Ok st1, w1) ->
    steps T st1 st2 ->
    steps T st st2.

(** The states in which the loop test is evaluated when the program runs on
    the terms [T]. *)
Definition reachable {R : Random} (T : list (list node)) (st : loop_state) : Prop :=
  exists me, steps T (initial_state T me) st.

Definition state_inv (T : list (list node)) (st : loop_state) : Prop :=
  greedy_inv T (graph_of st) (pool_of st)
  /\ objfn_of st = C (graph_of st) (graph_of st) T.

(** The key under which the table counts an edge, if it has one. *)
Definition canonical (d : freq_table) (e : edge) : option edge :=
  if dict_contains e d then Some e
  else if dict_contains (swap e) d then Some (swap e)
  else None.

(** [touches k e]: [e] is [k] in one of the two orientations. *)
Definition touches (k e : edge) : bool := edge_eqb k e || edge_eqb k (swap e).

(** The body of [for key in edges_dictionary]. *)
Definition threshold_step (st : Graph * list edge) (item : edge * Z) : Graph * list edge :=
  let '(G, important_links) := st in
  let '(key, f) := item in
  if (f <? 250)%Z then (G, important_links)
  else
    let G := add_edge G (fst key) (snd key) (Some (Qmake f 200)) in
    if (f >? 500)%Z then (G, important_links ++ [key])
    else (G, important_links).

(** The keys of the table: pairs of distinct concepts, each pair once and in
    one orientation. *)
Definition key_okb (ks : list edge) (k : edge) : bool :=
  memb (fst k) nodes && memb (snd k) nodes
  && negb (String.eqb (fst k) (snd k))
  && negb (edge_memb (swap k) ks).

(** A test for a list without repetition. *)
Fixpoint nodupb (l : list edge) : bool :=
  match l with
  | [] => true
  | x :: l' => negb (edge_memb x l') && nodupb l'
  end.

Record keys_ok (ks : list edge) : Prop := {
  ko_nodup : NoDup ks;
  ko_nodes : forall u v, In (u, v) ks -> In u nodes /\ In v nodes;
  ko_apart : forall u v, In (u, v) ks -> u <> v;
  ko_orient : forall u v, In (u, v) ks -> ~ In (v, u) ks
}.

(** What holds after the items [done] have been processed. *)
Record threshold_inv (done : freq_table) (st : Graph * list edge) : Prop := {
  ti_nodes : nodes_of (fst st) = nodes;
  ti_edges : forall u v, In v (neighbors (fst st) u) ->
             exists f, (In ((u, v), f) done \/ In ((v, u), f) done) /\ (250 <= f)%Z;
  ti_weight : forall u v f, In ((u, v), f) done -> (250 <= f)%Z ->
              edge_weight (fst st) u v = Some (Qmake f 200);
  ti_links : forall k, In k (snd st) <-> exists f, In (k, f) done /\ (500 < f)%Z
}.

(** The graph after the edges [es] have been committed, in order. *)
Definition add_edges (G : Graph) (es : list edge) : Graph :=
  fold_left (fun G e => add_edge G (fst e) (snd e) None) es G.

(** Every edge carries a weight. *)
Definition weighted (G : Graph) : Prop :=
  forall m n, In n (neighbors G m) -> edge_weight G m n <> None.

(** Both adjacency entries of an edge hold the same attribute dict. *)
Definition sym_data (G : Graph) : Prop :=
  forall u v, lookup v (adj G u) = lookup u (adj G v).

(** The weight of an edge that has one. *)
Definition weight_of (G : Graph) (e : edge) : Q :=
  match edge_weight G (fst e) (snd e) with Some w => w | None => 0%Q end.

(** The pairs [graphviz_output] prints an arrow for, in the order it prints
    them. *)
Definition dot_pairs (G : Graph) : list edge :=
  flat_map (fun m => map (pair m) (filter (String.ltb m) (neighbors G m)))
           (nodes_of G).

Definition lines_of (ls : list string) : string :=
  fold_right String.append EmptyString ls.

(** The parts of the DOT text. *)
Definition dot_preamble : string :=
  "digraph CausalGraph" +++ newline +++ "{" +++ newline
    +++ "  splines=true;" +++ newline
    +++ "  node [ fontname=Arial, fontcolor=blue, fontsize=20];" +++ newline.

Definition dot_node_line (n : node) : string :=
  "  " +++ dquote +++ n +++ dquote +++ ";" +++ newline.

Definition dot_subgraph_line : string :=
  "subgraph undirected" +++ newline +++ "{" +++ newline
    +++ "  edge [dir=none];" +++ newline.

Definition dot_edge_line (str_float : Q -> string) (m n : node) (w : Q) : string :=
  "  " +++ dquote +++ m +++ dquote +++ " -> " +++ dquote +++ n +++ dquote +++ " "
    +++ " [color=" +++ dquote +++ "#cc0000ff" +++ dquote +++ ",penwidth=" +++ dquote
    +++ str_float w +++ dquote +++ "];" +++ newline.

Definition dot_closing : string := "  }" +++ newline +++ "}" +++ newline.

(** The exceptions that come from the input: a missing argument or field, a
    file that cannot be opened, bytes that are not UTF-8, a concept outside
    the twelve. *)
Definition input_error (e : exn) : Prop :=
  e = IndexError \/ e = OSError \/ e = UnicodeDecodeError \/ e = KeyError.

(** A line of text with three fields, the third a list of senses among the
    twelve concepts. *)
Definition well_formed_line (line : string) : Prop :=
  utf8_valid line = true
  /\ exists f2, nth_error (split tab (strip line)) 2 = Some f2
                /\ forall c, In c (split ", " (slice_1_m1 f2)) -> In c nodes.

(** [reordering H H']: [H'] is [H] with its nodes, and the neighbours of
    each node, listed in another order. *)
Record reordering (H H' : Graph) : Prop := {
  ro_wf : wf_graph H';
  ro_nodes : Permutation (nodes_of H) (nodes_of H');
  ro_nbrs : forall x w, In w (neighbors H x) <-> In w (neighbors H' x)
}.

(** [view] lists every induced subgraph in some order. *)
Definition valid_view (view : Graph -> list node -> Graph) : Prop :=
  forall G c, wf_graph G -> reordering (subgraph G c) (view G c).

(** How often the language of a line occurs in the draw. *)
Definition line_count (L : list string) (line : string) : nat :=
  count_occ string_dec L (hd EmptyString (split tab (strip line))).

(** [rng_determined m]: what [m] returns, and the generator it leaves, depend
    on the world only through the generator. *)
Definition rng_determined {R : Random} {A : Type} (m : M A) : Prop :=
  forall w1 w2 : World,
    gen w1 = gen w2 ->
    fst (m w1) = fst (m w2) /\ gen (snd (m w1)) = gen (snd (m w2)).

(* ================================================================== *)
(** * Sample inputs *)

(** A generator that draws the first [k] members and shuffles by reversal. *)
Definition sample_random : Random :=
  {| rng := nat;
     random_choices := fun r population k => (firstn k population, S r);
     random_shuffle := fun r l => (rev l, S r) |}.

Definition sample_world : @World sample_random := @Build_World sample_random 0 [].

(** The sample world after something has been printed. *)
Definition sample_world_printed : @World sample_random :=
  @Build_World sample_random 0 [print_usage].

(** Three concepts, [X] and [Y] joined. *)
Definition sample_graph : Graph :=
  add_edge (add_node (add_node (add_node empty_graph "X") "Y") "Z") "X" "Y" None.

(** Two terms that share a concept. *)
Definition sample_terms : list (list node) := [["X"; "Y"]; ["Y"; "Z"]].

(** Two observations sharing a concept, from two languages. *)
Definition sample_file : list string :=
  [String.append "Rapanui" (String.append tab (String.append "x"
     (String.append tab "{LOVE, FEAR}")));
   String.append "Lezgian" (String.append tab (String.append "y"
     (String.append tab "{FEAR, PITY, LOVE}")))].

Definition sample_fs (path : string) : option file :=
  if String.eqb path "isolecticsets.tsv" then Some (sample_file, EndOfFile) else None.

Definition sample_argv : list string := ["code.py"; "isolecticsets.tsv"].

(** The views of a run that iterates every subgraph backwards: nodes and
    neighbours in the reverse of the order of the graph. *)
Definition reverse_graph (H : Graph) : Graph :=
  map (fun '(n, nbrs) => (n, rev nbrs)) (rev H).

Definition reverse_view (G : Graph) (c : list node) : Graph :=
  reverse_graph (subgraph G c).

(** Two concepts joined by an edge of weight 1.5. *)
Definition sample_map : Graph :=
  add_edge (add_node (add_node empty_graph "LOVE") "FEAR") "LOVE" "FEAR"
           (Some (Qmake 3 2)).

(** A float printer that knows one number. *)
Definition sample_str_float (q : Q) : string := "1.5".

(** A table in which every pair was seen 300 times, but for one seen 600
    times. *)
Definition sample_table : freq_table :=
  map (fun key => (key, if edge_eqb key ("LOVE", "FEAR") then 600%Z else 300%Z))
      (allpairs nodes).

(* ================================================================== *)
(** * Membership tests *)

Lemma memb_In (x : node) (l : list node) : memb x l = true <-> In x l.
Proof.
  unfold memb. rewrite existsb_exists. split.
  - intros [y [Hy He]]. apply String.eqb_eq in He. now subst.
  - intros H. exists x. split; [assumption | apply String.eqb_refl].
Qed.

Lemma memb_false (x : node) (l : list node) : memb x l = false <-> ~ In x l.
Proof.
  rewrite <- memb_In. destruct (memb x l); split; intros; congruence.
Qed.

Lemma edge_eqb_eq (a b : edge) : edge_eqb a b = true <-> a = b.
Proof.
  destruct a as [a1 a2], b as [b1 b2]. unfold edge_eqb. simpl.
  rewrite andb_true_iff, !String.eqb_eq. split.
  - intros [-> ->]. reflexivity.
  - intros H. inversion H. auto.
Qed.

Lemma edge_eqb_refl (a : edge) : edge_eqb a a = true.
Proof. now apply edge_eqb_eq. Qed.

Lemma edge_eqb_neq (a b : edge) : edge_eqb a b = false <-> a <> b.
Proof.
  rewrite <- edge_eqb_eq. destruct (edge_eqb a b); split; intros; congruence.
Qed.

Lemma edge_memb_In (e : edge) (l : list edge) : edge_memb e l = true <-> In e l.
Proof.
  unfold edge_memb. rewrite existsb_exists. split.
  - intros [y [Hy He]]. apply edge_eqb_eq in He. now subst.
  - intros H. exists e. split; [assumption | apply edge_eqb_refl].
Qed.

Lemma edge_memb_false (e : edge) (l : list edge) : edge_memb e l = false <-> ~ In e l.
Proof.
  rewrite <- edge_memb_In. destruct (edge_memb e l); split; intros; congruence.
Qed.

Lemma edge_dec (a b : edge) : {a = b} + {a <> b}.
Proof. decide equality; apply string_dec. Qed.

(* ================================================================== *)
(** * Dicts *)

Section Dict.
Context {A : Type}.
Implicit Types (d : list (node * A)) (k : node) (x : A).

Lemma lookup_None k d : lookup k d = None <-> ~ In k (map fst d).
Proof.
  induction d as [|[k' y] d IH]; simpl.
  - tauto.
  - destruct (String.eqb_spec k k').
    + split; [discriminate | intros H; exfalso; apply H; auto].
    + rewrite IH. split; intros H; [intros [?|?]; [congruence|tauto] | tauto].
Qed.

Lemma lookup_Some_In k d x : lookup k d = Some x -> In (k, x) d.
Proof.
  induction d as [|[k' y] d IH]; simpl; [discriminate|].
  destruct (String.eqb_spec k k').
  - intros [= ->]. subst. auto.
  - auto.
Qed.

Lemma lookup_in_keys k d x : lookup k d = Some x -> In k (map fst d).
Proof. intros H. apply lookup_Some_In in H. now apply (in_map fst) in H. Qed.

Lemma lookup_set_item k k' x d :
  lookup k (set_item k' x d) = if String.eqb k k' then Some x else lookup k d.
Proof.
  induction d as [|[k0 y] d IH]; simpl.
  - reflexivity.
  - destruct (String.eqb_spec k' k0); simpl.
    + subst. destruct (String.eqb_spec k k0); reflexivity.
    + rewrite IH. destruct (String.eqb_spec k k0); [|reflexivity].
      subst. destruct (String.eqb_spec k0 k'); congruence.
Qed.

Lemma keys_set_item k x d :
  map fst (set_item k x d) =
  if memb k (map fst d) then map fst d else map fst d ++ [k].
Proof.
  induction d as [|[k0 y] d IH]; simpl.
  - reflexivity.
  - destruct (String.eqb_spec k k0); simpl.
    + reflexivity.
    + rewrite IH. destruct (memb k (map fst d)); reflexivity.
Qed.

Lemma set_item_lookup_same k x d : lookup k d = Some x -> set_item k x d = d.
Proof.
  induction d as [|[k0 y] d IH]; simpl; [discriminate|].
  destruct (String.eqb_spec k k0).
  - intros [= ->]. reflexivity.
  - intros H. now rewrite IH.
Qed.

Lemma set_item_twice k x y d : set_item k x (set_item k y d) = set_item k x d.
Proof.
  induction d as [|[k0 z] d IH]; simpl.
  - now rewrite String.eqb_refl.
  - destruct (String.eqb_spec k k0); simpl.
    + subst. now rewrite String.eqb_refl.
    + destruct (String.eqb_spec k k0); [congruence|]. now rewrite IH.
Qed.

Lemma set_item_comm k1 k2 x1 x2 d :
  k1 <> k2 -> In k1 (map fst d) -> In k2 (map fst d) ->
  set_item k1 x1 (set_item k2 x2 d) = set_item k2 x2 (set_item k1 x1 d).
Proof.
  intros Hne. induction d as [|[k0 z] d IH]; simpl; [tauto|].
  intros H1 H2.
  destruct (String.eqb_spec k2 k0), (String.eqb_spec k1 k0); simpl; subst;
    try congruence.
  - rewrite String.eqb_refl. destruct (String.eqb_spec k1 k0); congruence.
  - rewrite String.eqb_refl. destruct (String.eqb_spec k2 k0); congruence.
  - destruct (String.eqb_spec k1 k0), (String.eqb_spec k2 k0); try congruence.
    rewrite IH; [reflexivity | |]; intuition congruence.
Qed.

Lemma del_item_set_item_new k x d :
  ~ In k (map fst d) -> del_item k (set_item k x d) = Some d.
Proof.
  induction d as [|[k0 z] d IH]; simpl.
  - intros _. now rewrite String.eqb_refl.
  - intros H. destruct (String.eqb_spec k k0); [exfalso; auto|].
    simpl. destruct (String.eqb_spec k k0); [congruence|].
    rewrite IH by tauto. reflexivity.
Qed.

Lemma del_item_keys k d d' :
  del_item k d = Some d' -> forall y, In y (map fst d') -> In y (map fst d).
Proof.
  revert d'. induction d as [|[k0 z] d IH]; simpl; [discriminate|].
  intros d'. destruct (String.eqb_spec k k0).
  - intros [= <-] y Hy. auto.
  - destruct (del_item k d) as [d''|]; [|discriminate].
    intros [= <-] y [Hy|Hy]; simpl in *; eauto.
Qed.

End Dict.

(* ================================================================== *)
(** * Graph operations *)

Lemma has_node_In (G : Graph) (n : node) : has_node G n = true <-> In n (nodes_of G).
Proof.
  unfold has_node, nodes_of. destruct (lookup n G) eqn:E.
  - split; [intros _; eapply lookup_in_keys; eauto | reflexivity].
  - apply lookup_None in E. split; [discriminate | tauto].
Qed.

Lemma has_node_false (G : Graph) (n : node) : has_node G n = false <-> ~ In n (nodes_of G).
Proof.
  rewrite <- has_node_In. destruct (has_node G n); split; intros; congruence.
Qed.

Lemma lookup_adj (G : Graph) (n : node) :
  In n (nodes_of G) -> lookup n G = Some (adj G n).
Proof.
  intros H. unfold adj. destruct (lookup n G) eqn:E; [reflexivity|].
  apply lookup_None in E. contradiction.
Qed.

Lemma adj_set_item (G : Graph) (u x : node) (a : adjdict) :
  adj (set_item u a G) x = if String.eqb x u then a else adj G x.
Proof.
  unfold adj. rewrite lookup_set_item. now destruct (String.eqb x u).
Qed.

Lemma nodes_set_item_present (G : Graph) (u : node) (a : adjdict) :
  In u (nodes_of G) -> nodes_of (set_item u a G) = nodes_of G.
Proof.
  intros H. unfold nodes_of. rewrite keys_set_item.
  apply memb_In in H. unfold nodes_of in H. now rewrite H.
Qed.

Lemma adj_absent (G : Graph) (n : node) : ~ In n (nodes_of G) -> adj G n = [].
Proof.
  intros H. unfold adj. apply lookup_None in H. now rewrite H.
Qed.

Lemma adj_add_node (G : Graph) (n x : node) : adj (add_node G n) x = adj G x.
Proof.
  unfold add_node. destruct (has_node G n) eqn:E; [reflexivity|].
  rewrite adj_set_item. destruct (String.eqb_spec x n); [|reflexivity].
  subst. symmetry. apply adj_absent. now apply has_node_false.
Qed.

Lemma nodes_add_node (G : Graph) (n : node) :
  nodes_of (add_node G n) = if has_node G n then nodes_of G else nodes_of G ++ [n].
Proof.
  unfold add_node. destruct (has_node G n) eqn:E; [reflexivity|].
  unfold nodes_of. rewrite keys_set_item.
  apply has_node_false in E. apply memb_false in E. unfold nodes_of in E.
  now rewrite E.
Qed.

Lemma In_nodes_add_node (G : Graph) (n x : node) :
  In x (nodes_of (add_node G n)) <-> In x (nodes_of G) \/ x = n.
Proof.
  rewrite nodes_add_node. destruct (has_node G n) eqn:E.
  - apply has_node_In in E. split; [auto | intros [H| ->]; auto].
  - rewrite in_app_iff. simpl. intuition.
Qed.

Lemma add_node_present (G : Graph) (n : node) : In n (nodes_of G) -> add_node G n = G.
Proof. intros H. apply has_node_In in H. unfold add_node. now rewrite H. Qed.

Lemma add_edge_unfold (G : Graph) (u v : node) (attr : attrs) :
  add_edge G u v attr =
  let G2 := add_node (add_node G u) v in
  let dd := edge_data G u v attr in
  let G3 := set_item u (set_item v dd (adj G u)) G2 in
  set_item v (set_item u dd (adj G3 v)) G3.
Proof.
  unfold add_edge, edge_data. cbv zeta. rewrite !adj_add_node. reflexivity.
Qed.

Lemma nodes_add_edge (G : Graph) (u v : node) (attr : attrs) :
  nodes_of (add_edge G u v attr) = nodes_of (add_node (add_node G u) v).
Proof.
  rewrite add_edge_unfold. cbv zeta.
  assert (Hu : In u (nodes_of (add_node (add_node G u) v)))
    by (rewrite !In_nodes_add_node; auto).
  assert (Hv : In v (nodes_of (add_node (add_node G u) v)))
    by (rewrite !In_nodes_add_node; auto).
  rewrite nodes_set_item_present; rewrite nodes_set_item_present; auto.
Qed.

Lemma In_nodes_add_edge (G : Graph) (u v : node) (attr : attrs) (x : node) :
  In x (nodes_of (add_edge G u v attr)) <-> In x (nodes_of G) \/ x = u \/ x = v.
Proof. rewrite nodes_add_edge, !In_nodes_add_node. tauto. Qed.

Lemma nodes_add_edge_present (G : Graph) (u v : node) (attr : attrs) :
  In u (nodes_of G) -> In v (nodes_of G) ->
  nodes_of (add_edge G u v attr) = nodes_of G.
Proof.
  intros Hu Hv. rewrite nodes_add_edge.
  now rewrite (add_node_present G u Hu), (add_node_present G v Hv).
Qed.

Lemma adj_add_edge (G : Graph) (u v : node) (attr : attrs) (x : node) :
  adj (add_edge G u v attr) x =
  let dd := edge_data G u v attr in
  if String.eqb x v
  then set_item u dd (if String.eqb v u then set_item v dd (adj G u) else adj G v)
  else if String.eqb x u then set_item v dd (adj G u) else adj G x.
Proof.
  rewrite add_edge_unfold. cbv zeta.
  rewrite !adj_set_item, !adj_add_node. reflexivity.
Qed.

Lemma In_keys_set_item {A} (k : node) (x : A) (d : list (node * A)) (w : node) :
  In w (map fst (set_item k x d)) <-> In w (map fst d) \/ w = k.
Proof.
  rewrite keys_set_item. destruct (memb k (map fst d)) eqn:E.
  - apply memb_In in E. split; [auto | intros [H| ->]; auto].
  - rewrite in_app_iff. simpl. intuition.
Qed.

Lemma NoDup_snoc {A} (l : list A) (x : A) : NoDup l -> ~ In x l -> NoDup (l ++ [x]).
Proof.
  intros H Hx. apply NoDup_app.
  - assumption.
  - constructor; [simpl; tauto | constructor].
  - intros y Hy [<-|[]]. contradiction.
Qed.

Lemma NoDup_keys_set_item {A} (k : node) (x : A) (d : list (node * A)) :
  NoDup (map fst d) -> NoDup (map fst (set_item k x d)).
Proof.
  intros H. rewrite keys_set_item. destruct (memb k (map fst d)) eqn:E; [assumption|].
  apply memb_false in E. now apply NoDup_snoc.
Qed.

Lemma In_neighbors_add_edge (G : Graph) (u v : node) (attr : attrs) (x w : node) :
  In w (neighbors (add_edge G u v attr) x) <->
  In w (neighbors G x) \/ (x = u /\ w = v) \/ (x = v /\ w = u).
Proof.
  unfold neighbors. rewrite adj_add_edge. cbv zeta.
  destruct (String.eqb_spec x v) as [->|Hxv].
  - rewrite In_keys_set_item. destruct (String.eqb_spec v u) as [->|Hvu].
    + rewrite In_keys_set_item. intuition.
    + intuition congruence.
  - destruct (String.eqb_spec x u) as [->|Hxu].
    + rewrite In_keys_set_item. intuition congruence.
    + intuition congruence.
Qed.

Lemma NoDup_neighbors_add_edge (G : Graph) (u v : node) (attr : attrs) :
  (forall x, NoDup (neighbors G x)) ->
  forall x, NoDup (neighbors (add_edge G u v attr) x).
Proof.
  intros H x. unfold neighbors. rewrite adj_add_edge. cbv zeta.
  destruct (String.eqb x v).
  - apply NoDup_keys_set_item. destruct (String.eqb v u).
    + apply NoDup_keys_set_item, H.
    + apply H.
  - destruct (String.eqb x u); [apply NoDup_keys_set_item|]; apply H.
Qed.

Lemma wf_empty : wf_graph empty_graph.
Proof.
  split; simpl; intros; try constructor; unfold neighbors, adj in *; simpl in *; tauto.
Qed.

Lemma wf_add_node (G : Graph) (n : node) : wf_graph G -> wf_graph (add_node G n).
Proof.
  intros [H1 H2 H3 H4]. split.
  - rewrite nodes_add_node. destruct (has_node G n) eqn:E; [assumption|].
    apply has_node_false in E. now apply NoDup_snoc.
  - intros x. unfold neighbors. rewrite adj_add_node. apply H2.
  - intros x w. unfold neighbors. rewrite adj_add_node. intros H.
    apply In_nodes_add_node. left. now apply (H3 x).
  - intros x w. unfold neighbors. rewrite !adj_add_node. apply H4.
Qed.

Lemma wf_add_edge (G : Graph) (u v : node) (attr : attrs) :
  wf_graph G -> wf_graph (add_edge G u v attr).
Proof.
  intros HG. pose proof (wf_add_node _ v (wf_add_node _ u HG)) as [H1 _ _ _].
  destruct HG as [_ H2 H3 H4]. split.
  - now rewrite nodes_add_edge.
  - now apply NoDup_neighbors_add_edge.
  - intros x w. rewrite In_neighbors_add_edge, In_nodes_add_edge.
    intros [H|[[-> ->]|[-> ->]]]; eauto.
  - intros x w. rewrite !In_neighbors_add_edge.
    intros [H|[[-> ->]|[-> ->]]]; auto.
Qed.

(** Adding an absent edge between two present nodes and removing it again
    gives back the very same graph. *)
Lemma remove_add_edge (G : Graph) (u v : node) :
  In u (nodes_of G) -> In v (nodes_of G) ->
  ~ In v (neighbors G u) -> ~ In u (neighbors G v) ->
  remove_edge (add_edge G u v None) u v = Ok G.
Proof.
  intros Hu Hv Huv Hvu.
  assert (Eu : lookup u G = Some (adj G u)) by now apply lookup_adj.
  assert (Ev : lookup v G = Some (adj G v)) by now apply lookup_adj.
  rewrite add_edge_unfold. cbv zeta.
  rewrite (add_node_present G u Hu), (add_node_present G v Hv).
  unfold remove_edge. rewrite adj_set_item.
  destruct (String.eqb_spec v u) as [->|Hne].
  - rewrite !set_item_twice. rewrite lookup_set_item, String.eqb_refl.
    rewrite del_item_set_item_new by exact Huv.
    rewrite set_item_twice.
    now rewrite set_item_lookup_same.
  - rewrite !lookup_set_item.
    destruct (String.eqb_spec u v) as [E|_]; [congruence|].
    rewrite String.eqb_refl.
    rewrite del_item_set_item_new by exact Huv.
    rewrite (set_item_comm u v).
    + rewrite (set_item_twice u).
      rewrite (set_item_lookup_same u _ G) by exact Eu.
      rewrite lookup_set_item, String.eqb_refl.
      rewrite del_item_set_item_new by exact Hvu.
      rewrite (set_item_twice v). now rewrite set_item_lookup_same.
    + congruence.
    + change (In u (nodes_of (set_item u (set_item v (edge_data G u v None) (adj G u)) G))).
      now rewrite nodes_set_item_present.
    + change (In v (nodes_of (set_item u (set_item v (edge_data G u v None) (adj G u)) G))).
      now rewrite nodes_set_item_present.
Qed.

(* ================================================================== *)
(** * Breadth-first search *)

Lemma walk_trans (G : Graph) (u v w : node) : walk G u v -> walk G v w -> walk G u w.
Proof. induction 1; eauto using walk. Qed.

Lemma walk_edge (G : Graph) (u v : node) : In v (neighbors G u) -> walk G u v.
Proof. intros H. eapply walk_step; [exact H | constructor]. Qed.

Lemma walk_snoc (G : Graph) (u v w : node) :
  walk G u v -> In w (neighbors G v) -> walk G u w.
Proof. intros H1 H2. eapply walk_trans; [exact H1 | now apply walk_edge]. Qed.

Lemma walk_sym (G : Graph) (u v : node) :
  (forall x w, In w (neighbors G x) -> In x (neighbors G w)) ->
  walk G u v -> walk G v u.
Proof.
  intros Hs. induction 1 as [|u v w He Hw IH]; [constructor|].
  eapply walk_snoc; [exact IH | now apply Hs].
Qed.

Lemma walk_mono (G G' : Graph) (u v : node) :
  (forall x w, In w (neighbors G x) -> In w (neighbors G' x)) ->
  walk G u v -> walk G' u v.
Proof. intros Hm. induction 1; eauto using walk. Qed.

(** A set that holds [u] and the neighbours of its members holds whatever
    can be reached from [u]. *)
Lemma walk_closed (G : Graph) (S : list node) (u v : node) :
  (forall x w, In x S -> In w (neighbors G x) -> In w S) ->
  In u S -> walk G u v -> In v S.
Proof. intros Hc Hu Hw. induction Hw; eauto. Qed.

Lemma bfs_visit_spec (ws : list node) :
  forall seen next seen' next',
    bfs_visit seen next ws = (seen', next') ->
    incl seen seen'
    /\ (forall w, In w ws -> In w seen')
    /\ (forall x, In x seen' -> In x seen \/ In x ws)
    /\ (forall x, In x next' <-> In x next \/ (In x seen' /\ ~ In x seen))
    /\ (NoDup seen -> NoDup seen')
    /\ List.length seen' + List.length next = List.length seen + List.length next'.
Proof.
  induction ws as [|w ws IH]; intros seen next seen' next'; simpl.
  - intros [= <- <-]. split_all; auto using incl_refl; simpl; tauto.
  - destruct (memb w seen) eqn:E.
    + apply memb_In in E. intros H. apply IH in H.
      destruct H as (H1 & H2 & H3 & H4 & H5 & H6).
      split_all; auto.
      * intros x [<-|Hx]; auto.
      * intros x Hx. apply H3 in Hx. simpl. tauto.
    + apply memb_false in E. intros H. apply IH in H.
      destruct H as (H1 & H2 & H3 & H4 & H5 & H6).
      assert (Hw : In w seen') by (apply H1; simpl; auto).
      split_all.
      * intros x Hx. apply H1. simpl. auto.
      * intros x [<-|Hx]; auto.
      * intros x Hx. apply H3 in Hx. simpl in *. tauto.
      * intros x. rewrite H4, in_app_iff. simpl.
        destruct (string_dec w x) as [<-|Hne]; intuition.
      * intros Hnd. apply H5. now constructor.
      * rewrite length_app in H6. simpl in H6. lia.
Qed.

Lemma bfs_level_spec (G : Graph) (vs : list node) :
  forall seen next seen' next',
    bfs_level G seen next vs = (seen', next') ->
    incl seen seen'
    /\ (forall v w, In v vs -> In w (neighbors G v) -> In w seen')
    /\ (forall x, In x seen' -> In x seen \/ exists v, In v vs /\ In x (neighbors G v))
    /\ (forall x, In x next' <-> In x next \/ (In x seen' /\ ~ In x seen))
    /\ (NoDup seen -> NoDup seen')
    /\ List.length seen' + List.length next = List.length seen + List.length next'.
Proof.
  induction vs as [|v vs IH]; intros seen next seen' next'; simpl.
  - intros [= <- <-]. split_all; auto using incl_refl; try tauto.
  - destruct (bfs_visit seen next (neighbors G v)) as [s1 n1] eqn:E1.
    apply bfs_visit_spec in E1. destruct E1 as (A1 & A2 & A3 & A4 & A5 & A6).
    intros H. apply IH in H. destruct H as (H1 & H2 & H3 & H4 & H5 & H6).
    split_all.
    + eauto using incl_tran.
    + intros v0 w [<-|Hv] Hw; eauto.
    + intros x Hx. apply H3 in Hx. destruct Hx as [Hx|[v0 [Hv0 Hx]]].
      * apply A3 in Hx. destruct Hx; eauto.
      * eauto.
    + intros x. rewrite H4, A4.
      destruct (in_dec string_dec x s1) as [Hi|Hi]; intuition.
    + auto.
    + lia.
Qed.

Section BFS.

Variables (G : Graph) (source : node).
Hypothesis G_closed : forall x w, In w (neighbors G x) -> In w (nodes_of G).

Lemma bfs_inv_level (seen thislevel seen' next : list node) :
  bfs_inv G source seen thislevel ->
  bfs_level G seen [] thislevel = (seen', next) ->
  bfs_inv G source seen' next /\ List.length seen' = List.length seen + List.length next.
Proof.
  intros [I1 I2 I3 I4 I5 I6] H. apply bfs_level_spec in H.
  destruct H as (H1 & H2 & H3 & H4 & H5 & H6). split; [split|].
  - auto.
  - intros x Hx. apply H3 in Hx. destruct Hx as [Hx|[v [Hv Hx]]]; auto.
    eapply walk_snoc; [apply I2, I4, Hv | exact Hx].
  - intros x w Hx Hn Hw.
    destruct (in_dec string_dec x seen) as [Hs|Hs].
    + destruct (in_dec string_dec x thislevel) as [Ht|Ht]; eauto.
    + exfalso. apply Hn. apply H4. auto.
  - intros x Hx. apply H4 in Hx. simpl in Hx. tauto.
  - auto.
  - intros x Hx. apply H3 in Hx. destruct Hx as [Hx|[v [Hv Hx]]]; auto.
    right. eapply G_closed; eauto.
  - simpl in H6. lia.
Qed.

Lemma bfs_loop_spec (fuel : nat) :
  forall seen thislevel,
    bfs_inv G source seen thislevel ->
    (thislevel = [] \/ S (List.length G) - List.length seen < fuel) ->
    let res := bfs_loop fuel G seen thislevel in
    In source res
    /\ (forall x, In x res -> walk G source x)
    /\ (forall x w, In x res -> In w (neighbors G x) -> In w res)
    /\ NoDup res.
Proof.
  induction fuel as [|fuel IH]; intros seen thislevel Hinv Hfuel.
  - destruct Hfuel as [->|Hf]; [|lia]. simpl. destruct Hinv.
    repeat split; auto. intros x w Hx. eapply inv_done0; eauto.
  - destruct thislevel as [|v vs].
    + simpl. destruct Hinv. repeat split; auto.
      intros x w Hx. eapply inv_done0; eauto.
    + cbn [bfs_loop]. destruct (bfs_level G seen [] (v :: vs)) as [seen' next] eqn:E.
      destruct (bfs_inv_level _ _ _ _ Hinv E) as [Hinv' Hlen].
      apply IH; [exact Hinv'|].
      destruct next as [|n ns]; [now left | right].
      destruct Hfuel as [Hf|Hf]; [discriminate|].
      pose proof (NoDup_incl_length (inv_nodup _ _ _ _ Hinv') (inv_bound _ _ _ _ Hinv')) as Hb.
      simpl in Hb, Hlen. unfold nodes_of in Hb. rewrite length_map in Hb. lia.
Qed.

Lemma bfs_inv_init : bfs_inv G source [source] [source].
Proof.
  split; simpl.
  - auto.
  - intros y [<-|[]]. constructor.
  - intros y w [<-|[]] Hn. exfalso. auto.
  - apply incl_refl.
  - constructor; [simpl; tauto | constructor].
  - intros y [<-|[]]. simpl. auto.
Qed.

(** [_plain_bfs] returns exactly the nodes that can be reached from its
    source. *)
Lemma plain_bfs_spec (x : node) : In x (plain_bfs G source) <-> walk G source x.
Proof.
  unfold plain_bfs.
  destruct (bfs_loop_spec (S (List.length G)) _ _ bfs_inv_init) as (H1 & H2 & H3 & H4).
  { right. simpl. lia. }
  split; [apply H2|].
  intros Hw. eapply walk_closed; eauto.
Qed.

End BFS.

(* ================================================================== *)
(** * Counting components *)

Lemma components_firsts (G : Graph) (vs : list node) :
  forall seen reps,
    (forall x, In x seen <-> exists u, In u reps /\ connb G u x = true) ->
    List.length (components_from G seen vs) = List.length (firsts (connb G) reps vs).
Proof.
  induction vs as [|v vs IH]; intros seen reps Hinv; simpl; [reflexivity|].
  assert (E : memb v seen = existsb (fun u => connb G u v) reps).
  { apply eq_true_iff_eq. rewrite memb_In, existsb_exists. apply Hinv. }
  rewrite E. destruct (existsb _ reps); [now apply IH|].
  simpl. f_equal. apply IH. intros x. rewrite in_app_iff, Hinv.
  simpl. split.
  - intros [H|[u [Hu H]]]; [exists v | exists u]; auto.
    split; auto. unfold connb. now apply memb_In.
  - intros [u [[<-|Hu] H]]; [left | right; exists u; auto].
    unfold connb in H. now apply memb_In in H.
Qed.

Lemma ncc_firsts (G : Graph) :
  number_connected_components G = List.length (firsts (connb G) [] (nodes_of G)).
Proof.
  unfold number_connected_components, connected_components.
  apply components_firsts. intros x. simpl. split; [tauto | intros [u [[] _]]].
Qed.

Section Firsts.

Variable r : node -> node -> bool.
Variable R : node -> node -> Prop.
Hypothesis r_spec : forall u v, r u v = true <-> R u v.
Hypothesis R_refl : forall u, R u u.
Hypothesis R_sym : forall u v, R u v -> R v u.
Hypothesis R_trans : forall u v w, R u v -> R v w -> R u w.

Lemma skip_iff (reps : list node) (v : node) :
  existsb (fun u => r u v) reps = true <-> exists u, In u reps /\ R u v.
Proof.
  rewrite existsb_exists. split; intros [u [Hu H]]; exists u; split; auto;
    now apply r_spec.
Qed.

Lemma firsts_incl (vs : list node) : forall reps, incl (firsts r reps vs) vs.
Proof.
  induction vs as [|v vs IH]; intros reps; simpl; [apply incl_refl|].
  destruct (existsb _ reps).
  - apply incl_tl, IH.
  - apply incl_cons; [simpl; auto | apply incl_tl, IH].
Qed.

Lemma firsts_length (vs : list node) :
  forall reps, List.length (firsts r reps vs) <= List.length vs.
Proof.
  induction vs as [|v vs IH]; intros reps; simpl; [lia|].
  destruct (existsb _ reps); simpl.
  - specialize (IH reps). lia.
  - specialize (IH (v :: reps)). lia.
Qed.

Lemma firsts_apart_reps (vs : list node) :
  forall reps x u, In x (firsts r reps vs) -> In u reps -> ~ R u x.
Proof.
  induction vs as [|v vs IH]; intros reps x u; simpl; [tauto|].
  destruct (existsb (fun u => r u v) reps) eqn:E.
  - apply IH.
  - intros [<-|Hx] Hu HR.
    + assert (existsb (fun u => r u v) reps = true) by (apply skip_iff; eauto).
      congruence.
    + eapply IH; [exact Hx | right; exact Hu | exact HR].
Qed.

Lemma firsts_apart (vs : list node) :
  forall reps x y,
    In x (firsts r reps vs) -> In y (firsts r reps vs) -> x <> y -> ~ R x y.
Proof.
  induction vs as [|v vs IH]; intros reps x y; simpl; [tauto|].
  destruct (existsb (fun u => r u v) reps).
  - apply IH.
  - intros [<-|Hx] [<-|Hy] Hne HR.
    + congruence.
    + eapply firsts_apart_reps; [exact Hy | left; reflexivity | exact HR].
    + eapply firsts_apart_reps; [exact Hx | left; reflexivity | now apply R_sym].
    + exact (IH _ _ _ Hx Hy Hne HR).
Qed.

Lemma firsts_NoDup (vs : list node) : forall reps, NoDup (firsts r reps vs).
Proof.
  induction vs as [|v vs IH]; intros reps; simpl; [constructor|].
  destruct (existsb (fun u => r u v) reps); [apply IH|].
  constructor; [|apply IH].
  intros Hv. eapply firsts_apart_reps; [exact Hv | left; reflexivity | apply R_refl].
Qed.

Lemma firsts_cover (vs : list node) :
  forall reps x, In x vs ->
    exists a, (In a reps \/ In a (firsts r reps vs)) /\ R a x.
Proof.
  induction vs as [|v vs IH]; intros reps x; simpl; [tauto|].
  destruct (existsb (fun u => r u v) reps) eqn:E.
  - intros [<-|Hx].
    + apply skip_iff in E. destruct E as [u [Hu HR]]. eauto.
    + apply IH. exact Hx.
  - intros [<-|Hx].
    + exists v. simpl. auto.
    + destruct (IH (v :: reps) x Hx) as [a [[[Ea|Ha]|Ha] HR]];
        exists a; simpl; auto.
Qed.

End Firsts.

(** Two relations on the same nodes, the second coarser than the first. *)
Section FirstsMono.

Variables r r' : node -> node -> bool.
Variables R R' : node -> node -> Prop.
Hypothesis r_spec : forall u v, r u v = true <-> R u v.
Hypothesis r'_spec : forall u v, r' u v = true <-> R' u v.
Hypothesis R_refl : forall u, R u u.
Hypothesis R'_refl : forall u, R' u u.
Hypothesis R_sym : forall u v, R u v -> R v u.
Hypothesis R'_sym : forall u v, R' u v -> R' v u.
Hypothesis R_trans : forall u v w, R u v -> R v w -> R u w.
Hypothesis R'_trans : forall u v w, R' u v -> R' v w -> R' u w.
Hypothesis R_R' : forall u v, R u v -> R' u v.

Lemma firsts_mono (vs : list node) :
  forall reps reps',
    (forall u, In u reps -> exists u', In u' reps' /\ R' u' u) ->
    incl (firsts r' reps' vs) (firsts r reps vs).
Proof.
  induction vs as [|v vs IH]; intros reps reps' Hinv; simpl; [apply incl_refl|].
  destruct (existsb (fun u => r u v) reps) eqn:E;
    destruct (existsb (fun u => r' u v) reps') eqn:E'.
  - now apply IH.
  - exfalso. apply (skip_iff r R r_spec) in E. destruct E as [u [Hu HR]].
    destruct (Hinv u Hu) as [u' [Hu' HR']].
    assert (existsb (fun u => r' u v) reps' = true).
    { apply (skip_iff r' R' r'_spec). exists u'. split; eauto. }
    congruence.
  - apply incl_tl. apply IH. intros u [<-|Hu]; [|auto].
    apply (skip_iff r' R' r'_spec) in E'. exact E'.
  - apply incl_cons; [simpl; auto|]. apply incl_tl. apply IH.
    intros u [<-|Hu].
    + exists v. simpl. auto.
    + destruct (Hinv u Hu) as [u' [Hu' HR']]. exists u'. simpl. auto.
Qed.

Lemma firsts_count_mono (vs : list node) :
  List.length (firsts r' [] vs) <= List.length (firsts r [] vs).
Proof.
  apply NoDup_incl_length.
  - apply (firsts_NoDup r' R' r'_spec R'_refl).
  - apply firsts_mono. intros u [].
Qed.

Lemma firsts_count_strict (vs : list node) (u v : node) :
  In u vs -> In v vs -> ~ R u v -> R' u v ->
  List.length (firsts r' [] vs) < List.length (firsts r [] vs).
Proof.
  intros Hu Hv HnR HR'.
  destruct (firsts_cover r R r_spec R_refl vs [] u Hu) as [a [[[]|Ha] HRa]].
  destruct (firsts_cover r R r_spec R_refl vs [] v Hv) as [b [[[]|Hb] HRb]].
  assert (Hab : a <> b).
  { intros ->. apply HnR. apply R_trans with b; [now apply R_sym | exact HRb]. }
  assert (HR'ab : R' a b).
  { apply R'_trans with u; [auto|]. apply R'_trans with v; [auto|].
    apply R'_sym. auto. }
  assert (Hmiss : exists c, In c (firsts r [] vs) /\ ~ In c (firsts r' [] vs)).
  { destruct (in_dec string_dec a (firsts r' [] vs)) as [Ia|Ia]; [|eauto].
    exists b. split; [exact Hb|]. intros Ib.
    exact (firsts_apart r' R' r'_spec R'_sym vs [] a b Ia Ib Hab HR'ab). }
  destruct Hmiss as [c [Hc Hnc]].
  apply Nat.le_lt_trans with (List.length (remove string_dec c (firsts r [] vs))).
  - apply NoDup_incl_length.
    + apply (firsts_NoDup r' R' r'_spec R'_refl).
    + intros x Hx. apply in_in_remove.
      * intros ->. contradiction.
      * revert x Hx. apply firsts_mono. intros w [].
  - now apply remove_length_lt.
Qed.

End FirstsMono.

(** The count does not depend on the order in which the nodes are met. *)
Section FirstsPerm.

Variable r : node -> node -> bool.
Variable R : node -> node -> Prop.
Hypothesis r_spec : forall u v, r u v = true <-> R u v.
Hypothesis R_sym : forall u v, R u v -> R v u.
Hypothesis R_trans : forall u v w, R u v -> R v w -> R u w.

Lemma firsts_reps_ext (vs : list node) :
  forall reps reps',
    (forall x, (exists u, In u reps /\ R u x) <-> (exists u, In u reps' /\ R u x)) ->
    firsts r reps vs = firsts r reps' vs.
Proof.
  induction vs as [|v vs IH]; intros reps reps' H; simpl; [reflexivity|].
  assert (E : existsb (fun u => r u v) reps = existsb (fun u => r u v) reps').
  { apply eq_true_iff_eq. rewrite !(skip_iff r R r_spec). apply H. }
  rewrite E. destruct (existsb _ reps'); [now apply IH|].
  f_equal. apply IH. intros x. simpl. split.
  - intros [u [[<-|Hu] HR]]; [eauto|].
    destruct (proj1 (H x)) as [u' [Hu' HR']]; eauto.
  - intros [u [[<-|Hu] HR]]; [eauto|].
    destruct (proj2 (H x)) as [u' [Hu' HR']]; eauto.
Qed.

Lemma firsts_perm_length (vs vs' : list node) :
  Permutation vs vs' ->
  forall reps, List.length (firsts r reps vs) = List.length (firsts r reps vs').
Proof.
  induction 1 as [|x l l' HP IH|x y l|l l' l'' HP1 IH1 HP2 IH2]; intros reps.
  - reflexivity.
  - simpl. destruct (existsb _ reps); simpl; auto.
  - cbn [firsts existsb].
    destruct (existsb (fun u => r u y) reps) eqn:Ey;
      destruct (existsb (fun u => r u x) reps) eqn:Ex;
      rewrite ?orb_true_r, ?orb_false_r; try reflexivity.
    assert (E : r y x = r x y).
    { apply eq_true_iff_eq. rewrite !r_spec. split; apply R_sym. }
    rewrite E. destruct (r x y) eqn:Exy; simpl; f_equal.
    + apply r_spec in Exy. f_equal. apply firsts_reps_ext. intros z. simpl. split.
      * intros [u [[<-|Hu] HR]]; [exists x; split; eauto | eauto].
      * intros [u [[<-|Hu] HR]]; [exists y; split; eauto | eauto].
    + f_equal. f_equal. apply firsts_reps_ext. intros z. simpl. split.
      * intros [u [[<-|[<-|Hu]] HR]]; eauto 6.
      * intros [u [[<-|[<-|Hu]] HR]]; eauto 6.
  - now rewrite IH1, IH2.
Qed.

Lemma firsts_ext (r' : node -> node -> bool) (vs : list node) :
  (forall u v, r u v = r' u v) ->
  forall reps, firsts r reps vs = firsts r' reps vs.
Proof.
  intros H. induction vs as [|v vs IH]; intros reps; simpl; [reflexivity|].
  assert (E : existsb (fun u => r u v) reps = existsb (fun u => r' u v) reps).
  { induction reps as [|u reps IHr]; simpl; [reflexivity|]. now rewrite H, IHr. }
  rewrite E. destruct (existsb (fun u => r' u v) reps); now rewrite IH.
Qed.

End FirstsPerm.

(* ================================================================== *)
(** * Components of well-formed graphs *)

Lemma connb_spec (G : Graph) (u v : node) :
  wf_graph G -> connb G u v = true <-> walk G u v.
Proof.
  intros HG. unfold connb. rewrite memb_In. apply plain_bfs_spec.
  apply (wf_closed G HG).
Qed.

Lemma ncc_pos (G : Graph) : G <> [] -> 1 <= number_connected_components G.
Proof.
  destruct G as [|[n a] G]; [congruence|]. intros _.
  unfold number_connected_components, connected_components. simpl. lia.
Qed.

Lemma ncc_le_length (G : Graph) : number_connected_components G <= List.length G.
Proof.
  rewrite ncc_firsts. etransitivity; [apply firsts_length|].
  unfold nodes_of. now rewrite length_map.
Qed.

Lemma ncc_empty : number_connected_components [] = 0.
Proof. reflexivity. Qed.

Lemma ncc_mono (H H' : Graph) :
  wf_graph H -> wf_graph H' -> nodes_of H = nodes_of H' ->
  (forall x w, In w (neighbors H x) -> In w (neighbors H' x)) ->
  number_connected_components H' <= number_connected_components H.
Proof.
  intros W W' Hn Hsub. rewrite !ncc_firsts, <- Hn.
  apply firsts_count_mono with (R := walk H) (R' := walk H').
  - intros; now apply connb_spec.
  - intros; now apply connb_spec.
  - apply walk_here.
  - intros u v. apply walk_sym, (wf_sym H' W').
  - intros u v w. apply walk_trans.
  - intros u v. now apply walk_mono.
Qed.

Lemma ncc_strict (H H' : Graph) (u v : node) :
  wf_graph H -> wf_graph H' -> nodes_of H = nodes_of H' ->
  (forall x w, In w (neighbors H x) -> In w (neighbors H' x)) ->
  In u (nodes_of H) -> In v (nodes_of H) -> ~ walk H u v -> walk H' u v ->
  number_connected_components H' < number_connected_components H.
Proof.
  intros W W' Hn Hsub Hu Hv Hnw Hw. rewrite !ncc_firsts, <- Hn.
  apply firsts_count_strict with (R := walk H) (R' := walk H') (u := u) (v := v);
    auto.
  - intros; now apply connb_spec.
  - intros; now apply connb_spec.
  - apply walk_here.
  - apply walk_here.
  - intros a b. apply walk_sym, (wf_sym H W).
  - intros a b. apply walk_sym, (wf_sym H' W').
  - intros a b c. apply walk_trans.
  - intros a b c. apply walk_trans.
  - intros a b. now apply walk_mono.
Qed.

(** Two graphs with the same nodes and the same neighbours, listed in any
    order, have the same number of components. *)
Lemma ncc_order_irrelevant (H H' : Graph) :
  wf_graph H -> wf_graph H' ->
  Permutation (nodes_of H) (nodes_of H') ->
  (forall x w, In w (neighbors H x) <-> In w (neighbors H' x)) ->
  number_connected_components H = number_connected_components H'.
Proof.
  intros W W' HP Hn. rewrite !ncc_firsts.
  rewrite (firsts_ext (connb H) (connb H') (nodes_of H)).
  - apply (firsts_perm_length (connb H') (walk H')); auto.
    + intros u v. now apply connb_spec.
    + intros u v. apply walk_sym, (wf_sym H' W').
    + intros u v w. apply walk_trans.
  - intros u v. apply eq_true_iff_eq. rewrite !connb_spec by assumption.
    split; apply walk_mono; intros x w; apply Hn.
Qed.

(** With two components or more, two nodes are not connected. *)
Lemma ncc_two_apart (H : Graph) :
  wf_graph H -> 2 <= number_connected_components H ->
  exists a b, In a (nodes_of H) /\ In b (nodes_of H) /\ a <> b /\ ~ walk H a b.
Proof.
  intros W. rewrite ncc_firsts.
  pose proof (firsts_incl (connb H) (nodes_of H) []) as Hin.
  pose proof (firsts_NoDup (connb H) (walk H)
                (fun u v => connb_spec H u v W) (walk_here H) (nodes_of H) []) as Hnd.
  pose proof (firsts_apart (connb H) (walk H)
                (fun u v => connb_spec H u v W)
                (fun u v => walk_sym H u v (wf_sym H W)) (nodes_of H) []) as Hap.
  destruct (firsts (connb H) [] (nodes_of H)) as [|a [|b l]]; simpl; try lia.
  intros _. exists a, b. inversion Hnd as [|? ? Ha _]; subst.
  assert (a <> b) by (intros ->; apply Ha; simpl; auto).
  repeat split; auto.
  - apply Hin; simpl; auto.
  - apply Hin; simpl; auto.
  - apply Hap; simpl; auto.
Qed.

(** ** Induced subgraphs *)

Lemma In_induced (G : Graph) (c : list node) (x : node) :
  memb x (filter (has_node G) c) = true <-> In x c /\ In x (nodes_of G).
Proof. now rewrite memb_In, filter_In, has_node_In. Qed.

Lemma nodes_subgraph (G : Graph) (c : list node) :
  nodes_of (subgraph G c) =
  filter (fun n => memb n (filter (has_node G) c)) (nodes_of G).
Proof.
  unfold subgraph, nodes_of. generalize (filter (has_node G) c) as ind. intros ind.
  induction G as [|[n a] G IH]; simpl; [reflexivity|].
  destruct (memb n ind); simpl; now rewrite IH.
Qed.

Lemma In_nodes_subgraph (G : Graph) (c : list node) (x : node) :
  In x (nodes_of (subgraph G c)) <-> In x (nodes_of G) /\ In x c.
Proof. rewrite nodes_subgraph, filter_In, In_induced. tauto. Qed.

Lemma adj_subgraph (G : Graph) (c : list node) (x : node) :
  adj (subgraph G c) x =
  let induced := filter (has_node G) c in
  if memb x induced then filter (fun '(w, _) => memb w induced) (adj G x) else [].
Proof.
  unfold subgraph, adj. cbv zeta. generalize (filter (has_node G) c) as ind. intros ind.
  induction G as [|[n a] G IH]; simpl.
  - now destruct (memb x ind).
  - destruct (String.eqb_spec x n) as [->|Hne].
    + destruct (memb n ind) eqn:E; simpl.
      * now rewrite String.eqb_refl.
      * rewrite IH. reflexivity.
    + destruct (memb n ind) eqn:E; simpl.
      * destruct (String.eqb_spec x n); [congruence|]. apply IH.
      * apply IH.
Qed.

Lemma neighbors_subgraph (G : Graph) (c : list node) (x : node) :
  neighbors (subgraph G c) x =
  let induced := filter (has_node G) c in
  if memb x induced then filter (fun w => memb w induced) (neighbors G x) else [].
Proof.
  unfold neighbors. rewrite adj_subgraph. cbv zeta.
  destruct (memb x (filter (has_node G) c)); [|reflexivity].
  generalize (filter (has_node G) c) as ind. intros ind.
  induction (adj G x) as [|[w d] l IH]; simpl; [reflexivity|].
  destruct (memb w ind); simpl; now rewrite IH.
Qed.

Lemma In_neighbors_subgraph (G : Graph) (c : list node) (x w : node) :
  wf_graph G ->
  In w (neighbors (subgraph G c) x) <-> In w (neighbors G x) /\ In x c /\ In w c.
Proof.
  intros W. rewrite neighbors_subgraph. cbv zeta.
  destruct (memb x (filter (has_node G) c)) eqn:E.
  - apply In_induced in E. rewrite filter_In, In_induced. split.
    + tauto.
    + intros (H1 & H2 & H3). repeat split; auto. eapply wf_closed; eauto.
  - split; [intros []|]. intros (H1 & H2 & H3).
    assert (memb x (filter (has_node G) c) = true); [|congruence].
    apply In_induced. split; auto.
    apply (wf_sym G W) in H1. eapply wf_closed; eauto.
Qed.

Lemma wf_subgraph (G : Graph) (c : list node) : wf_graph G -> wf_graph (subgraph G c).
Proof.
  intros W. split.
  - rewrite nodes_subgraph. apply NoDup_filter, (wf_nodes G W).
  - intros x. rewrite neighbors_subgraph. cbv zeta.
    destruct (memb x _); [|constructor]. apply NoDup_filter, (wf_nbrs G W).
  - intros x w H. apply In_neighbors_subgraph in H; [|exact W].
    destruct H as (H1 & H2 & H3). apply In_nodes_subgraph. split; auto.
    eapply wf_closed; eauto.
  - intros x w H. apply In_neighbors_subgraph in H; [|exact W].
    apply In_neighbors_subgraph; [exact W|].
    destruct H as (H1 & H2 & H3). repeat split; auto. now apply (wf_sym G W).
Qed.

(* ================================================================== *)
(** * The connectedness function as a sum *)

Lemma Zsum_cons (z : Z) (l : list Z) : Zsum (z :: l) = (z + Zsum l)%Z.
Proof. reflexivity. Qed.

Lemma C_fold (G : Graph) (s : list (list node)) (a : Z) :
  fold_left
    (fun total c =>
       let ncc := number_connected_components (subgraph G c) in
       (total + (1 - Z.of_nat ncc))%Z) s a
  = (a + Zsum (map (term G) s))%Z.
Proof.
  revert a. induction s as [|c s IH]; intros a; cbn [fold_left map].
  - unfold Zsum. simpl. lia.
  - rewrite IH, Zsum_cons. cbv zeta. unfold term. lia.
Qed.

Lemma C_sum (G g : Graph) (s : list (list node)) : C G g s = Zsum (map (term G) s).
Proof. unfold C. rewrite C_fold. lia. Qed.

Lemma Zsum_nonpos (l : list Z) :
  (forall z, In z l -> (z <= 0)%Z) ->
  (Zsum l <= 0)%Z /\ (Zsum l = 0%Z <-> forall z, In z l -> z = 0%Z).
Proof.
  induction l as [|z l IH]; simpl; intros H.
  - split; [lia | split; [tauto | reflexivity]].
  - assert (Hz : (z <= 0)%Z) by auto.
    assert (Hl : forall y, In y l -> (y <= 0)%Z) by auto.
    destruct (IH Hl) as [IH1 IH2]. split; [lia|]. split.
    + intros E y [<-|Hy]; [lia|]. apply IH2; [lia | exact Hy].
    + intros E. rewrite (E z) by auto.
      assert (Zsum l = 0%Z) by (apply IH2; auto). lia.
Qed.

Lemma Zsum_neg_term (l : list Z) : (Zsum l < 0)%Z -> exists z, In z l /\ (z < 0)%Z.
Proof.
  induction l as [|z l IH]; simpl; intros H; [lia|].
  destruct (Z_lt_dec z 0); [eauto|].
  assert (Hl : (Zsum l < 0)%Z) by lia.
  destruct (IH Hl) as [y [Hy Hlt]]. eauto.
Qed.

Lemma Zsum_map_le {A} (f f' : A -> Z) (l : list A) :
  (forall x, In x l -> (f x <= f' x)%Z) -> (Zsum (map f l) <= Zsum (map f' l))%Z.
Proof.
  induction l as [|x l IH]; simpl; intros H; [lia|].
  specialize (H x (or_introl eq_refl)) as Hx.
  assert (Zsum (map f l) <= Zsum (map f' l))%Z by auto. lia.
Qed.

Lemma Zsum_map_lt {A} (f f' : A -> Z) (l : list A) (y : A) :
  (forall x, In x l -> (f x <= f' x)%Z) -> In y l -> (f y < f' y)%Z ->
  (Zsum (map f l) < Zsum (map f' l))%Z.
Proof.
  induction l as [|x l IH]; simpl; intros H Hy Hlt; [tauto|].
  specialize (H x (or_introl eq_refl)) as Hx.
  assert (Hle : (Zsum (map f l) <= Zsum (map f' l))%Z) by (apply Zsum_map_le; auto).
  destruct Hy as [->|Hy]; [lia|].
  assert (Zsum (map f l) < Zsum (map f' l))%Z by auto. lia.
Qed.

(** A constraint with a concept among the nodes counts at most 0. *)
Lemma term_nonpos (G : Graph) (c : list node) :
  (exists n, In n c /\ has_node G n = true) -> (term G c <= 0)%Z.
Proof.
  intros [n [Hn Hg]]. unfold term.
  assert (1 <= number_connected_components (subgraph G c)); [|lia].
  apply ncc_pos. intros E.
  assert (Hin : In n (nodes_of (subgraph G c))).
  { apply In_nodes_subgraph. split; [now apply has_node_In | exact Hn]. }
  rewrite E in Hin. exact Hin.
Qed.

(* ================================================================== *)
(** * The gain of a candidate edge *)

Lemma has_node_add_edge_present (G : Graph) (a b : node) (attr : attrs) (n : node) :
  In a (nodes_of G) -> In b (nodes_of G) ->
  has_node (add_edge G a b attr) n = has_node G n.
Proof.
  intros Ha Hb. apply eq_true_iff_eq.
  now rewrite !has_node_In, nodes_add_edge_present.
Qed.

Lemma nodes_subgraph_add_edge (G : Graph) (a b : node) (attr : attrs) (t : list node) :
  In a (nodes_of G) -> In b (nodes_of G) ->
  nodes_of (subgraph (add_edge G a b attr) t) = nodes_of (subgraph G t).
Proof.
  intros Ha Hb. rewrite !nodes_subgraph, nodes_add_edge_present by assumption.
  rewrite (filter_ext (has_node (add_edge G a b attr)) (has_node G)); [reflexivity|].
  intros n. now apply has_node_add_edge_present.
Qed.

Lemma neighbors_subgraph_add_edge (G : Graph) (a b : node) (attr : attrs)
  (t : list node) (x w : node) :
  wf_graph G ->
  In w (neighbors (subgraph G t) x) ->
  In w (neighbors (subgraph (add_edge G a b attr) t) x).
Proof.
  intros W. rewrite !In_neighbors_subgraph by auto using wf_add_edge.
  rewrite In_neighbors_add_edge. tauto.
Qed.

Lemma term_add_edge_le (G : Graph) (a b : node) (t : list node) :
  wf_graph G -> In a (nodes_of G) -> In b (nodes_of G) ->
  (term G t <= term (add_edge G a b None) t)%Z.
Proof.
  intros W Ha Hb. unfold term.
  assert (number_connected_components (subgraph (add_edge G a b None) t)
          <= number_connected_components (subgraph G t)); [|lia].
  apply ncc_mono.
  - now apply wf_subgraph.
  - now apply wf_subgraph, wf_add_edge.
  - symmetry. now apply nodes_subgraph_add_edge.
  - intros x w. now apply neighbors_subgraph_add_edge.
Qed.

Lemma term_add_edge_lt (G : Graph) (a b : node) (t : list node) :
  wf_graph G -> In a (nodes_of G) -> In b (nodes_of G) ->
  In a t -> In b t -> ~ walk (subgraph G t) a b ->
  (term G t < term (add_edge G a b None) t)%Z.
Proof.
  intros W Ha Hb Hat Hbt Hnw. unfold term.
  assert (number_connected_components (subgraph (add_edge G a b None) t)
          < number_connected_components (subgraph G t)); [|lia].
  apply ncc_strict with (u := a) (v := b).
  - now apply wf_subgraph.
  - now apply wf_subgraph, wf_add_edge.
  - symmetry. now apply nodes_subgraph_add_edge.
  - intros x w. now apply neighbors_subgraph_add_edge.
  - apply In_nodes_subgraph. auto.
  - apply In_nodes_subgraph. auto.
  - exact Hnw.
  - apply walk_edge. apply In_neighbors_subgraph; [now apply wf_add_edge|].
    rewrite In_neighbors_add_edge. auto.
Qed.

Lemma gain_nonneg (T : list (list node)) (G : Graph) (a b : node) :
  wf_graph G -> In a (nodes_of G) -> In b (nodes_of G) ->
  (0 <= gain T G (C G G T) (a, b))%Z.
Proof.
  intros W Ha Hb. unfold gain. simpl. rewrite !C_sum.
  assert (Zsum (map (term G) T) <= Zsum (map (term (add_edge G a b None)) T))%Z; [|lia].
  apply Zsum_map_le. intros t _. now apply term_add_edge_le.
Qed.

Lemma gain_pos (T : list (list node)) (G : Graph) (a b : node) (t : list node) :
  wf_graph G -> In a (nodes_of G) -> In b (nodes_of G) ->
  In t T -> In a t -> In b t -> ~ walk (subgraph G t) a b ->
  (0 < gain T G (C G G T) (a, b))%Z.
Proof.
  intros W Ha Hb Ht Hat Hbt Hnw. unfold gain. simpl. rewrite !C_sum.
  assert (Zsum (map (term G) T) < Zsum (map (term (add_edge G a b None)) T))%Z; [|lia].
  apply Zsum_map_lt with (y := t); auto.
  - intros x _. now apply term_add_edge_le.
  - now apply term_add_edge_lt.
Qed.

(** While the objective is negative the pool holds an edge that raises it. *)
Lemma candidate_with_gain (T : list (list node)) (G : Graph) (PossE : list edge) :
  greedy_inv T G PossE -> (C G G T < 0)%Z ->
  exists e, In e PossE /\ (0 < gain T G (C G G T) e)%Z.
Proof.
  intros I Hneg. pose proof (gi_wf _ _ _ I) as W.
  rewrite C_sum in Hneg. apply Zsum_neg_term in Hneg.
  destruct Hneg as [z [Hz Hlt]]. apply in_map_iff in Hz.
  destruct Hz as [t [<- Ht]]. unfold term in Hlt.
  destruct (ncc_two_apart (subgraph G t)) as (a & b & Ha & Hb & Hne & Hnw).
  { now apply wf_subgraph. }
  { lia. }
  apply In_nodes_subgraph in Ha, Hb. destruct Ha as [Ha Hat], Hb as [Hb Hbt].
  destruct (gi_cover _ _ _ I t a b Ht Hat Hbt Hne) as [Hp|[Hp|Hp]].
  - exists (a, b). split; [exact Hp|]. now apply gain_pos with (t := t).
  - exists (b, a). split; [exact Hp|]. apply gain_pos with (t := t); auto.
    intros Hw. apply Hnw. apply walk_sym; [|exact Hw].
    apply (wf_sym _ (wf_subgraph G t W)).
  - exfalso. apply Hnw, walk_edge. apply In_neighbors_subgraph; auto.
Qed.

(* ================================================================== *)
(** * The initial graph satisfies the invariant *)

Lemma allpairs_In {A} (t : list A) (u v : A) :
  In (u, v) (allpairs t) -> In u t /\ In v t.
Proof.
  induction t as [|x xs IH]; simpl; [tauto|].
  rewrite in_app_iff, in_map_iff. intros [[y [[= <- <-] Hy]]|H]; [auto|].
  destruct (IH H). auto.
Qed.

Lemma allpairs_cover {A} (t : list A) (a b : A) :
  In a t -> In b t -> a <> b -> In (a, b) (allpairs t) \/ In (b, a) (allpairs t).
Proof.
  induction t as [|x xs IH]; simpl; [tauto|].
  rewrite !in_app_iff. intros [->|Ha] [->|Hb] Hne.
  - congruence.
  - left. left. now apply in_map.
  - right. left. now apply in_map.
  - destruct (IH Ha Hb Hne); auto.
Qed.

Lemma add_term_pairs_fold (PossE : list edge) (t : list node) :
  add_term_pairs PossE t = fold_left add_pair (allpairs t) PossE.
Proof. reflexivity. Qed.

Lemma add_pair_spec (P : list edge) (p : edge) :
  incl P (add_pair P p)
  /\ (forall q, In q (add_pair P p) -> In q P \/ q = p)
  /\ (In p (add_pair P p) \/ In (swap p) (add_pair P p))
  /\ (NoDup P -> NoDup (add_pair P p))
  /\ (oriented P -> oriented (add_pair P p)).
Proof.
  unfold add_pair, swap. destruct p as [u v]. simpl.
  destruct (edge_memb (u, v) P) eqn:E1; simpl.
  { apply edge_memb_In in E1. split_all; auto using incl_refl. }
  destruct (edge_memb (v, u) P) eqn:E2; simpl.
  { apply edge_memb_In in E2. split_all; auto using incl_refl. }
  apply edge_memb_false in E1, E2. split_all.
  - apply incl_appl, incl_refl.
  - intros q. rewrite in_app_iff. simpl. intuition.
  - left. rewrite in_app_iff. simpl. auto.
  - intros H. now apply NoDup_snoc.
  - intros H a b. rewrite !in_app_iff. simpl.
    intros [H1|[[= <- <-]|[]]] [H2|[[= E3 E4]|[]]]; subst; auto; tauto.
Qed.

Lemma fold_add_pair_spec (ps : list edge) :
  forall P,
    let P' := fold_left add_pair ps P in
    incl P P'
    /\ (forall q, In q P' -> In q P \/ In q ps)
    /\ (forall p, In p ps -> In p P' \/ In (swap p) P')
    /\ (NoDup P -> NoDup P')
    /\ (oriented P -> oriented P').
Proof.
  induction ps as [|p ps IH]; intros P; simpl.
  - split_all; auto using incl_refl; tauto.
  - destruct (add_pair_spec P p) as (A1 & A2 & A3 & A4 & A5).
    destruct (IH (add_pair P p)) as (B1 & B2 & B3 & B4 & B5).
    split_all.
    + eauto using incl_tran.
    + intros q Hq. apply B2 in Hq. destruct Hq as [Hq|Hq]; auto.
      apply A2 in Hq. destruct Hq as [Hq| ->]; auto.
    + intros q [<-|Hq]; [|auto]. destruct A3 as [H|H]; [left|right]; now apply B1.
    + auto.
    + auto.
Qed.

Lemma fold_add_term_pairs_spec (T : list (list node)) :
  forall P,
    let P' := fold_left add_term_pairs T P in
    incl P P'
    /\ (forall q, In q P' -> In q P \/ exists t, In t T /\ In q (allpairs t))
    /\ (forall t p, In t T -> In p (allpairs t) -> In p P' \/ In (swap p) P')
    /\ (NoDup P -> NoDup P')
    /\ (oriented P -> oriented P').
Proof.
  induction T as [|t T IH]; intros P; simpl.
  - split_all; auto using incl_refl. intros t p [].
  - rewrite add_term_pairs_fold.
    destruct (fold_add_pair_spec (allpairs t) P) as (A1 & A2 & A3 & A4 & A5).
    destruct (IH (fold_left add_pair (allpairs t) P)) as (B1 & B2 & B3 & B4 & B5).
    split_all.
    + eauto using incl_tran.
    + intros q Hq. apply B2 in Hq. destruct Hq as [Hq|[t' [Ht' Hq]]]; [|eauto].
      apply A2 in Hq. destruct Hq; eauto.
    + intros t' p [<-|Ht'] Hp; [|eauto].
      destruct (A3 p Hp) as [H|H]; [left|right]; now apply B1.
    + auto.
    + auto.
Qed.

Lemma add_term_nodes_fold (G : Graph) (t : list node) :
  add_term_nodes G t = fold_left add_node t G.
Proof.
  unfold add_term_nodes. revert G. induction t as [|n t IH]; intros G; simpl.
  - reflexivity.
  - rewrite IH. f_equal. unfold add_node. now destruct (has_node G n).
Qed.

Lemma fold_add_node_spec (t : list node) :
  forall G,
    let G' := fold_left add_node t G in
    (forall n, In n (nodes_of G') <-> In n (nodes_of G) \/ In n t)
    /\ (wf_graph G -> wf_graph G')
    /\ (edgeless G -> edgeless G').
Proof.
  induction t as [|x t IH]; intros G; simpl.
  - split_all; auto. tauto.
  - destruct (IH (add_node G x)) as (A1 & A2 & A3). split_all.
    + intros n. rewrite A1, In_nodes_add_node. intuition.
    + auto using wf_add_node.
    + intros H. apply A3. intros y. rewrite adj_add_node. apply H.
Qed.

Lemma fold_add_term_nodes_spec (T : list (list node)) :
  forall G,
    let G' := fold_left add_term_nodes T G in
    (forall n, In n (nodes_of G') <-> In n (nodes_of G) \/ exists t, In t T /\ In n t)
    /\ (wf_graph G -> wf_graph G')
    /\ (edgeless G -> edgeless G').
Proof.
  induction T as [|t T IH]; intros G; simpl.
  - split_all; auto. intros n. split; [auto | intros [H|[t [[] _]]]; auto].
  - rewrite add_term_nodes_fold.
    destruct (fold_add_node_spec t G) as (A1 & A2 & A3).
    destruct (IH (fold_left add_node t G)) as (B1 & B2 & B3). split_all.
    + intros n. rewrite B1, A1. split.
      * intros [[H|H]|[t' [Ht' H]]]; eauto.
      * intros [H|[t' [[<-|Ht'] H]]]; eauto.
    + auto.
    + auto.
Qed.

Lemma create_initial_graph_fold (T : list (list node)) :
  create_initial_graph T =
  (fold_left add_term_nodes T empty_graph, fold_left add_term_pairs T []).
Proof.
  unfold create_initial_graph. generalize empty_graph as G, (@nil edge) as P.
  induction T as [|t T IH]; intros G P; simpl; [reflexivity|]. apply IH.
Qed.

Lemma create_initial_graph_inv (T : list (list node)) :
  greedy_inv T (fst (create_initial_graph T)) (snd (create_initial_graph T)).
Proof.
  rewrite create_initial_graph_fold. simpl.
  destruct (fold_add_term_nodes_spec T empty_graph) as (A1 & A2 & A3).
  destruct (fold_add_term_pairs_spec T []) as (B1 & B2 & B3 & B4 & B5).
  assert (E : edgeless (fold_left add_term_nodes T empty_graph))
    by (apply A3; intros x; reflexivity).
  split.
  - apply A2, wf_empty.
  - intros t n Ht Hn. apply A1. eauto.
  - intros u v H. apply B2 in H. destruct H as [[]|[t [Ht H]]].
    apply allpairs_In in H. destruct H. split; apply A1; eauto.
  - intros u v _. unfold neighbors. rewrite E. simpl. tauto.
  - apply B4. constructor.
  - apply B5. intros u v [].
  - intros t a b Ht Ha Hb Hne.
    destruct (allpairs_cover t a b Ha Hb Hne) as [H|H];
      destruct (B3 t _ Ht H) as [H'|H']; auto.
Qed.

(* ================================================================== *)
(** * Choosing the edge *)

Lemma select_spec (g : edge -> Z) (es : list edge) :
  forall ms me,
    (select g (ms, me) es = (ms, me) /\ forall e, In e es -> (g e <= ms)%Z)
    \/ exists l1 e l2,
        es = l1 ++ e :: l2
        /\ select g (ms, me) es = (g e, Some e)
        /\ (ms < g e)%Z
        /\ (forall x, In x l1 -> (g x < g e)%Z)
        /\ (forall x, In x l2 -> (g x <= g e)%Z).
Proof.
  induction es as [|e es IH]; intros ms me; simpl.
  - left. split; [reflexivity | tauto].
  - destruct (Z.gtb_spec (g e) ms) as [Hgt|Hle].
    + right. destruct (IH (g e) (Some e)) as [[E H]|(l1 & e' & l2 & E1 & E2 & H1 & H2 & H3)].
      * exists [], e, es. simpl. split_all; auto; tauto.
      * exists (e :: l1), e', l2. subst es. simpl. split_all; auto; try lia.
        intros x [<-|Hx]; auto.
    + destruct (IH ms me) as [[E H]|(l1 & e' & l2 & E1 & E2 & H1 & H2 & H3)].
      * left. split; [exact E|]. intros x [<-|Hx]; auto.
      * right. exists (e :: l1), e', l2. subst es. simpl. split_all; auto.
        intros x [<-|Hx]; auto. lia.
Qed.

Lemma for_each_edge_restores (T : list (list node)) (objfn : Z) (G : Graph)
  (es : list edge) :
  (forall e, In e es ->
     remove_edge (add_edge G (fst e) (snd e) None) (fst e) (snd e) = Ok G) ->
  forall ms me,
    for_each_edge T objfn (G, ms, me) es =
    Ok (G, fst (select (gain T G objfn) (ms, me) es),
           snd (select (gain T G objfn) (ms, me) es)).
Proof.
  induction es as [|e es IH]; intros H ms me; simpl; [reflexivity|].
  rewrite (H e) by (simpl; auto). simpl.
  fold (gain T G objfn e).
  destruct (gain T G objfn e >? ms)%Z; apply IH; intros; apply H; simpl; auto.
Qed.

Lemma list_remove_middle (e : edge) (l1 l2 : list edge) :
  ~ In e l1 -> list_remove e (l1 ++ e :: l2) = Some (l1 ++ l2).
Proof.
  induction l1 as [|x l1 IH]; simpl; intros H.
  - now rewrite edge_eqb_refl.
  - destruct (edge_eqb e x) eqn:E.
    + apply edge_eqb_eq in E. subst. tauto.
    + rewrite IH by tauto. reflexivity.
Qed.

Lemma list_remove_spec (e : edge) (l l' : list edge) :
  list_remove e l = Some l' ->
  exists l1 l2, l = l1 ++ e :: l2 /\ l' = l1 ++ l2.
Proof.
  revert l'. induction l as [|x l IH]; simpl; intros l'; [discriminate|].
  destruct (edge_eqb e x) eqn:E.
  - apply edge_eqb_eq in E. subst. intros [= <-]. now exists [], l.
  - destruct (list_remove e l) as [r|]; [|discriminate].
    intros [= <-]. destruct (IH r eq_refl) as (l1 & l2 & -> & ->).
    now exists (x :: l1), l2.
Qed.

(** Under the invariant every trial restores the graph. *)
Lemma inv_trial_restores (T : list (list node)) (G : Graph) (PossE : list edge)
  (e : edge) :
  greedy_inv T G PossE -> In e PossE ->
  remove_edge (add_edge G (fst e) (snd e) None) (fst e) (snd e) = Ok G.
Proof.
  intros I He. destruct e as [u v]. simpl.
  destruct (gi_pool_nodes _ _ _ I u v He) as [Hu Hv].
  pose proof (gi_pool_fresh _ _ _ I u v He) as Hf.
  apply remove_add_edge; auto.
  intros H. apply Hf. now apply (wf_sym _ (gi_wf _ _ _ I)).
Qed.

(** Committing a pool edge keeps the invariant. *)
Lemma inv_commit (T : list (list node)) (G : Graph) (PossE l1 l2 : list edge)
  (e : edge) :
  greedy_inv T G PossE -> Permutation PossE (l1 ++ e :: l2) ->
  greedy_inv T (add_edge G (fst e) (snd e) None) (l1 ++ l2).
Proof.
  intros [W N PN PF ND OR CV] HP. destruct e as [a b]. simpl.
  assert (Hin : forall x, In x (l1 ++ l2) -> In x PossE).
  { intros x Hx. eapply Permutation_in; [symmetry; exact HP|].
    rewrite in_app_iff in *. simpl. tauto. }
  assert (He : In (a, b) PossE).
  { eapply Permutation_in; [symmetry; exact HP|]. rewrite in_app_iff. simpl. auto. }
  assert (ND' : NoDup (l1 ++ (a, b) :: l2)) by (eapply Permutation_NoDup; eauto).
  assert (Hout : ~ In (a, b) (l1 ++ l2)) by (now apply NoDup_remove_2).
  assert (Hsplit : forall x, In x PossE -> x = (a, b) \/ In x (l1 ++ l2)).
  { intros x Hx. eapply Permutation_in in Hx; [|exact HP].
    rewrite in_app_iff in *. simpl in Hx. intuition. }
  split.
  - now apply wf_add_edge.
  - intros t n Ht Hn. apply In_nodes_add_edge. eauto.
  - intros u v H. rewrite !In_nodes_add_edge. apply Hin, PN in H. tauto.
  - intros u v H. rewrite In_neighbors_add_edge. intros [Hn|[[-> ->]|[-> ->]]].
    + exact (PF u v (Hin _ H) Hn).
    + contradiction.
    + assert (b = a) by (apply OR; auto). subst. contradiction.
  - now apply NoDup_remove_1 in ND'.
  - intros u v H1 H2. apply OR; auto.
  - intros t u v Ht Hu Hv Hne. rewrite In_neighbors_add_edge.
    destruct (CV t u v Ht Hu Hv Hne) as [H|[H|H]].
    + destruct (Hsplit _ H) as [[= -> ->]|H']; [tauto | auto].
    + destruct (Hsplit _ H) as [[= -> ->]|H']; [tauto | auto].
    + tauto.
Qed.

(* ================================================================== *)
(** * The greedy loop *)

Section Greedy.

Context {R : Random} {RL : RandomLaws R}.

Variable T : list (list node).

Lemma shuffle_In (r : rng) (l : list edge) (e : edge) :
  In e (fst (random_shuffle r l)) <-> In e l.
Proof.
  pose proof (random_shuffle_perm r l) as HP. split; intros H.
  - eapply Permutation_in; [symmetry; exact HP | exact H].
  - eapply Permutation_in; [exact HP | exact H].
Qed.

(** The scan of a permutation of the pool, under the invariant and with a
    negative objective, stops on the first edge of largest gain. *)
Lemma scan_selects (G : Graph) (PossE sh : list edge) (me : option edge) :
  greedy_inv T G PossE -> (C G G T < 0)%Z -> Permutation PossE sh ->
  exists l1 e l2,
    sh = l1 ++ e :: l2
    /\ for_each_edge T (C G G T) (G, 0%Z, me) sh = Ok (G, gain T G (C G G T) e, Some e)
    /\ (0 < gain T G (C G G T) e)%Z
    /\ (forall x, In x l1 -> (gain T G (C G G T) x < gain T G (C G G T) e)%Z)
    /\ (forall x, In x l2 -> (gain T G (C G G T) x <= gain T G (C G G T) e)%Z).
Proof.
  intros I Hneg HP.
  assert (Hsh : forall x, In x sh <-> In x PossE).
  { intros x. split; apply Permutation_in; [symmetry|]; exact HP. }
  rewrite for_each_edge_restores
    by (intros e He; apply (inv_trial_restores T G PossE); [exact I | now apply Hsh]).
  destruct (select_spec (gain T G (C G G T)) sh 0%Z me)
    as [[E H]|(l1 & e & l2 & E1 & E2 & H1 & H2 & H3)].
  - exfalso. destruct (candidate_with_gain T G PossE I Hneg) as [e [He Hg]].
    apply Hsh, H in He. lia.
  - exists l1, e, l2. rewrite E2. cbn [fst snd]. split_all; auto.
Qed.

(** A step taken under the invariant with a negative objective commits that
    edge. *)
Lemma greedy_step_commits (G : Graph) (PossE : list edge) (me : option edge) (w : World) :
  greedy_inv T G PossE -> (C G G T < 0)%Z ->
  exists l1 e l2,
    fst (random_shuffle (gen w) PossE) = l1 ++ e :: l2
    /\ for_each_edge T (C G G T) (G, 0%Z, me) (l1 ++ e :: l2)
       = Ok (G, gain T G (C G G T) e, Some e)
    /\ (0 < gain T G (C G G T) e)%Z
    /\ (forall x, In x l1 -> (gain T G (C G G T) x < gain T G (C G G T) e)%Z)
    /\ (forall x, In x l2 -> (gain T G (C G G T) x <= gain T G (C G G T) e)%Z)
    /\ greedy_step T (G, PossE, me, C G G T) w =
       (Ok (add_edge G (fst e) (snd e) None, l1 ++ l2, Some e,
            C (add_edge G (fst e) (snd e) None) (add_edge G (fst e) (snd e) None) T),
        {| gen := snd (random_shuffle (gen w) PossE);
           stdout := (stdout w ++ [print_objective (C G G T)])
                       ++ [print_adding e (gain T G (C G G T) e)] |}).
Proof.
  intros I Hneg.
  destruct (scan_selects G PossE _ me I Hneg (random_shuffle_perm (gen w) PossE))
    as (l1 & e & l2 & E & Hscan & H1 & H2 & H3).
  exists l1, e, l2. rewrite <- E. split_all; auto.
  unfold greedy_step, bind, print, shuffle, lift, ret. cbn [gen stdout].
  destruct (random_shuffle (gen w) PossE) as [sh g'] eqn:Esh. cbn [fst snd] in *.
  rewrite Hscan. rewrite E, list_remove_middle; [reflexivity|].
  intros Hin. apply H2 in Hin. lia.
Qed.

(** With fuel beyond the size of the pool, the loop ends, and ends with an
    objective that is not negative. *)
Lemma main_loop_converges (fuel : nat) :
  forall G PossE me w,
    greedy_inv T G PossE -> List.length PossE < fuel ->
    exists G' PossE' me' w',
      main_loop fuel T (G, PossE, me, C G G T) w
      = (Ok (G', PossE', me', C G' G' T), w')
      /\ (0 <= C G' G' T)%Z
      /\ greedy_inv T G' PossE'
      /\ incl PossE' PossE.
Proof.
  induction fuel as [|fuel IH]; intros G PossE me w I Hlen; [lia|].
  cbn [main_loop]. destruct (Z.ltb_spec (C G G T) 0) as [Hneg|Hge].
  - destruct (greedy_step_commits G PossE me w I Hneg)
      as (l1 & e & l2 & E & _ & H1 & H2 & H3 & Hstep).
    unfold bind. rewrite Hstep.
    pose proof (random_shuffle_perm (gen w) PossE) as HP. rewrite E in HP.
    destruct (IH (add_edge G (fst e) (snd e) None) (l1 ++ l2) (Some e)
                {| gen := snd (random_shuffle (gen w) PossE);
                   stdout := (stdout w ++ [print_objective (C G G T)])
                               ++ [print_adding e (gain T G (C G G T) e)] |})
      as (G' & P' & me' & w' & E' & Hge & I' & Hincl).
    + eapply inv_commit; eauto.
    + apply Permutation_length in HP. rewrite length_app in *. simpl in HP. lia.
    + exists G', P', me', w'. split_all; auto.
      intros x Hx. apply Hincl in Hx. eapply Permutation_in; [symmetry; exact HP|].
      rewrite in_app_iff in *. simpl. tauto.
  - exists G, PossE, me, w. unfold ret. split_all; auto using incl_refl.
Qed.

End Greedy.

(* ================================================================== *)
(** * The sample inputs are well-formed *)

Lemma sample_random_laws : RandomLaws sample_random.
Proof. split. intros r l. simpl. apply Permutation_rev. Qed.

Lemma sample_graph_wf : wf_graph sample_graph.
Proof. unfold sample_graph. auto using wf_add_edge, wf_add_node, wf_empty. Qed.

(* ================================================================== *)
(** * C1: the sign of the objective *)

Lemma ncc_singleton (G : Graph) (n : node) :
  wf_graph G -> has_node G n = true ->
  number_connected_components (subgraph G [n]) = 1.
Proof.
  intros W Hn. apply has_node_In in Hn.
  assert (Hin : In n (nodes_of (subgraph G [n]))).
  { apply In_nodes_subgraph. simpl. auto. }
  assert (1 <= number_connected_components (subgraph G [n])).
  { apply ncc_pos. intros E. rewrite E in Hin. exact Hin. }
  assert (number_connected_components (subgraph G [n]) <= 1); [|lia].
  etransitivity; [apply ncc_le_length|].
  replace (List.length (subgraph G [n])) with (List.length (nodes_of (subgraph G [n])))
    by (unfold nodes_of; apply length_map).
  change 1 with (List.length [n]). apply NoDup_incl_length.
  - apply (wf_nodes _ (wf_subgraph G [n] W)).
  - intros x Hx. apply In_nodes_subgraph in Hx. tauto.
Qed.

(** The sign of the objective when every constraint meets the graph. *)
Lemma C_sign (G g : Graph) (s : list (list node)) :
  (forall c, In c s -> exists n, In n c /\ has_node G n = true) ->
  (C G g s <= 0)%Z
  /\ (C G g s = 0%Z <->
      forall c, In c s -> number_connected_components (subgraph G c) = 1).
Proof.
  intros H. rewrite C_sum.
  destruct (Zsum_nonpos (map (term G) s)) as [H1 H2].
  { intros z Hz. apply in_map_iff in Hz. destruct Hz as [c [<- Hc]].
    now apply term_nonpos, H. }
  split; [exact H1|]. rewrite H2. split.
  - intros E c Hc. specialize (E (term G c) (in_map _ _ _ Hc)).
    unfold term in E. lia.
  - intros E z Hz. apply in_map_iff in Hz. destruct Hz as [c [<- Hc]].
    unfold term. rewrite (E c Hc). reflexivity.
Qed.

(** C1, counterexample.  An observation with no concept induces the empty
    subgraph, which has no component: it contributes [1 - 0 = 1], and the
    objective is positive. *)
Lemma C_empty_observation_positive :
  C sample_graph sample_graph [[]] = 1%Z
  /\ ~ (C sample_graph sample_graph [[]] <= 0)%Z.
Proof.
  assert (E : C sample_graph sample_graph [[]] = 1%Z) by reflexivity.
  split; [exact E | rewrite E; lia].
Qed.

(** C1, as the code has it.  When every observation has at least one concept
    that is a node of the graph, the objective is at most 0; it is 0 exactly
    when every observation induces one connected component; an observation
    made of a single node of the graph induces one component. *)
Theorem C_nonpositive (G g : Graph) (s : list (list node)) :
  wf_graph G ->
  (forall c, In c s -> exists n, In n c /\ has_node G n = true) ->
  (C G g s <= 0)%Z
  /\ (C G g s = 0%Z <->
      forall c, In c s -> number_connected_components (subgraph G c) = 1)
  /\ (forall n, In [n] s -> number_connected_components (subgraph G [n]) = 1).
Proof.
  intros W H. destruct (C_sign G g s H) as [H1 H2]. split_all.
  - exact H1.
  - exact H2.
  - intros n Hn. destruct (H _ Hn) as [m [[<-|[]] Hm]]. now apply ncc_singleton.
Qed.

(** C1 on the sample graph, whose two constraints are each connected. *)
Lemma C_nonpositive_witness :
  (C sample_graph sample_graph [["X"; "Y"]; ["Z"]] <= 0)%Z
  /\ (C sample_graph sample_graph [["X"; "Y"]; ["Z"]] = 0%Z <->
      forall c, In c [["X"; "Y"]; ["Z"]] ->
                number_connected_components (subgraph sample_graph c) = 1)
  /\ (forall n, In [n] [["X"; "Y"]; ["Z"]] ->
                number_connected_components (subgraph sample_graph [n]) = 1).
Proof.
  apply (C_nonpositive sample_graph sample_graph [["X"; "Y"]; ["Z"]]).
  - exact sample_graph_wf.
  - intros c [<-|[<-|[]]]; [exists "X" | exists "Z"]; simpl; auto.
Defined.

(* ================================================================== *)
(** * C10: the parameter [g] of [C] *)

(** C10.  [C] never reads its first parameter: two calls that differ only in
    [g] return the same value, while the value does follow the graph bound to
    the global [G]. *)
Theorem C_ignores_parameter :
  (forall (G g1 g2 : Graph) (s : list (list node)), C G g1 s = C G g2 s)
  /\ (exists (G1 G2 g : Graph) (s : list (list node)), C G1 g s <> C G2 g s).
Proof.
  split.
  - intros G g1 g2 s. rewrite !C_sum. reflexivity.
  - exists sample_graph, (add_node empty_graph "X"), sample_graph, [["X"; "Z"]].
    vm_compute. discriminate.
Qed.

(* ================================================================== *)
(** * States of the greedy loop: C7, C2 *)

Section Reachable.

Context {R : Random} {RL : RandomLaws R}.

Variable T : list (list node).

Lemma steps_inv (st st' : loop_state) :
  steps T st st' -> state_inv T st ->
  state_inv T st' /\ incl (pool_of st') (pool_of st).
Proof.
  induction 1 as [st|st st1 st2 w w1 Hneg Hstep Hsteps IH]; intros [I E].
  - split; [split; assumption | apply incl_refl].
  - destruct st as [[[G P] me] objfn]. unfold graph_of, pool_of, objfn_of in *.
    cbn [fst snd] in *. subst objfn.
    destruct (greedy_step_commits T G P me w I Hneg)
      as (l1 & e & l2 & Esh & _ & H1 & H2 & H3 & Hs).
    rewrite Hs in Hstep. injection Hstep as <- _.
    pose proof (random_shuffle_perm (gen w) P) as HP. rewrite Esh in HP.
    destruct IH as [I' Hincl].
    { split; simpl; [eapply inv_commit; eauto | reflexivity]. }
    split; [exact I'|]. intros x Hx. apply Hincl in Hx. simpl in Hx.
    eapply Permutation_in; [symmetry; exact HP|].
    rewrite in_app_iff in *. simpl. tauto.
Qed.

Lemma initial_state_inv (me : option edge) : state_inv T (initial_state T me).
Proof. split; [apply create_initial_graph_inv | reflexivity]. Qed.

Lemma reachable_inv (st : loop_state) : reachable T st -> state_inv T st.
Proof.
  intros [me H]. apply (steps_inv _ _ H), initial_state_inv.
Qed.

(* ---------------------------------------------------------------- *)

(** C7.  In every state the loop reaches, testing a candidate of the pool
    (adding it, scoring, removing it) returns the very graph it started from,
    with the same nodes, neighbours and order; so after any number of
    candidates of the shuffled pool have been tested the graph is still the
    one the step began with. *)
Theorem trial_restores_graph (st : loop_state) :
  reachable T st ->
  (forall e, In e (pool_of st) ->
     remove_edge (add_edge (graph_of st) (fst e) (snd e) None) (fst e) (snd e)
     = Ok (graph_of st))
  /\ (forall e ms me, In e (pool_of st) ->
        exists ms' me',
          try_edge T (objfn_of st) (graph_of st, ms, me) e
          = Ok (graph_of st, ms', me'))
  /\ (forall w tested rest ms me,
        fst (random_shuffle (gen w) (pool_of st)) = tested ++ rest ->
        exists ms' me',
          for_each_edge T (objfn_of st) (graph_of st, ms, me) tested
          = Ok (graph_of st, ms', me')).
Proof.
  intros Hr. destruct (reachable_inv st Hr) as [I E].
  assert (H1 : forall e, In e (pool_of st) ->
     remove_edge (add_edge (graph_of st) (fst e) (snd e) None) (fst e) (snd e)
     = Ok (graph_of st)).
  { intros e He. now apply (inv_trial_restores T _ (pool_of st)). }
  split_all.
  - exact H1.
  - intros e ms me He. unfold try_edge. rewrite (H1 e He). simpl.
    destruct (_ >? ms)%Z; eauto.
  - intros w tested rest ms me Hsh.
    rewrite for_each_edge_restores; [eauto|].
    intros e He. apply H1. apply (shuffle_In (gen w)). rewrite Hsh.
    apply in_or_app. auto.
Qed.

(** C2.  A pass of the loop body from a reachable state with a negative
    objective: the pool is replaced by a permutation of itself, the scan of
    that whole permutation ends with the first edge [e] whose gain is the
    largest, that gain is positive, [e] is added to the graph and taken out
    of the pool, and no later state has [e] in its pool, in either
    orientation. *)
Theorem greedy_step_selects (st : loop_state) (w : World) :
  reachable T st -> (objfn_of st < 0)%Z ->
  exists tested e rest st' w',
    let pool := fst (random_shuffle (gen w) (pool_of st)) in
    let g := gain T (graph_of st) (objfn_of st) in
    Permutation (pool_of st) pool
    /\ pool = tested ++ e :: rest
    /\ for_each_edge T (objfn_of st) (graph_of st, 0%Z, max_edge_of st) pool
       = Ok (graph_of st, g e, Some e)
    /\ (0 < g e)%Z
    /\ (forall x, In x tested -> (g x < g e)%Z)
    /\ (forall x, In x rest -> (g x <= g e)%Z)
    /\ greedy_step T st w = (Ok st', w')
    /\ graph_of st' = add_edge (graph_of st) (fst e) (snd e) None
    /\ has_edge (graph_of st') (fst e) (snd e) = true
    /\ pool_of st' = tested ++ rest
    /\ (forall st'', steps T st' st'' ->
          incl (pool_of st'') (pool_of st)
          /\ ~ In e (pool_of st'') /\ ~ In (swap e) (pool_of st'')).
Proof.
  intros Hr Hneg. destruct (reachable_inv st Hr) as [I E].
  destruct st as [[[G P] me] objfn].
  unfold graph_of, pool_of, objfn_of, max_edge_of in *.
  cbn [fst snd] in *. subst objfn.
  destruct (greedy_step_commits T G P me w I Hneg)
    as (l1 & e & l2 & Esh & Hscan & H1 & H2 & H3 & Hs).
  pose proof (random_shuffle_perm (gen w) P) as HP.
  eexists l1, e, l2, _, _. cbv zeta.
  assert (I' : greedy_inv T (add_edge G (fst e) (snd e) None) (l1 ++ l2)).
  { eapply inv_commit; [exact I|]. now rewrite <- Esh. }
  assert (ND : NoDup (l1 ++ e :: l2)).
  { rewrite <- Esh. eapply Permutation_NoDup; [exact HP | apply (gi_pool_nodup _ _ _ I)]. }
  split_all; try eassumption; try reflexivity.
  - now rewrite Esh.
  - cbn [fst]. unfold has_edge. apply memb_In, In_neighbors_add_edge. auto.
  - intros st'' Hsteps.
    destruct (steps_inv _ _ Hsteps) as [_ Hincl]; [split; [exact I' | reflexivity]|].
    cbn [fst snd] in Hincl.
    assert (Hin : forall x, In x (l1 ++ l2) -> In x P).
    { intros x Hx. apply (shuffle_In (gen w)). rewrite Esh.
      rewrite in_app_iff in *. simpl. tauto. }
    split_all.
    + intros x Hx. auto.
    + intros Hx. apply Hincl in Hx. now apply NoDup_remove_2 in ND.
    + intros Hx. apply Hincl in Hx. destruct e as [a b]. unfold swap in Hx.
      cbn [fst snd] in Hx.
      assert (Hab : In (a, b) P).
      { apply (shuffle_In (gen w)). rewrite Esh. apply in_or_app. simpl. auto. }
      assert (b = a) by (apply (gi_pool_orient _ _ _ I); auto). subst.
      now apply NoDup_remove_2 in ND.
Qed.

(** In no state the loop reaches does a pass find the pool without an edge
    that raises the objective. *)
Lemma reachable_has_candidate (st : loop_state) :
  reachable T st -> (objfn_of st < 0)%Z ->
  exists e, In e (pool_of st)
            /\ (0 < gain T (graph_of st) (objfn_of st) e)%Z.
Proof.
  intros Hr Hneg. destruct (reachable_inv st Hr) as [I E].
  rewrite E in *. now apply candidate_with_gain.
Qed.

End Reachable.

(* ---------------------------------------------------------------- *)
(** ** Instances on the sample terms *)

Lemma sample_initial_reachable :
  @reachable sample_random sample_terms (initial_state sample_terms None).
Proof. exists None. apply steps_refl. Qed.

(** C7 at the state in which the loop is entered on the sample terms. *)
Lemma trial_restores_graph_witness :
  @reachable sample_random sample_terms (initial_state sample_terms None)
  /\ (forall e, In e (pool_of (initial_state sample_terms None)) ->
        remove_edge
          (add_edge (graph_of (initial_state sample_terms None)) (fst e) (snd e) None)
          (fst e) (snd e)
        = Ok (graph_of (initial_state sample_terms None))).
Proof.
  split; [exact sample_initial_reachable|].
  exact (proj1 (@trial_restores_graph sample_random sample_random_laws sample_terms
                  (initial_state sample_terms None) sample_initial_reachable)).
Defined.

(** C2 at the same state, where the objective is -2. *)
Lemma greedy_step_selects_witness :
  @reachable sample_random sample_terms (initial_state sample_terms None)
  /\ (objfn_of (initial_state sample_terms None) < 0)%Z
  /\ exists e st',
       fst (@greedy_step sample_random sample_terms
              (initial_state sample_terms None) sample_world) = Ok st'
       /\ graph_of st' = add_edge (graph_of (initial_state sample_terms None))
                                  (fst e) (snd e) None.
Proof.
  split; [exact sample_initial_reachable|].
  split; [reflexivity|].
  destruct (@greedy_step_selects sample_random sample_random_laws sample_terms
              (initial_state sample_terms None) sample_world
              sample_initial_reachable eq_refl)
    as (tested & e & rest & st' & w' & H).
  cbv zeta in H. destruct H as (_ & _ & _ & _ & _ & _ & Hs & Hg & _).
  exists e, st'. rewrite Hs. split; [reflexivity | exact Hg].
Defined.

(* ================================================================== *)
(** * Edge-frequency aggregation *)

Lemma dict_incr_spec (k : edge) (d d' : freq_table) :
  dict_incr k d = Some d' ->
  map fst d' = map fst d
  /\ forall k', dict_get k' d' =
                if edge_eqb k' k then option_map Z.succ (dict_get k' d)
                else dict_get k' d.
Proof.
  revert d'. induction d as [|[k0 x] d IH]; simpl; intros d'; [discriminate|].
  destruct (edge_eqb k k0) eqn:E.
  - apply edge_eqb_eq in E. subst k0. intros [= <-]. split; [reflexivity|].
    intros k'. simpl. destruct (edge_eqb k' k); reflexivity.
  - destruct (dict_incr k d) as [r|]; [|discriminate]. intros [= <-].
    destruct (IH r eq_refl) as [IH1 IH2]. split; [simpl; now rewrite IH1|].
    intros k'. simpl. destruct (edge_eqb k' k0) eqn:E'.
    + apply edge_eqb_eq in E'. subst k0.
      destruct (edge_eqb k' k) eqn:E''; [|reflexivity].
      apply edge_eqb_eq in E''. subst. rewrite edge_eqb_refl in E. discriminate.
    + apply IH2.
Qed.

Lemma dict_incr_None (k : edge) (d : freq_table) :
  dict_incr k d = None <-> dict_get k d = None.
Proof.
  induction d as [|[k0 x] d IH]; simpl; [tauto|].
  destruct (edge_eqb k k0); [split; discriminate|].
  destruct (dict_incr k d); [|tauto]. split; [discriminate|].
  intros H. apply IH in H. discriminate.
Qed.

Lemma dict_get_keys (k : edge) (d : freq_table) :
  dict_get k d <> None <-> In k (map fst d).
Proof.
  induction d as [|[k0 x] d IH]; simpl; [tauto|].
  destruct (edge_eqb k k0) eqn:E.
  - apply edge_eqb_eq in E. subst. split; [auto | discriminate].
  - apply edge_eqb_neq in E. rewrite IH. split; [auto | intros [?|?]; congruence].
Qed.

Lemma dict_contains_keys (k : edge) (d d' : freq_table) :
  map fst d' = map fst d -> dict_contains k d' = dict_contains k d.
Proof.
  intros H. unfold dict_contains.
  pose proof (dict_get_keys k d) as H1. pose proof (dict_get_keys k d') as H2.
  rewrite H in H2.
  destruct (dict_get k d), (dict_get k d'); try reflexivity; exfalso.
  - assert (In k (map fst d)) by (apply H1; discriminate). now apply H2.
  - assert (In k (map fst d)) by (apply H2; discriminate). now apply H1.
Qed.

Lemma canonical_keys (d d' : freq_table) (e : edge) :
  map fst d' = map fst d -> canonical d' e = canonical d e.
Proof.
  intros H. unfold canonical. now rewrite !(dict_contains_keys _ d d' H).
Qed.

Lemma count_edge_canonical (d : freq_table) (e : edge) :
  match canonical d e with
  | Some k =>
      exists d', count_edge d e = Ok d'
                 /\ map fst d' = map fst d
                 /\ forall k', dict_get k' d' =
                               if edge_eqb k' k then option_map Z.succ (dict_get k' d)
                               else dict_get k' d
  | None => count_edge d e = Raise KeyError
  end.
Proof.
  unfold canonical, count_edge, swap, dict_contains.
  destruct (dict_get e d) eqn:E1.
  - destruct (dict_incr e d) as [d'|] eqn:E.
    + exists d'. split; [reflexivity | now apply dict_incr_spec].
    + apply dict_incr_None in E. congruence.
  - destruct (dict_get (snd e, fst e) d) eqn:E2.
    + destruct (dict_incr (snd e, fst e) d) as [d'|] eqn:E.
      * exists d'. split; [reflexivity | now apply dict_incr_spec].
      * apply dict_incr_None in E. congruence.
    + apply dict_incr_None in E2. now rewrite E2.
Qed.

(** C4, counterexample.  An edge to a concept outside the twelve has no key
    in the table in either orientation; counting it raises [KeyError], which
    nothing handles. *)
Lemma out_of_vocabulary_raises :
  canonical initial_edges_dictionary ("LOVE", "JOY") = None
  /\ count_edge initial_edges_dictionary ("LOVE", "JOY") = Raise KeyError
  /\ adding_edges (edges (add_edge (add_edge empty_graph "LOVE" "FEAR" None)
                                   "LOVE" "JOY" None))
                  initial_edges_dictionary
     = Raise KeyError.
Proof. split_all; reflexivity. Qed.

(** C4, as the code has it.  Counting an edge increments by exactly 1 the
    entry of the pair, looked up as given and then reversed, and changes
    nothing else; when the table has the pair in neither orientation the
    lookup raises [KeyError].  A whole edge list is counted when each edge
    has a key, and raises [KeyError] when one has none. *)
Theorem count_edge_spec (d : freq_table) :
  (forall e,
     match canonical d e with
     | Some k =>
         (k = e \/ k = swap e)
         /\ exists d', count_edge d e = Ok d'
                       /\ map fst d' = map fst d
                       /\ forall k', dict_get k' d' =
                                     if edge_eqb k' k
                                     then option_map Z.succ (dict_get k' d)
                                     else dict_get k' d
     | None => count_edge d e = Raise KeyError
     end)
  /\ (forall es,
        (forall e, In e es -> canonical d e <> None) ->
        exists d', adding_edges es d = Ok d' /\ map fst d' = map fst d)
  /\ (forall es,
        (exists e, In e es /\ canonical d e = None) ->
        adding_edges es d = Raise KeyError).
Proof.
  split_all.
  - intros e. pose proof (count_edge_canonical d e) as H.
    destruct (canonical d e) as [k|] eqn:E; [|exact H]. split; [|exact H].
    unfold canonical in E. destruct (dict_contains e d); [left; congruence|].
    destruct (dict_contains (swap e) d); [right; congruence | discriminate].
  - intros es. revert d. induction es as [|e es IH]; intros d H; simpl; [eauto|].
    pose proof (count_edge_canonical d e) as Hc.
    destruct (canonical d e) as [k|] eqn:E; [|now destruct (H e (or_introl eq_refl))].
    destruct Hc as (d1 & E1 & K1 & _). rewrite E1. simpl.
    destruct (IH d1) as (d' & E' & K').
    + intros x Hx. rewrite (canonical_keys d d1 x K1). apply H. simpl. auto.
    + exists d'. split; [exact E' | congruence].
  - intros es. revert d. induction es as [|e es IH]; intros d [x [Hx Hn]]; simpl;
      [destruct Hx|].
    pose proof (count_edge_canonical d e) as Hc.
    destruct (canonical d e) as [k|] eqn:E.
    + destruct Hc as (d1 & E1 & K1 & _). rewrite E1. simpl. apply IH.
      destruct Hx as [->|Hx]; [congruence|].
      exists x. split; [exact Hx|]. now rewrite (canonical_keys d d1 x K1).
    + now rewrite Hc.
Qed.

(* ================================================================== *)
(** * The edges of a graph *)

Lemma lookup_In_NoDup {A} (d : list (node * A)) (k : node) (x : A) :
  NoDup (map fst d) -> In (k, x) d -> lookup k d = Some x.
Proof.
  induction d as [|[k0 y] d IH]; simpl; [tauto|].
  intros Hnd [[= -> ->]|H].
  - now rewrite String.eqb_refl.
  - inversion Hnd as [|? ? Hn Hnd']; subst.
    destruct (String.eqb_spec k k0) as [->|_]; [|auto].
    exfalso. apply Hn. now apply (in_map fst) in H.
Qed.

Lemma edges_from_In (G : Graph) :
  forall seen u v, In (u, v) (edges_from seen G) -> In u (nodes_of G) /\ ~ In v seen.
Proof.
  induction G as [|[n nbrs] G IH]; intros seen u v; simpl; [tauto|].
  rewrite in_app_iff, in_map_iff. intros [[w [[= <- <-] Hw]]|H].
  - apply filter_In in Hw. destruct Hw as [_ Hw].
    apply negb_true_iff, memb_false in Hw. auto.
  - apply IH in H. simpl in H. tauto.
Qed.

Lemma NoDup_map_pair (n : node) (l : list node) : NoDup l -> NoDup (map (pair n) l).
Proof.
  induction 1 as [|x l Hx Hl IH]; simpl; constructor; [|exact IH].
  rewrite in_map_iff. intros [y [[= ->] Hy]]. contradiction.
Qed.

Lemma edges_from_NoDup (G : Graph) :
  NoDup (nodes_of G) ->
  (forall n a, In (n, a) G -> NoDup (map fst a)) ->
  forall seen, NoDup (edges_from seen G).
Proof.
  induction G as [|[n nbrs] G IH]; intros Hnd Hn seen; simpl; [constructor|].
  inversion Hnd as [|? ? Hout Hnd']; subst. apply NoDup_app.
  - apply NoDup_map_pair, NoDup_filter. apply (Hn n). simpl. auto.
  - apply IH; [exact Hnd'|]. intros m a Hm. apply (Hn m). simpl. auto.
  - intros [u v] H1 H2. apply in_map_iff in H1. destruct H1 as [w [[= <- <-] _]].
    apply edges_from_In in H2. tauto.
Qed.

Lemma edges_from_oriented (G : Graph) :
  NoDup (nodes_of G) -> forall seen, oriented (edges_from seen G).
Proof.
  induction G as [|[n nbrs] G IH]; intros Hnd seen u v; simpl; [tauto|].
  inversion Hnd as [|? ? Hout Hnd']; subst.
  rewrite !in_app_iff, !in_map_iff.
  intros [[w [[= <- <-] Hw]]|H1] [[w' [[= <- <-] Hw']]|H2].
  - reflexivity.
  - apply edges_from_In in H2. simpl in H2. tauto.
  - apply edges_from_In in H1. simpl in H1. tauto.
  - eapply IH; eauto.
Qed.

Lemma edges_distinct (G : Graph) :
  wf_graph G -> NoDup (edges G) /\ oriented (edges G).
Proof.
  intros W. split.
  - apply edges_from_NoDup; [apply (wf_nodes G W)|].
    intros n a H. pose proof (wf_nbrs G W n) as Hn.
    unfold neighbors, adj in Hn.
    now rewrite (lookup_In_NoDup G n a (wf_nodes G W) H) in Hn.
  - apply edges_from_oriented, (wf_nodes G W).
Qed.

(** ** Counting once *)

Lemma count_edge_bound (d d' : freq_table) (e : edge) :
  count_edge d e = Ok d' ->
  map fst d' = map fst d
  /\ forall k v, dict_get k d = Some v ->
       exists v', dict_get k d' = Some v'
                  /\ (v <= v' <= v + (if touches k e then 1 else 0))%Z.
Proof.
  intros H. pose proof (count_edge_canonical d e) as Hc.
  destruct (canonical d e) as [c|] eqn:E; [|congruence].
  destruct Hc as (d1 & E1 & K1 & G1). rewrite E1 in H. injection H as <-.
  split; [exact K1|]. intros k v Hv. rewrite G1, Hv. unfold touches.
  assert (Hc : c = e \/ c = swap e).
  { unfold canonical in E. destruct (dict_contains e d); [left; congruence|].
    destruct (dict_contains (swap e) d); [right; congruence | discriminate]. }
  destruct (edge_eqb k c) eqn:Ek; simpl.
  - apply edge_eqb_eq in Ek. subst k. exists (Z.succ v). split; [reflexivity|].
    destruct Hc as [->| ->]; rewrite edge_eqb_refl; simpl; try lia.
    destruct (edge_eqb (swap e) e); simpl; lia.
  - exists v. split; [reflexivity|].
    destruct (edge_eqb k e || edge_eqb k (swap e)); lia.
Qed.

Lemma adding_edges_bound (es : list edge) :
  forall d d',
    adding_edges es d = Ok d' ->
    map fst d' = map fst d
    /\ forall k v, dict_get k d = Some v ->
         exists v', dict_get k d' = Some v'
                    /\ (v <= v' <= v + Z.of_nat (List.length (filter (touches k) es)))%Z.
Proof.
  induction es as [|e es IH]; intros d d'; simpl.
  - intros [= <-]. split; [reflexivity|]. intros k v Hv. exists v. split; [exact Hv | lia].
  - destruct (count_edge d e) as [d1| |] eqn:E1; simpl; try discriminate.
    intros H. destruct (count_edge_bound d d1 e E1) as [K1 B1].
    destruct (IH d1 d' H) as [K2 B2]. split; [congruence|].
    intros k v Hv. destruct (B1 k v Hv) as (v1 & Hv1 & Hb1).
    destruct (B2 k v1 Hv1) as (v2 & Hv2 & Hb2). exists v2. split; [exact Hv2|].
    destruct (touches k e); simpl List.length; lia.
Qed.

Lemma touches_once (es : list edge) (k : edge) :
  NoDup es -> oriented es -> List.length (filter (touches k) es) <= 1.
Proof.
  intros Hnd Hor.
  pose proof (NoDup_filter (touches k) Hnd) as Hf.
  assert (Hin : forall e, In e (filter (touches k) es) ->
                          In e es /\ (e = k \/ e = swap k)).
  { intros e He. apply filter_In in He. destruct He as [He Ht]. split; [exact He|].
    unfold touches in Ht. apply orb_true_iff in Ht.
    destruct Ht as [Ht|Ht]; apply edge_eqb_eq in Ht; subst.
    - auto.
    - right. destruct e. reflexivity. }
  destruct (filter (touches k) es) as [|a [|b l]]; simpl; try lia.
  exfalso. inversion Hf as [|? ? Hab _]; subst.
  destruct (Hin a) as [Ha Hak]; [simpl; auto|].
  destruct (Hin b) as [Hb Hbk]; [simpl; auto|].
  assert (a <> b) by (intros ->; apply Hab; simpl; auto).
  destruct k as [u v]. unfold swap in *. simpl in *.
  assert (u = v).
  { destruct Hak as [->| ->], Hbk as [->| ->]; try congruence.
    - apply Hor; auto.
    - symmetry. apply Hor; auto. }
  subst. destruct Hak as [->| ->], Hbk as [->| ->]; congruence.
Qed.

(** Counting the edges of a graph raises every entry by at most 1. *)
Lemma adding_edges_once (G : Graph) (d d' : freq_table) :
  wf_graph G -> adding_edges (edges G) d = Ok d' ->
  map fst d' = map fst d
  /\ forall k v, dict_get k d = Some v ->
       exists v', dict_get k d' = Some v' /\ (v <= v' <= v + 1)%Z.
Proof.
  intros W H. destruct (adding_edges_bound _ _ _ H) as [K B]. split; [exact K|].
  intros k v Hv. destruct (B k v Hv) as (v' & Hv' & Hb). exists v'. split; [exact Hv'|].
  destruct (edges_distinct G W) as [Hnd Hor].
  pose proof (touches_once (edges G) k Hnd Hor). lia.
Qed.

(* ================================================================== *)
(** * The bootstrap loop *)

Section Bootstrap.

Context {R : Random} {RL : RandomLaws R}.

Variable open_file : string -> option file.
Variable argv : list string.

(** A pass that ends normally has counted the edges of a well-formed
    graph. *)
Lemma iteration_Ok (d d' : freq_table) (me me' : option edge) (w w' : World) :
  iteration open_file argv (d, me) w = (Ok (d', me'), w') ->
  exists G', wf_graph G' /\ adding_edges (edges G') d = Ok d'.
Proof.
  unfold iteration, bind, choices, print, lift, ret. cbn [gen stdout].
  destruct (random_choices (gen w) languages 12) as [L g1].
  destruct (nth_error argv 1) as [fname|]; [|discriminate].
  destruct (open_file fname) as [f|]; [|discriminate].
  destruct (read_file L f) as [T| |]; try discriminate.
  destruct (create_initial_graph T) as [G P] eqn:EG.
  pose proof (create_initial_graph_inv T) as I. rewrite EG in I. cbn [fst snd] in I.
  match goal with |- context [main_loop _ _ _ ?w0] =>
    destruct (main_loop_converges T (S (List.length P)) G P me w0 I
                (Nat.lt_succ_diag_r _))
      as (G' & P' & me1 & w1 & E & _ & I' & _)
  end.
  rewrite E. destruct (adding_edges (edges G') d) as [d1| |] eqn:EA; try discriminate.
  intros [= <- <- <-]. exists G'. split; [apply (gi_wf _ _ _ I') | exact EA].
Qed.

Lemma iteration_bound (d d' : freq_table) (me me' : option edge) (w w' : World) :
  iteration open_file argv (d, me) w = (Ok (d', me'), w') ->
  map fst d' = map fst d
  /\ forall k v, dict_get k d = Some v ->
       exists v', dict_get k d' = Some v' /\ (v <= v' <= v + 1)%Z.
Proof.
  intros H. destruct (iteration_Ok _ _ _ _ _ _ H) as (G' & W & EA).
  now apply (adding_edges_once G').
Qed.

Lemma bootstrap_bound (n : nat) :
  forall st w st' w',
    bootstrap open_file argv n st w = (Ok st', w') ->
    map fst (fst st') = map fst (fst st)
    /\ forall k v, dict_get k (fst st) = Some v ->
         exists v', dict_get k (fst st') = Some v' /\ (v <= v' <= v + Z.of_nat n)%Z.
Proof.
  induction n as [|n IH]; intros st w st' w'.
  - simpl. unfold ret. intros [= <- <-]. split; [reflexivity|].
    intros k v Hv. exists v. split; [exact Hv | lia].
  - cbn [bootstrap]. unfold bind.
    destruct (iteration open_file argv st w) as [[st1| |] w1] eqn:E1; try discriminate.
    intros H. destruct st as [d me], st1 as [d1 me1].
    destruct (iteration_bound _ _ _ _ _ _ E1) as [K1 B1].
    destruct (IH _ _ _ _ H) as [K2 B2]. cbn [fst] in *. split; [congruence|].
    intros k v Hv. destruct (B1 k v Hv) as (v1 & Hv1 & Hb1).
    destruct (B2 k v1 Hv1) as (v2 & Hv2 & Hb2). exists v2. split; [exact Hv2 | lia].
Qed.

Lemma bootstrap_split (i j : nat) :
  forall st w st' w',
    bootstrap open_file argv (i + j) st w = (Ok st', w') ->
    exists sti wi,
      bootstrap open_file argv i st w = (Ok sti, wi)
      /\ bootstrap open_file argv j sti wi = (Ok st', w').
Proof.
  induction i as [|i IH]; intros st w st' w'; simpl.
  - intros H. exists st, w. split; [reflexivity | exact H].
  - unfold bind.
    destruct (iteration open_file argv st w) as [[st1| |] w1]; try discriminate.
    apply IH.
Qed.

Lemma initial_edges_dictionary_zero (k : edge) (v : Z) :
  dict_get k initial_edges_dictionary = Some v -> v = 0%Z.
Proof.
  unfold initial_edges_dictionary. induction (allpairs nodes) as [|k0 l IH]; simpl.
  - discriminate.
  - destruct (edge_eqb k k0); [now intros [= <-] | exact IH].
Qed.

(** ** The fuel is never exhausted *)

Lemma append_term_fuel (n : nat) (fields : list string) :
  forall T, append_term n fields T <> OutOfFuel.
Proof.
  induction n as [|n IH]; intros T; cbn [append_term]; [discriminate|].
  destruct (nth_error fields 1); [|discriminate].
  destruct (nth_error fields 2); [apply IH | discriminate].
Qed.

Lemma read_data_fuel (L : list string) (lines : list string) :
  forall T, read_data L T lines <> OutOfFuel.
Proof.
  induction lines as [|line rest IH]; intros T; simpl; [discriminate|].
  unfold read_line.
  destruct (append_term _ _ T) as [T'| |] eqn:E; simpl.
  - apply IH.
  - discriminate.
  - now apply append_term_fuel in E.
Qed.

Lemma read_file_fuel (L : list string) (f : file) : read_file L f <> OutOfFuel.
Proof.
  unfold read_file. destruct (read_data L [] (fst f)) as [T| |] eqn:E; cbn [obind].
  - destruct (snd f); discriminate.
  - discriminate.
  - now apply read_data_fuel in E.
Qed.

Lemma read_file_Ok (L : list string) (f : file) (T : list (list node)) :
  read_file L f = Ok T <-> read_data L [] (fst f) = Ok T /\ snd f = EndOfFile.
Proof.
  unfold read_file. destruct (read_data L [] (fst f)) as [T'| |]; cbn [obind].
  - destruct (snd f); split; try discriminate; intuition congruence.
  - split; [discriminate | intros [H _]; discriminate].
  - split; [discriminate | intros [H _]; discriminate].
Qed.

Lemma adding_edges_fuel (es : list edge) :
  forall d, adding_edges es d <> OutOfFuel.
Proof.
  induction es as [|e es IH]; intros d; simpl; [discriminate|].
  unfold count_edge. destruct (dict_incr _ d); simpl; [apply IH | discriminate].
Qed.

Lemma iteration_fuel (st : freq_table * option edge) (w : World) :
  fst (iteration open_file argv st w) <> OutOfFuel.
Proof.
  destruct st as [d me].
  unfold iteration, bind, choices, print, lift, ret. cbn [gen stdout].
  destruct (random_choices (gen w) languages 12) as [L g1].
  destruct (nth_error argv 1) as [fname|]; [|discriminate].
  destruct (open_file fname) as [f|]; [|discriminate].
  destruct (read_file L f) as [T| |] eqn:ET; try discriminate.
  2: { now apply read_file_fuel in ET. }
  destruct (create_initial_graph T) as [G P] eqn:EG.
  pose proof (create_initial_graph_inv T) as I. rewrite EG in I. cbn [fst snd] in I.
  match goal with |- context [main_loop _ _ _ ?w0] =>
    destruct (main_loop_converges T (S (List.length P)) G P me w0 I
                (Nat.lt_succ_diag_r _))
      as (G' & P' & me1 & w1 & E & _ & I' & _)
  end.
  rewrite E. destruct (adding_edges (edges G') d) as [d1| |] eqn:EA; try discriminate.
  now apply adding_edges_fuel in EA.
Qed.

Lemma bootstrap_fuel (n : nat) :
  forall st w, fst (bootstrap open_file argv n st w) <> OutOfFuel.
Proof.
  induction n as [|n IH]; intros st w; cbn [bootstrap]; [discriminate|].
  unfold bind. pose proof (iteration_fuel st w) as H.
  destruct (iteration open_file argv st w) as [[st1| |] w1]; cbn [fst] in *.
  - apply IH.
  - discriminate.
  - congruence.
Qed.

(** The run ends: with a final graph or with an exception. *)
Lemma main_fuel (w : World) : fst (main open_file argv w) <> OutOfFuel.
Proof.
  unfold main, bind.
  destruct ((if List.length argv =? 2 then ret tt else print print_usage) w)
    as [[[]| |] w0] eqn:E0.
  - cbv zeta. pose proof (bootstrap_fuel 1000 (initial_edges_dictionary, None) w0) as H.
    destruct (bootstrap open_file argv 1000 (initial_edges_dictionary, None) w0)
      as [[st1| |] w1]; cbn [fst] in *; [discriminate | discriminate | congruence].
  - discriminate.
  - destruct (List.length argv =? 2); discriminate.
Qed.

(** The table keeps the keys it starts with. *)
Lemma bootstrap_keys (n : nat) (me : option edge) (st' : freq_table * option edge)
  (w w' : World) :
  bootstrap open_file argv n (initial_edges_dictionary, me) w = (Ok st', w') ->
  map fst (fst st') = allpairs nodes.
Proof.
  intros H. destruct (bootstrap_bound _ _ _ _ _ H) as [K _]. rewrite K.
  unfold initial_edges_dictionary. cbn [fst]. rewrite map_map. apply map_id.
Qed.

(** C5.  In a run of [i + j] passes of the bootstrap loop that end normally,
    every entry of the table after all of them is at least its value after
    the first [i] and at most that value plus [j]; started from the table of
    zeros, every entry lies between 0 and the number of passes. *)
Theorem edge_frequencies_monotone (i j : nat) (st st' : freq_table * option edge)
  (w w' : World) :
  bootstrap open_file argv (i + j) st w = (Ok st', w') ->
  exists sti wi,
    bootstrap open_file argv i st w = (Ok sti, wi)
    /\ (forall k v, dict_get k (fst sti) = Some v ->
          exists v', dict_get k (fst st') = Some v'
                     /\ (v <= v' <= v + Z.of_nat j)%Z)
    /\ (fst st = initial_edges_dictionary ->
        forall k v', dict_get k (fst st') = Some v' ->
                     (0 <= v' <= Z.of_nat (i + j))%Z).
Proof.
  intros H. destruct (bootstrap_split i j _ _ _ _ H) as (sti & wi & Hi & Hj).
  exists sti, wi. split; [exact Hi|]. split.
  - apply (bootstrap_bound j _ _ _ _ Hj).
  - intros E0 k v' Hv'. destruct (bootstrap_bound _ _ _ _ _ H) as [K B].
    destruct (dict_get k (fst st)) as [v|] eqn:Ev.
    + destruct (B k v Ev) as (v2 & Hv2 & Hb). rewrite E0 in Ev.
      apply initial_edges_dictionary_zero in Ev. subst v.
      rewrite Hv' in Hv2. injection Hv2 as <-. lia.
    + exfalso. assert (Hk : In k (map fst (fst st'))).
      { apply dict_get_keys. congruence. }
      rewrite K in Hk. apply dict_get_keys in Hk. contradiction.
Qed.

End Bootstrap.

(** C5 on two passes over the sample file. *)
Lemma edge_frequencies_monotone_witness :
  exists st' w' sti wi,
    @bootstrap sample_random sample_fs sample_argv (1 + 1)
      (initial_edges_dictionary, None) sample_world = (Ok st', w')
    /\ @bootstrap sample_random sample_fs sample_argv 1
         (initial_edges_dictionary, None) sample_world = (Ok sti, wi)
    /\ (forall k v, dict_get k (fst sti) = Some v ->
          exists v', dict_get k (fst st') = Some v'
                     /\ (v <= v' <= v + Z.of_nat 1)%Z).
Proof.
  destruct (@bootstrap sample_random sample_fs sample_argv (1 + 1)
              (initial_edges_dictionary, None) sample_world) as [o w'] eqn:E.
  assert (Ho : exists st', o = Ok st').
  { vm_compute in E. injection E as <- _. eexists. reflexivity. }
  destruct Ho as [st' ->].
  destruct (@edge_frequencies_monotone sample_random sample_random_laws
              sample_fs sample_argv 1 1 _ _ _ _ E) as (sti & wi & Hi & Hb & _).
  exists st', w', sti, wi. split_all; [reflexivity | exact Hi | exact Hb].
Defined.

(* ================================================================== *)
(** * Final graph creation *)

Lemma final_graph_creation_fold (d : freq_table) :
  final_graph_creation d =
  fold_left threshold_step d (fold_left add_node nodes empty_graph, []).
Proof. reflexivity. Qed.

Lemma nodupb_NoDup (l : list edge) : nodupb l = true -> NoDup l.
Proof.
  induction l as [|x l IH]; simpl; [constructor|].
  rewrite andb_true_iff, negb_true_iff, edge_memb_false. intros [H1 H2].
  constructor; auto.
Qed.

Lemma allpairs_nodes_ok : keys_ok (allpairs nodes).
Proof.
  assert (H : forallb (key_okb (allpairs nodes)) (allpairs nodes) = true)
    by (vm_compute; reflexivity).
  rewrite forallb_forall in H.
  assert (K : forall u v, In (u, v) (allpairs nodes) ->
                (In u nodes /\ In v nodes) /\ u <> v /\ ~ In (v, u) (allpairs nodes)).
  { intros u v Huv. apply H in Huv. unfold key_okb, swap in Huv.
    cbn [fst snd] in Huv.
    rewrite !andb_true_iff, !negb_true_iff, !memb_In, edge_memb_false in Huv.
    destruct Huv as [[[H1 H2] H3] H4]. split_all; auto.
    now apply String.eqb_neq. }
  split.
  - apply nodupb_NoDup. vm_compute. reflexivity.
  - intros u v Huv. apply (K u v Huv).
  - intros u v Huv. apply (K u v Huv).
  - intros u v Huv. apply (K u v Huv).
Qed.

Lemma lookup_weight_add_edge_same (G : Graph) (a b : node) (w : Q) :
  a <> b -> edge_weight (add_edge G a b (Some w)) a b = Some w.
Proof.
  intros Hne. unfold edge_weight. rewrite adj_add_edge. cbv zeta.
  destruct (String.eqb_spec a b) as [E|_]; [congruence|].
  rewrite String.eqb_refl, lookup_set_item, String.eqb_refl. reflexivity.
Qed.

Lemma lookup_weight_add_edge_other (G : Graph) (a b : node) (attr : attrs) (u v : node) :
  a <> b -> (u, v) <> (a, b) -> (u, v) <> (b, a) ->
  edge_weight (add_edge G a b attr) u v = edge_weight G u v.
Proof.
  intros Hne H1 H2. unfold edge_weight. rewrite adj_add_edge. cbv zeta.
  destruct (String.eqb_spec u b) as [->|Hub].
  - destruct (String.eqb_spec b a) as [E|_]; [congruence|].
    rewrite lookup_set_item.
    destruct (String.eqb_spec v a) as [->|_]; [congruence | reflexivity].
  - destruct (String.eqb_spec u a) as [->|Hua]; [|reflexivity].
    rewrite lookup_set_item.
    destruct (String.eqb_spec v b) as [->|_]; [congruence | reflexivity].
Qed.

Lemma edge_weight_In (G : Graph) (u v : node) (w : Q) :
  edge_weight G u v = Some w -> In v (neighbors G u).
Proof.
  unfold edge_weight, neighbors. destruct (lookup v (adj G u)) eqn:E; [|discriminate].
  intros _. eapply lookup_in_keys; eauto.
Qed.

Lemma has_edge_In (G : Graph) (u v : node) :
  has_edge G u v = true <-> In v (neighbors G u).
Proof. apply memb_In. Qed.

Lemma threshold_step_inv (done : freq_table) (st : Graph * list edge) (item : edge * Z) :
  keys_ok (map fst (done ++ [item])) ->
  threshold_inv done st -> threshold_inv (done ++ [item]) (threshold_step st item).
Proof.
  intros K [I1 I2 I3 I4]. destruct st as [G imp], item as [[a b] f].
  cbn [fst snd] in *.
  assert (Hk : In (a, b) (map fst (done ++ [((a, b), f)]))).
  { rewrite map_app, in_app_iff. simpl. auto. }
  destruct (ko_nodes _ K a b Hk) as [Ha Hb].
  pose proof (ko_apart _ K a b Hk) as Hab.
  pose proof (ko_orient _ K a b Hk) as Hba.
  assert (Hnew : forall u v f', In ((u, v), f') done -> (u, v) <> (a, b) /\ (u, v) <> (b, a)).
  { intros u v f' H. pose proof (ko_nodup _ K) as Hnd.
    rewrite map_app in Hnd. simpl in Hnd. apply NoDup_remove_2 in Hnd.
    rewrite app_nil_r in Hnd. apply (in_map fst) in H. simpl in H. split.
    - intros E. rewrite E in H. contradiction.
    - intros E. rewrite E in H. apply Hba. rewrite map_app, in_app_iff. auto. }
  unfold threshold_step.
  destruct (Z.ltb_spec f 250) as [Hlt|Hge].
  - split; cbn [fst snd].
    + exact I1.
    + intros u v H. destruct (I2 u v H) as [f' [[H'|H'] Hf]]; exists f';
        rewrite !in_app_iff; auto.
    + intros u v f'. rewrite in_app_iff. simpl. intros [H|[[= -> -> ->]|[]]] Hf.
      * now apply I3.
      * lia.
    + intros k. rewrite I4. split; intros [f' [H Hf]]; exists f'.
      * rewrite in_app_iff. auto.
      * rewrite in_app_iff in H. simpl in H.
        destruct H as [H|[[= <- <-]|[]]]; [auto | lia].
  - assert (S1 : nodes_of (add_edge G a b (Some (Qmake f 200))) = nodes).
    { rewrite nodes_add_edge_present; rewrite ?I1; auto. }
    assert (S2 : forall u v,
               In v (neighbors (add_edge G a b (Some (Qmake f 200))) u) ->
               exists f', (In ((u, v), f') (done ++ [((a, b), f)])
                           \/ In ((v, u), f') (done ++ [((a, b), f)])) /\ (250 <= f')%Z).
    { intros u v. rewrite In_neighbors_add_edge. intros [H|[[-> ->]|[-> ->]]].
      - destruct (I2 u v H) as [f' [[H'|H'] Hf]]; exists f'; rewrite !in_app_iff; auto.
      - exists f. rewrite !in_app_iff. simpl. auto.
      - exists f. rewrite !in_app_iff. simpl. auto. }
    assert (S3 : forall u v f', In ((u, v), f') (done ++ [((a, b), f)]) -> (250 <= f')%Z ->
               edge_weight (add_edge G a b (Some (Qmake f 200))) u v = Some (Qmake f' 200)).
    { intros u v f'. rewrite in_app_iff. simpl. intros [H|[[= -> -> ->]|[]]] Hf.
      - destruct (Hnew u v f' H). rewrite lookup_weight_add_edge_other; auto.
      - now apply lookup_weight_add_edge_same. }
    destruct (Z.gtb_spec f 500) as [Hgt|Hle]; split; cbn [fst snd]; auto.
    + intros k. rewrite in_app_iff, I4. simpl. split.
      * intros [[f' [H Hf]]|[<-|[]]]; [exists f' | exists f]; rewrite in_app_iff;
          simpl; auto.
      * intros [f' [H Hf]]. rewrite in_app_iff in H. simpl in H.
        destruct H as [H|[[= <- <-]|[]]]; eauto.
    + intros k. rewrite I4. split; intros [f' [H Hf]]; exists f'.
      * rewrite in_app_iff. auto.
      * rewrite in_app_iff in H. simpl in H.
        destruct H as [H|[[= <- <-]|[]]]; [auto | lia].
Qed.

Lemma fold_threshold_inv (rest : freq_table) :
  forall done st,
    keys_ok (map fst (done ++ rest)) ->
    threshold_inv done st ->
    threshold_inv (done ++ rest) (fold_left threshold_step rest st).
Proof.
  induction rest as [|item rest IH]; intros done st K I; simpl.
  - now rewrite app_nil_r.
  - replace (done ++ item :: rest) with ((done ++ [item]) ++ rest) in *
      by (rewrite <- app_assoc; reflexivity).
    apply IH; [exact K|]. apply threshold_step_inv; [|exact I].
    destruct K as [K1 K2 K3 K4]. rewrite map_app in K1, K2, K3, K4. split.
    + now apply NoDup_app_remove_r in K1.
    + intros u v H. apply K2, in_or_app. auto.
    + intros u v H. apply K3, in_or_app. auto.
    + intros u v H Hr. apply (K4 u v); apply in_or_app; auto.
Qed.

Lemma threshold_inv_init :
  threshold_inv [] (fold_left add_node nodes empty_graph, []).
Proof.
  destruct (fold_add_node_spec nodes empty_graph) as (_ & _ & E).
  split; cbn [fst snd].
  - reflexivity.
  - intros u v. unfold neighbors. rewrite E; [intros [] | intros x; reflexivity].
  - intros u v f [].
  - intros k. split; [intros [] | intros [f [[] _]]].
Qed.

Lemma dict_functional (d : freq_table) (k : edge) (f f' : Z) :
  NoDup (map fst d) -> In (k, f) d -> In (k, f') d -> f = f'.
Proof.
  induction d as [|[k0 x] d IH]; simpl; [tauto|].
  intros Hnd. inversion Hnd as [|? ? Hout Hnd']; subst.
  intros [[= -> ->]|H1] [[= <-]|H2]; auto.
  - exfalso. apply Hout. now apply (in_map fst) in H2.
  - exfalso. apply Hout. subst. now apply (in_map fst) in H1.
Qed.

(** C6.  For a table over the pairs of the twelve concepts, the final graph
    has exactly the twelve concepts as nodes; a pair is an edge exactly when
    its frequency is at least 250, and then carries the weight
    frequency/200; it is in the list of important links exactly when its
    frequency exceeds 500; every edge is such a pair; frequency 249 is left
    out and frequency 250 is kept. *)
Theorem final_graph_thresholds (d : freq_table) :
  map fst d = allpairs nodes ->
  nodes_of (fst (final_graph_creation d)) = nodes
  /\ (forall u v f, In ((u, v), f) d ->
        (has_edge (fst (final_graph_creation d)) u v = true <-> (250 <= f)%Z)
        /\ ((250 <= f)%Z ->
            edge_weight (fst (final_graph_creation d)) u v = Some (Qmake f 200))
        /\ (In (u, v) (snd (final_graph_creation d)) <-> (500 < f)%Z))
  /\ (forall u v, has_edge (fst (final_graph_creation d)) u v = true ->
        exists f, (In ((u, v), f) d \/ In ((v, u), f) d) /\ (250 <= f)%Z)
  /\ (forall u v, In ((u, v), 249%Z) d ->
        has_edge (fst (final_graph_creation d)) u v = false)
  /\ (forall u v, In ((u, v), 250%Z) d ->
        has_edge (fst (final_graph_creation d)) u v = true).
Proof.
  intros Hk. rewrite final_graph_creation_fold.
  assert (K : keys_ok (map fst ([] ++ d))).
  { cbn [app]. rewrite Hk. apply allpairs_nodes_ok. }
  pose proof (fold_threshold_inv d [] _ K threshold_inv_init) as [I1 I2 I3 I4].
  cbn [app] in K, I1, I2, I3, I4.
  set (st := fold_left threshold_step d (fold_left add_node nodes empty_graph, [])) in *.
  assert (Main : forall u v f, In ((u, v), f) d ->
        (has_edge (fst st) u v = true <-> (250 <= f)%Z)
        /\ ((250 <= f)%Z -> edge_weight (fst st) u v = Some (Qmake f 200))
        /\ (In (u, v) (snd st) <-> (500 < f)%Z)).
  { intros u v f H. split_all.
    - rewrite has_edge_In. split.
      + intros He. destruct (I2 u v He) as [f' [[H'|H'] Hf]].
        * now rewrite (dict_functional d _ f f' (ko_nodup _ K) H H').
        * exfalso. apply (ko_orient _ K u v).
          -- now apply (in_map fst) in H.
          -- now apply (in_map fst) in H'.
      + intros Hf. eapply edge_weight_In. apply (I3 u v f H Hf).
    - intros Hf. apply (I3 u v f H Hf).
    - rewrite I4. split.
      + intros [f' [H' Hf]]. now rewrite (dict_functional d _ f f' (ko_nodup _ K) H H').
      + intros Hf. eauto. }
  split_all.
  - exact I1.
  - exact Main.
  - intros u v He. apply has_edge_In in He. exact (I2 u v He).
  - intros u v H. destruct (Main u v _ H) as [[H1 _] _].
    destruct (has_edge (fst st) u v); [|reflexivity].
    specialize (H1 eq_refl). lia.
  - intros u v H. destruct (Main u v _ H) as [[_ H2] _]. apply H2. lia.
Qed.

(** C6 on the sample table. *)
Lemma final_graph_thresholds_witness :
  nodes_of (fst (final_graph_creation sample_table)) = nodes
  /\ (forall u v f, In ((u, v), f) sample_table ->
        (has_edge (fst (final_graph_creation sample_table)) u v = true <-> (250 <= f)%Z)
        /\ ((250 <= f)%Z ->
            edge_weight (fst (final_graph_creation sample_table)) u v
            = Some (Qmake f 200))
        /\ (In (u, v) (snd (final_graph_creation sample_table)) <-> (500 < f)%Z)).
Proof.
  destruct (final_graph_thresholds sample_table eq_refl) as (H1 & H2 & _).
  split; [exact H1 | exact H2].
Defined.

(* ================================================================== *)
(** * The whole run *)

Section Run.

Context {R : Random}.

Variable open_file : string -> option file.

Lemma det_ret {A} (a : A) : rng_determined (ret a).
Proof. intros w1 w2 H. simpl. auto. Qed.

Lemma det_lift {A} (o : outcome A) : rng_determined (lift o).
Proof. intros w1 w2 H. simpl. auto. Qed.

Lemma det_print (o : output) : rng_determined (print o).
Proof. intros w1 w2 H. simpl. auto. Qed.

Lemma det_shuffle (l : list edge) : rng_determined (shuffle l).
Proof.
  intros w1 w2 H. unfold shuffle. rewrite H.
  destruct (random_shuffle (gen w2) l). simpl. auto.
Qed.

Lemma det_choices (population : list string) (k : nat) :
  rng_determined (choices population k).
Proof.
  intros w1 w2 H. unfold choices. rewrite H.
  destruct (random_choices (gen w2) population k). simpl. auto.
Qed.

Lemma det_bind {A B} (m : M A) (k : A -> M B) :
  rng_determined m -> (forall a, rng_determined (k a)) -> rng_determined (bind m k).
Proof.
  intros Hm Hk w1 w2 H. unfold bind. destruct (Hm w1 w2 H) as [H1 H2].
  destruct (m w1) as [o1 w1'], (m w2) as [o2 w2']. simpl in H1, H2. subst o2.
  destruct o1; simpl; auto. now apply Hk.
Qed.

Lemma det_greedy_step (T : list (list node)) (st : loop_state) :
  rng_determined (greedy_step T st).
Proof.
  destruct st as [[[G P] me] objfn]. unfold greedy_step.
  apply det_bind; [apply det_print | intros _].
  apply det_bind; [apply det_shuffle | intros P'].
  apply det_bind; [apply det_lift | intros [[G' ms] me']].
  destruct me' as [e|]; [|apply det_lift].
  apply det_bind; [apply det_print | intros _].
  destruct (list_remove e P'); [apply det_ret | apply det_lift].
Qed.

Lemma det_main_loop (T : list (list node)) (fuel : nat) :
  forall st, rng_determined (main_loop fuel T st).
Proof.
  induction fuel as [|fuel IH]; intros [[[G P] me] objfn]; cbn [main_loop];
    destruct (objfn <? 0)%Z; try apply det_ret; try apply det_lift.
  apply det_bind; [apply det_greedy_step | exact IH].
Qed.

Lemma det_iteration (argv : list string) (st : freq_table * option edge) :
  rng_determined (iteration open_file argv st).
Proof.
  destruct st as [d me]. unfold iteration.
  apply det_bind; [apply det_choices | intros L].
  apply det_bind; [apply det_print | intros _].
  apply det_bind; [apply det_lift | intros fname].
  apply det_bind; [apply det_lift | intros lines].
  apply det_bind; [apply det_lift | intros T].
  destruct (create_initial_graph T) as [G P].
  apply det_bind; [apply det_main_loop | intros [[[G' P'] me'] objfn]].
  apply det_bind; [apply det_lift | intros d']. apply det_ret.
Qed.

Lemma det_bootstrap (argv : list string) (n : nat) :
  forall st, rng_determined (bootstrap open_file argv n st).
Proof.
  induction n as [|n IH]; intros st; cbn [bootstrap]; [apply det_ret|].
  apply det_bind; [apply det_iteration | exact IH].
Qed.

Lemma det_main (argv : list string) : rng_determined (main open_file argv).
Proof.
  unfold main. apply det_bind.
  - destruct (List.length argv =? 2); [apply det_ret | apply det_print].
  - intros _. cbv zeta. apply det_bind; [apply det_bootstrap | intros st].
    apply det_ret.
Qed.

(* ---------------------------------------------------------------- *)

Lemma iteration_argv (argv argv' : list string) (st : freq_table * option edge) :
  nth_error argv 1 = nth_error argv' 1 ->
  iteration open_file argv st = iteration open_file argv' st.
Proof. intros H. destruct st as [d me]. unfold iteration. now rewrite H. Qed.

Lemma bootstrap_argv (argv argv' : list string) (n : nat) :
  nth_error argv 1 = nth_error argv' 1 ->
  forall st w, bootstrap open_file argv n st w = bootstrap open_file argv' n st w.
Proof.
  intros H. induction n as [|n IH]; intros st w; cbn [bootstrap]; [reflexivity|].
  unfold bind. rewrite (iteration_argv argv argv' st H).
  destruct (iteration open_file argv' st w) as [[st1| |] w1]; auto.
Qed.

(** C8, the defect.  With more than one argument the usage line is printed
    and the run then goes on exactly as the valid call on the first argument
    would; with no argument the usage line is printed, the first bootstrap
    sample is drawn and printed, and only then the missing [sys.argv[1]]
    raises [IndexError]. *)
Theorem usage_does_not_exit :
  (forall (prog file extra : string) (more : list string) (w : World),
     main open_file (prog :: file :: extra :: more) w
     = main open_file [prog; file]
         {| gen := gen w; stdout := stdout w ++ [print_usage] |})
  /\ (forall (prog : string) (w : World),
        main open_file [prog] w
        = (Raise IndexError,
           {| gen := snd (random_choices (gen w) languages 12);
              stdout := (stdout w ++ [print_usage])
                          ++ [print_L (fst (random_choices (gen w) languages 12))] |})).
Proof.
  split.
  - intros prog file extra more w. unfold main, bind. cbn [List.length Nat.eqb].
    unfold print at 1, ret at 1. cbv zeta.
    rewrite (bootstrap_argv (prog :: file :: extra :: more) [prog; file] 1000 eq_refl).
    reflexivity.
  - intros prog w. unfold main, bind. cbn [List.length Nat.eqb].
    unfold print at 1. cbv zeta. cbn [bootstrap]. unfold bind, iteration.
    unfold bind, choices, print, lift. cbn [gen stdout nth_error].
    destruct (random_choices (gen w) languages 12) as [L g]. reflexivity.
Qed.

End Run.

(* ================================================================== *)
(** * Runs that iterate the subgraph views in different orders *)

Lemma lookup_rev {A} (k : node) (d : list (node * A)) :
  NoDup (map fst d) -> lookup k (rev d) = lookup k d.
Proof.
  intros Hnd.
  assert (Hnd' : NoDup (map fst (rev d))) by (rewrite map_rev; now apply NoDup_rev).
  destruct (lookup k d) as [x|] eqn:E.
  - apply lookup_In_NoDup; [exact Hnd'|]. apply in_rev. rewrite rev_involutive.
    now apply lookup_Some_In.
  - apply lookup_None. apply lookup_None in E. rewrite map_rev, <- in_rev. exact E.
Qed.

Lemma lookup_map_values {A B} (g : A -> B) (k : node) (d : list (node * A)) :
  lookup k (map (fun '(n, a) => (n, g a)) d) = option_map g (lookup k d).
Proof.
  induction d as [|[n a] d IH]; simpl; [reflexivity|].
  destruct (String.eqb k n); [reflexivity | exact IH].
Qed.

Lemma nodes_reverse_graph (H : Graph) : nodes_of (reverse_graph H) = rev (nodes_of H).
Proof.
  unfold reverse_graph, nodes_of. rewrite map_map, <- map_rev.
  apply map_ext. now intros [n a].
Qed.

Lemma lookup_reverse_graph (H : Graph) (x : node) :
  NoDup (nodes_of H) ->
  lookup x (reverse_graph H) = option_map (@rev (node * attrs)) (lookup x H).
Proof.
  intros Hnd. unfold reverse_graph.
  rewrite (lookup_map_values (@rev (node * attrs))). f_equal.
  now apply lookup_rev.
Qed.

Lemma neighbors_reverse_graph (H : Graph) (x : node) :
  NoDup (nodes_of H) -> neighbors (reverse_graph H) x = rev (neighbors H x).
Proof.
  intros Hnd. unfold neighbors, adj. rewrite (lookup_reverse_graph H x Hnd).
  destruct (lookup x H) as [a|]; simpl; [now rewrite map_rev | reflexivity].
Qed.

(** A well-formed graph read backwards is the same graph in another
    order. *)
Lemma reverse_graph_reordering (H : Graph) :
  wf_graph H -> reordering H (reverse_graph H).
Proof.
  intros W. pose proof (wf_nodes H W) as Hnd.
  assert (Hn : forall x w, In w (neighbors (reverse_graph H) x) <-> In w (neighbors H x)).
  { intros x w. rewrite (neighbors_reverse_graph H x Hnd). symmetry. apply in_rev. }
  split.
  - split.
    + rewrite nodes_reverse_graph. now apply NoDup_rev.
    + intros x. rewrite (neighbors_reverse_graph H x Hnd).
      apply NoDup_rev, (wf_nbrs H W).
    + intros x w Hw. rewrite nodes_reverse_graph, <- in_rev.
      apply (wf_closed H W x). now apply Hn.
    + intros x w Hw. apply Hn, (wf_sym H W), Hn, Hw.
  - rewrite nodes_reverse_graph. apply Permutation_rev.
  - intros x w. symmetry. apply Hn.
Qed.

Lemma subgraph_valid : valid_view subgraph.
Proof.
  intros G c W. split; [now apply wf_subgraph | reflexivity | tauto].
Qed.

Lemma reverse_view_valid : valid_view reverse_view.
Proof.
  intros G c W. apply reverse_graph_reordering. now apply wf_subgraph.
Qed.

Section ViewOrder.

Context {R : Random} {RL : RandomLaws R}.

Variable view : Graph -> list node -> Graph.
Hypothesis view_valid : valid_view view.

(** On a well-formed graph the objective is the same in whatever order the
    views are iterated. *)
Lemma C_view_eq (G g : Graph) (s : list (list node)) :
  wf_graph G -> C_view view G g s = C G g s.
Proof.
  intros W. unfold C_view, C. generalize 0%Z as total.
  induction s as [|c s IH]; intros total; cbn [fold_left]; [reflexivity|].
  cbv zeta. rewrite IH. do 4 f_equal.
  destruct (view_valid G c W) as [W' HP Hn].
  symmetry. apply ncc_order_irrelevant; auto. now apply wf_subgraph.
Qed.

Lemma try_edge_view_eq (T : list (list node)) (objfn : Z) (G : Graph) (ms : Z)
  (me : option edge) (e : edge) :
  wf_graph G ->
  try_edge_view view T objfn (G, ms, me) e = try_edge T objfn (G, ms, me) e.
Proof.
  intros W. unfold try_edge_view, try_edge. cbv zeta.
  now rewrite C_view_eq by now apply wf_add_edge.
Qed.

Lemma for_each_edge_view_eq (T : list (list node)) (objfn : Z) (G : Graph)
  (PossE es : list edge) :
  greedy_inv T G PossE -> (forall e, In e es -> In e PossE) ->
  forall ms me,
    for_each_edge_view view T objfn (G, ms, me) es
    = for_each_edge T objfn (G, ms, me) es.
Proof.
  intros I. induction es as [|e es IH]; intros Hes ms me;
    cbn [for_each_edge_view for_each_edge]; [reflexivity|].
  rewrite (try_edge_view_eq T objfn G ms me e (gi_wf _ _ _ I)).
  unfold try_edge. cbv zeta.
  rewrite (inv_trial_restores T G PossE e I (Hes e (or_introl eq_refl))).
  cbn [obind].
  destruct (C (add_edge G (fst e) (snd e) None) (add_edge G (fst e) (snd e) None) T
            - objfn >? ms)%Z; cbn [obind]; apply IH; intros x Hx; apply Hes; now right.
Qed.

Lemma greedy_step_view_eq (T : list (list node)) (G : Graph) (PossE : list edge)
  (me : option edge) (objfn : Z) (w : World) :
  greedy_inv T G PossE ->
  greedy_step_view view T (G, PossE, me, objfn) w
  = greedy_step T (G, PossE, me, objfn) w.
Proof.
  intros I. unfold greedy_step_view, greedy_step, bind, print, shuffle, lift, ret.
  cbn [gen stdout].
  pose proof (random_shuffle_perm (gen w) PossE) as HP.
  destruct (random_shuffle (gen w) PossE) as [sh g'] eqn:Esh. cbn [fst] in HP.
  assert (Hsh : forall e, In e sh -> In e PossE).
  { intros e. apply Permutation_in. now symmetry. }
  rewrite (for_each_edge_view_eq T objfn G PossE sh I Hsh).
  rewrite (for_each_edge_restores T objfn G sh)
    by (intros e He; apply (inv_trial_restores T G PossE e I), Hsh, He).
  destruct (snd (select (gain T G objfn) (0%Z, me) sh)) as [e|]; [|reflexivity].
  destruct (list_remove e sh) as [P'|]; [|reflexivity].
  now rewrite C_view_eq by apply wf_add_edge, (gi_wf _ _ _ I).
Qed.

Lemma main_loop_view_eq (T : list (list node)) (fuel : nat) :
  forall G PossE me w,
    greedy_inv T G PossE ->
    main_loop_view view fuel T (G, PossE, me, C G G T) w
    = main_loop fuel T (G, PossE, me, C G G T) w.
Proof.
  induction fuel as [|fuel IH]; intros G PossE me w I;
    cbn [main_loop_view main_loop]; [reflexivity|].
  destruct (Z.ltb_spec (C G G T) 0) as [Hneg|Hge]; [|reflexivity].
  unfold bind. rewrite (greedy_step_view_eq T G PossE me (C G G T) w I).
  destruct (greedy_step_commits T G PossE me w I Hneg)
    as (l1 & e & l2 & E & _ & _ & _ & _ & Hstep).
  rewrite Hstep. apply IH.
  pose proof (random_shuffle_perm (gen w) PossE) as HP. rewrite E in HP.
  eapply inv_commit; eauto.
Qed.

Variable open_file : string -> option file.
Variable argv : list string.

Lemma iteration_view_eq (st : freq_table * option edge) (w : World) :
  iteration_view view open_file argv st w = iteration open_file argv st w.
Proof.
  destruct st as [d me].
  unfold iteration_view, iteration, bind, choices, print, lift, ret. cbn [gen stdout].
  destruct (random_choices (gen w) languages 12) as [L g1].
  destruct (nth_error argv 1) as [fname|]; [|reflexivity].
  destruct (open_file fname) as [f|]; [|reflexivity].
  destruct (read_file L f) as [T| |]; try reflexivity.
  pose proof (create_initial_graph_inv T) as I.
  destruct (create_initial_graph T) as [G P]. cbn [fst snd] in I.
  rewrite (C_view_eq G G T (gi_wf _ _ _ I)).
  now rewrite (main_loop_view_eq T _ G P me _ I).
Qed.

Lemma bootstrap_view_eq (n : nat) :
  forall st w,
    bootstrap_view view open_file argv n st w = bootstrap open_file argv n st w.
Proof.
  induction n as [|n IH]; intros st w; cbn [bootstrap_view bootstrap]; [reflexivity|].
  unfold bind. rewrite iteration_view_eq.
  destruct (iteration open_file argv st w) as [[st1| |] w1]; auto.
Qed.

Lemma main_view_eq (w : World) :
  main_view view open_file argv w = main open_file argv w.
Proof.
  unfold main_view, main, bind.
  destruct ((if List.length argv =? 2 then ret tt else print print_usage) w)
    as [[[]| |] w0]; [|reflexivity|reflexivity].
  cbv zeta. rewrite bootstrap_view_eq. reflexivity.
Qed.

End ViewOrder.

Section Determinism.

Context {R : Random} {RL : RandomLaws R}.

Variable open_file : string -> option file.
Variable argv : list string.

(** C9.  Two runs on the same command line and the same file, started with
    the generator of [random] in the same state, return the same final
    graph, with its edges and weights, and the same list of important
    links, or raise the same exception, also when they iterate the subgraph
    views in different orders and have printed different things before; and
    the result is that of the run that iterates every view in the order of
    the graph. *)
Theorem main_deterministic (view1 view2 : Graph -> list node -> Graph)
  (w1 w2 : World) :
  valid_view view1 -> valid_view view2 -> gen w1 = gen w2 ->
  fst (main_view view1 open_file argv w1) = fst (main_view view2 open_file argv w2)
  /\ fst (main_view view1 open_file argv w1) = fst (main open_file argv w1).
Proof.
  intros V1 V2 Hgen.
  rewrite (main_view_eq view1 V1), (main_view_eq view2 V2).
  split; [|reflexivity]. exact (proj1 (det_main open_file argv w1 w2 Hgen)).
Qed.

End Determinism.

(** C9 on a run that iterates the views in the order of the graph and one
    that iterates them backwards and has printed something before. *)
Lemma main_deterministic_witness :
  fst (@main_view sample_random subgraph sample_fs sample_argv sample_world)
  = fst (@main_view sample_random reverse_view sample_fs sample_argv
           sample_world_printed).
Proof.
  exact (proj1 (@main_deterministic sample_random sample_random_laws sample_fs
                  sample_argv subgraph reverse_view sample_world sample_world_printed
                  subgraph_valid reverse_view_valid eq_refl)).
Defined.

(** C8 on a command line with a second argument: the usage line comes first
    on the output and the run still returns a final graph. *)
Example usage_then_full_run :
  hd_error (stdout (snd (@main sample_random sample_fs
                           ["code.py"; "isolecticsets.tsv"; "extra"] sample_world)))
  = Some print_usage
  /\ match fst (@main sample_random sample_fs
                  ["code.py"; "isolecticsets.tsv"; "extra"] sample_world) with
     | Ok final => edges (fst final) = [("LOVE", "FEAR"); ("FEAR", "PITY")]
     | _ => False
     end.
Proof. split; vm_compute; reflexivity. Qed.

(* ================================================================== *)
(** * [allpairs] *)

Lemma allpairs_nth {A : Type} (seq : list A) (u v : A) :
  In (u, v) (allpairs seq) <->
  exists i j, i < j /\ nth_error seq i = Some u /\ nth_error seq j = Some v.
Proof.
  revert u v. induction seq as [|x xs IH]; intros u v; simpl.
  - split; [intros [] | intros (i & j & _ & H & _); destruct i; discriminate].
  - rewrite in_app_iff, in_map_iff, IH. split.
    + intros [[y [[= <- <-] Hy]]|(i & j & Hij & Hi & Hj)].
      * apply In_nth_error in Hy. destruct Hy as [j Hj].
        exists 0, (S j). split; [lia | auto].
      * exists (S i), (S j). split; [lia | auto].
    + intros (i & j & Hij & Hi & Hj). destruct j as [|j]; [lia|].
      destruct i as [|i]; simpl in Hi, Hj.
      * injection Hi as ->. left. exists v. split; [reflexivity|].
        eapply nth_error_In; eauto.
      * right. exists i, j. split; [lia | auto].
Qed.

(** X1.  [allpairs(seq)] yields exactly the pairs [(seq[i], seq[j])] with
    [i < j], and there are [n(n-1)/2] of them. *)
Theorem allpairs_positions {A : Type} (seq : list A) :
  (forall u v,
     In (u, v) (allpairs seq) <->
     exists i j, i < j /\ nth_error seq i = Some u /\ nth_error seq j = Some v)
  /\ 2 * List.length (allpairs seq) = List.length seq * (List.length seq - 1).
Proof.
  split.
  - apply allpairs_nth.
  - induction seq as [|x xs IH]; simpl; [reflexivity|].
    rewrite length_app, length_map. destruct xs as [|y ys]; simpl in *; nia.
Qed.

Lemma allpairs_NoDup {A : Type} (seq : list A) : NoDup seq -> NoDup (allpairs seq).
Proof.
  induction 1 as [|x xs Hx Hxs IH]; simpl; [constructor|].
  apply NoDup_app.
  - clear - Hxs. induction Hxs as [|y ys Hy Hys IH]; simpl; constructor; [|exact IH].
    rewrite in_map_iff. intros [z [[= ->] Hz]]. contradiction.
  - exact IH.
  - intros [u v] H1 H2. apply in_map_iff in H1. destruct H1 as [z [[= <- <-] _]].
    apply allpairs_In in H2. tauto.
Qed.

Lemma allpairs_strict {A : Type} (seq : list A) (u v : A) :
  NoDup seq -> In (u, v) (allpairs seq) -> u <> v /\ ~ In (v, u) (allpairs seq).
Proof.
  intros Hnd H. rewrite NoDup_nth_error in Hnd.
  apply allpairs_nth in H.
  destruct H as (i & j & Hij & Hi & Hj).
  assert (Hlen : j < List.length seq) by (apply nth_error_Some; congruence).
  split.
  - intros ->. assert (i = j); [|lia]. apply Hnd; [lia | congruence].
  - intros H'. apply allpairs_nth in H'.
    destruct H' as (i' & j' & Hij' & Hi' & Hj').
    assert (i' = j) by (symmetry; apply Hnd; [lia | congruence]).
    assert (i = j') by (apply Hnd; [lia | congruence]).
    lia.
Qed.

(** X2.  On a sequence without repetition [allpairs] lists every unordered
    pair once: no pair twice, none in both orientations, none with equal
    components. *)
Theorem allpairs_distinct {A : Type} (seq : list A) :
  NoDup seq ->
  NoDup (allpairs seq)
  /\ (forall u v, In (u, v) (allpairs seq) -> u <> v /\ ~ In (v, u) (allpairs seq))
  /\ (forall u v, In u seq -> In v seq -> u <> v ->
        In (u, v) (allpairs seq) \/ In (v, u) (allpairs seq)).
Proof.
  intros H. split_all.
  - now apply allpairs_NoDup.
  - intros u v. now apply allpairs_strict.
  - intros u v. apply allpairs_cover.
Qed.

(** X2 on the twelve concepts. *)
Lemma allpairs_distinct_witness :
  NoDup (allpairs nodes)
  /\ (forall u v, In (u, v) (allpairs nodes) -> u <> v /\ ~ In (v, u) (allpairs nodes))
  /\ (forall u v, In u nodes -> In v nodes -> u <> v ->
        In (u, v) (allpairs nodes) \/ In (v, u) (allpairs nodes)).
Proof.
  apply (allpairs_distinct nodes).
  unfold nodes. repeat constructor; simpl; intuition discriminate.
Defined.

(* ================================================================== *)
(** * Reading the terms *)

Lemma split_from_nonempty (sep : string) (s : string) :
  forall skip cur, split_from sep skip cur s <> [].
Proof.
  induction s as [|c s IH]; intros skip cur; cbn [split_from]; [discriminate|].
  destruct skip; [|apply IH].
  destruct (prefix sep (String c s)); [discriminate | apply IH].
Qed.

Lemma append_term_repeat (n : nat) (fields : list string) (f2 : string) :
  nth_error fields 2 = Some f2 ->
  forall T, append_term n fields T
            = Ok (T ++ repeat (split ", " (slice_1_m1 f2)) n).
Proof.
  intros H2.
  assert (H1 : exists f1, nth_error fields 1 = Some f1).
  { destruct fields as [|a [|b l]]; try discriminate. now exists b. }
  destruct H1 as [f1 H1].
  induction n as [|n IH]; intros T; cbn [append_term repeat].
  - now rewrite app_nil_r.
  - rewrite H1, H2, IH, <- app_assoc. reflexivity.
Qed.

(** X3.  A line contributes its sense list once per occurrence of its
    language in the draw [L]; a line whose language was not drawn is passed
    over whatever it holds; a line of a drawn language with fewer than three
    fields raises [IndexError]. *)
Theorem read_line_cases (L : list string) (T : list (list node)) (line : string) :
  let fields := split tab (strip line) in
  let k := count_occ string_dec L (hd EmptyString fields) in
  read_line L T line =
  match k, nth_error fields 2 with
  | O, _ => Ok T
  | S _, Some f2 => Ok (T ++ repeat (split ", " (slice_1_m1 f2)) k)
  | S _, None => Raise IndexError
  end.
Proof.
  cbv zeta. unfold read_line.
  destruct (count_occ string_dec L (hd EmptyString (split tab (strip line)))) as [|k] eqn:Ek.
  - reflexivity.
  - destruct (nth_error (split tab (strip line)) 2) as [f2|] eqn:E2.
    + now apply append_term_repeat.
    + cbn [append_term]. rewrite E2.
      now destruct (nth_error (split tab (strip line)) 1).
Qed.

Lemma read_data_appends (L : list string) (lines : list string) :
  forall T T',
    read_data L T lines = Ok T' ->
    exists new,
      T' = T ++ new
      /\ (forall t, In t new -> t <> [])
      /\ List.length new = list_sum (map (line_count L) lines).
Proof.
  induction lines as [|line rest IH]; intros T T'; simpl.
  - intros [= <-]. exists []. rewrite app_nil_r. split_all; auto; intros t [].
  - unfold read_line. fold (line_count L line).
    destruct (line_count L line) as [|k] eqn:Ek.
    + simpl. intros H. destruct (IH _ _ H) as (new & -> & Hne & Hlen).
      exists new. split_all; auto.
    + destruct (nth_error (split tab (strip line)) 2) as [f2|] eqn:E2.
      * rewrite (append_term_repeat (S k) _ f2 E2).
        simpl. intros H. destruct (IH _ _ H) as (new & -> & Hne & Hlen).
        exists (repeat (split ", " (slice_1_m1 f2)) (S k) ++ new).
        split_all.
        -- now rewrite app_assoc.
        -- intros t Ht. apply in_app_or in Ht. destruct Ht as [Ht|Ht]; [|auto].
           apply repeat_spec in Ht. subst t. apply split_from_nonempty.
        -- rewrite length_app, repeat_length. cbn [Nat.add].
           f_equal. f_equal. exact Hlen.
      * cbn [append_term]. rewrite E2.
        destruct (nth_error (split tab (strip line)) 1); simpl; discriminate.
Qed.

(** X4.  Reading a file only appends to [T]; every appended term has at least
    one sense; the number of appended terms is the sum, over the lines, of
    the occurrences of the line's language in the draw. *)
Theorem read_data_terms (L : list string) (lines : list string) :
  forall T T',
    read_data L T lines = Ok T' ->
    exists new,
      T' = T ++ new
      /\ (forall t, In t new -> t <> [])
      /\ List.length new = list_sum (map (line_count L) lines).
Proof. exact (read_data_appends L lines). Qed.

(** X4 on the sample file, with every language drawn once. *)
Lemma read_data_terms_witness :
  read_data languages [] sample_file
  = Ok [["LOVE"; "FEAR"]; ["FEAR"; "PITY"; "LOVE"]]
  /\ exists new,
       [["LOVE"; "FEAR"]; ["FEAR"; "PITY"; "LOVE"]] = [] ++ new
       /\ (forall t, In t new -> t <> [])
       /\ List.length new = list_sum (map (line_count languages) sample_file).
Proof.
  split; [reflexivity|].
  apply (read_data_terms languages sample_file []). reflexivity.
Defined.

(* ================================================================== *)
(** * When a trial scores *)

Lemma ncc_walk_mono (H H' : Graph) :
  wf_graph H -> wf_graph H' -> nodes_of H = nodes_of H' ->
  (forall u v, walk H u v -> walk H' u v) ->
  number_connected_components H' <= number_connected_components H.
Proof.
  intros W W' Hn Hsub. rewrite !ncc_firsts, <- Hn.
  apply firsts_count_mono with (R := walk H) (R' := walk H').
  - intros; now apply connb_spec.
  - intros; now apply connb_spec.
  - apply walk_here.
  - intros u v. apply walk_sym, (wf_sym H' W').
  - intros u v w. apply walk_trans.
  - exact Hsub.
Qed.

(** An edge between two concepts that a constraint does not both hold, or
    already joins, changes no walk inside the constraint. *)
Lemma walk_subgraph_add_edge_back (G : Graph) (a b : node) (t : list node) :
  wf_graph G ->
  (~ (In a t /\ In b t) \/ walk (subgraph G t) a b) ->
  forall u v,
    walk (subgraph (add_edge G a b None) t) u v -> walk (subgraph G t) u v.
Proof.
  intros W Hab u v Hw.
  pose proof (wf_add_edge G a b None W) as W'.
  induction Hw as [u|u x v Hin _ IH]; [apply walk_here|].
  apply (In_neighbors_subgraph _ t u x W') in Hin.
  destruct Hin as (Hin & Hu & Hx).
  apply In_neighbors_add_edge in Hin.
  destruct Hin as [Hin|[[-> ->]|[-> ->]]].
  - eapply walk_step; [|exact IH]. apply In_neighbors_subgraph; auto.
  - destruct Hab as [Hab|Hab]; [tauto|]. eapply walk_trans; eauto.
  - destruct Hab as [Hab|Hab]; [tauto|]. eapply walk_trans; [|exact IH].
    apply walk_sym; [|exact Hab]. apply (wf_sym _ (wf_subgraph G t W)).
Qed.

Lemma term_add_edge_eq (G : Graph) (a b : node) (t : list node) :
  wf_graph G -> In a (nodes_of G) -> In b (nodes_of G) ->
  (~ (In a t /\ In b t) \/ walk (subgraph G t) a b) ->
  term (add_edge G a b None) t = term G t.
Proof.
  intros W Ha Hb Hab. unfold term. do 2 f_equal.
  pose proof (wf_subgraph G t W) as W1.
  pose proof (wf_subgraph _ t (wf_add_edge G a b None W)) as W2.
  pose proof (nodes_subgraph_add_edge G a b None t Ha Hb) as Hn.
  apply Nat.le_antisymm.
  - apply ncc_walk_mono; auto. intros u v. apply walk_mono.
    intros x w. now apply neighbors_subgraph_add_edge.
  - apply ncc_walk_mono; auto. now apply walk_subgraph_add_edge_back.
Qed.

Lemma gain_zero (T : list (list node)) (G : Graph) (a b : node) :
  wf_graph G -> In a (nodes_of G) -> In b (nodes_of G) ->
  (forall t, In t T -> ~ (In a t /\ In b t) \/ walk (subgraph G t) a b) ->
  gain T G (C G G T) (a, b) = 0%Z.
Proof.
  intros W Ha Hb H. unfold gain. cbn [fst snd]. rewrite !C_sum.
  rewrite (map_ext_in (term (add_edge G a b None)) (term G)); [lia|].
  intros t Ht. apply term_add_edge_eq; auto.
Qed.

Lemma gain_loop (T : list (list node)) (G : Graph) (a : node) :
  wf_graph G -> In a (nodes_of G) -> gain T G (C G G T) (a, a) = 0%Z.
Proof.
  intros W Ha. apply gain_zero; auto. intros t _. right. apply walk_here.
Qed.

(** X5.  On a well-formed graph, joining two of its nodes scores exactly
    when some term holds both and does not connect them yet; joining a node
    to itself scores nothing. *)
Theorem score_positive_iff (T : list (list node)) (G : Graph) (a b : node) :
  wf_graph G -> In a (nodes_of G) -> In b (nodes_of G) ->
  ((0 < gain T G (C G G T) (a, b))%Z <->
   exists t, In t T /\ In a t /\ In b t /\ ~ walk (subgraph G t) a b)
  /\ (a = b -> gain T G (C G G T) (a, b) = 0%Z).
Proof.
  intros W Ha Hb. split; [split|].
  - intros Hpos.
    destruct (existsb (fun t => memb a t && memb b t
                                && negb (connb (subgraph G t) a b)) T) eqn:E.
    + apply existsb_exists in E. destruct E as [t [Ht E]].
      apply andb_true_iff in E. destruct E as [E E3].
      apply andb_true_iff in E. destruct E as [E1 E2].
      exists t. split_all; auto; try now apply memb_In.
      apply negb_true_iff in E3. intros Hw.
      apply (connb_spec _ a b (wf_subgraph G t W)) in Hw. congruence.
    + exfalso. rewrite gain_zero in Hpos; auto; [lia|].
      intros t Ht.
      assert (Et : memb a t && memb b t && negb (connb (subgraph G t) a b) = false).
      { destruct (memb a t && memb b t && negb (connb (subgraph G t) a b)) eqn:E';
          [|reflexivity].
        rewrite <- E. symmetry. apply existsb_exists. now exists t. }
      destruct (memb a t) eqn:E1; [|left; intros [H _]; apply memb_In in H; congruence].
      destruct (memb b t) eqn:E2; [|left; intros [_ H]; apply memb_In in H; congruence].
      right. cbn [andb] in Et. apply negb_false_iff in Et.
      now apply (connb_spec _ a b (wf_subgraph G t W)).
  - intros (t & Ht & Hat & Hbt & Hnw). now apply (gain_pos T G a b t).
  - intros <-. now apply gain_loop.
Qed.

(** X5 on the sample graph: joining [Y] and [Z] scores, joining [X] and [Y]
    again does not. *)
Lemma score_positive_iff_witness :
  (0 < gain sample_terms sample_graph
         (C sample_graph sample_graph sample_terms) ("Y", "Z"))%Z
  /\ exists t, In t sample_terms /\ In "Y" t /\ In "Z" t
               /\ ~ walk (subgraph sample_graph t) "Y" "Z".
Proof.
  assert (Hpos : (0 < gain sample_terms sample_graph
                        (C sample_graph sample_graph sample_terms) ("Y", "Z"))%Z)
    by (vm_compute; reflexivity).
  split; [exact Hpos|].
  apply (score_positive_iff sample_terms sample_graph "Y" "Z" sample_graph_wf);
    simpl; auto.
Defined.

(* ================================================================== *)
(** * What the greedy loop commits *)

Lemma In_neighbors_add_edges (es : list edge) :
  forall G x w,
    In w (neighbors (add_edges G es) x) <->
    In w (neighbors G x) \/ In (x, w) es \/ In (w, x) es.
Proof.
  induction es as [|[a b] es IH]; intros G x w; cbn [add_edges fold_left].
  - simpl. tauto.
  - fold (add_edges (add_edge G (fst (a, b)) (snd (a, b)) None) es).
    rewrite IH, In_neighbors_add_edge. cbn [fst snd In].
    split; intros H; intuition (subst; auto); try congruence.
Qed.

Lemma nodes_add_edges (es : list edge) :
  forall G,
    (forall u v, In (u, v) es -> In u (nodes_of G) /\ In v (nodes_of G)) ->
    nodes_of (add_edges G es) = nodes_of G.
Proof.
  induction es as [|[a b] es IH]; intros G H; cbn [add_edges fold_left]; [reflexivity|].
  fold (add_edges (add_edge G (fst (a, b)) (snd (a, b)) None) es).
  destruct (H a b (or_introl eq_refl)) as [Ha Hb]. cbn [fst snd].
  rewrite IH; [now apply nodes_add_edge_present|].
  intros u v Huv. rewrite nodes_add_edge_present by assumption.
  apply H. now right.
Qed.

Lemma last_cons_default {A} (l : list A) (a d : A) : last (a :: l) d = last l a.
Proof.
  revert a d. induction l as [|b l IH]; intros a d; [reflexivity|].
  change (last (a :: b :: l) d) with (last (b :: l) d).
  now rewrite !IH.
Qed.

Lemma create_initial_graph_edgeless (T : list (list node)) :
  edgeless (fst (create_initial_graph T)).
Proof.
  rewrite create_initial_graph_fold. cbn [fst].
  apply (fold_add_term_nodes_spec T empty_graph). intros x. reflexivity.
Qed.

Section Trace.

Context {R : Random} {RL : RandomLaws R}.

Variable T : list (list node).

(** The run of the loop from a state under the invariant: the edges it
    commits, in order. *)
Lemma main_loop_trace (fuel : nat) :
  forall G PossE me w,
    greedy_inv T G PossE -> List.length PossE < fuel ->
    exists added G' PossE' me' w',
      main_loop fuel T (G, PossE, me, C G G T) w
      = (Ok (G', PossE', me', C G' G' T), w')
      /\ (0 <= C G' G' T)%Z
      /\ greedy_inv T G' PossE'
      /\ G' = add_edges G added
      /\ Permutation PossE (added ++ PossE')
      /\ (Z.of_nat (List.length added) <= C G' G' T - C G G T)%Z
      /\ me' = last (map Some added) me
      /\ List.length (stdout w') = List.length (stdout w) + 2 * List.length added
      /\ (forall e, In e added -> fst e <> snd e).
Proof.
  induction fuel as [|fuel IH]; intros G PossE me w I Hlen; [lia|].
  cbn [main_loop]. destruct (Z.ltb_spec (C G G T) 0) as [Hneg|Hge].
  - destruct (greedy_step_commits T G PossE me w I Hneg)
      as (l1 & e & l2 & E & _ & H1 & H2 & H3 & Hstep).
    unfold bind. rewrite Hstep.
    pose proof (random_shuffle_perm (gen w) PossE) as HP. rewrite E in HP.
    destruct (IH (add_edge G (fst e) (snd e) None) (l1 ++ l2) (Some e)
                {| gen := snd (random_shuffle (gen w) PossE);
                   stdout := (stdout w ++ [print_objective (C G G T)])
                               ++ [print_adding e (gain T G (C G G T) e)] |})
      as (added & G' & P' & me' & w' & E' & Hge & I' & EG & HP' & Hn & Hme & Hout
          & Hloop).
    + eapply inv_commit; eauto.
    + apply Permutation_length in HP. rewrite length_app in *. simpl in HP. lia.
    + assert (He : fst e <> snd e).
      { intros Heq. destruct e as [a b]. cbn [fst snd] in Heq. subst b.
        rewrite gain_loop in H1; [lia | apply (gi_wf _ _ _ I) |].
        apply (gi_pool_nodes _ _ _ I a a).
        eapply Permutation_in; [symmetry; exact HP|].
        apply in_or_app. right. now left. }
      exists (e :: added), G', P', me', w'. split_all; auto.
      * rewrite HP. change ((e :: added) ++ P') with (e :: (added ++ P')).
        rewrite <- HP'. symmetry. apply Permutation_middle.
      * unfold gain in H1. cbv zeta in H1. cbn [List.length]. lia.
      * cbn [map]. now rewrite last_cons_default.
      * rewrite Hout. cbn [stdout List.length]. rewrite !length_app. simpl. lia.
      * intros x [<-|Hx]; auto.
  - exists [], G, PossE, me, w. unfold ret.
    split_all; auto; try (cbn [List.length]; lia).
Qed.

(** X6.  From the initial graph the loop returns, within its fuel; the graph
    it returns has the nodes of the initial graph and exactly the committed
    pairs as edges; the committed pairs and the pool that is left are, between
    them, the initial pool; no committed pair joins a concept to itself; each
    pass commits one pair, prints two lines and raises the objective by one
    at least; [max_edge] is the last pair committed, or what it was when
    nothing is. *)
Theorem main_loop_commits (me : option edge) (w : World) :
  let G0 := graph_of (initial_state T me) in
  let P0 := pool_of (initial_state T me) in
  exists added st' w',
    main_loop (S (List.length P0)) T (initial_state T me) w = (Ok st', w')
    /\ Permutation P0 (added ++ pool_of st')
    /\ graph_of st' = add_edges G0 added
    /\ nodes_of (graph_of st') = nodes_of G0
    /\ (forall u v, has_edge (graph_of st') u v = true <->
                    In (u, v) added \/ In (v, u) added)
    /\ (forall u v, In (u, v) added -> u <> v)
    /\ (Z.of_nat (List.length added) <= objfn_of st' - C G0 G0 T)%Z
    /\ max_edge_of st' = last (map Some added) me
    /\ List.length (stdout w') = List.length (stdout w) + 2 * List.length added.
Proof.
  cbv zeta. unfold initial_state, graph_of, pool_of, max_edge_of, objfn_of.
  cbn [fst snd].
  pose proof (create_initial_graph_inv T) as I.
  pose proof (create_initial_graph_edgeless T) as Hedgeless.
  destruct (create_initial_graph T) as [G0 P0]. cbn [fst snd] in *.
  destruct (main_loop_trace (S (List.length P0)) G0 P0 me w I (Nat.lt_succ_diag_r _))
    as (added & G' & P' & me' & w' & E & Hge & I' & EG & HP & Hn & Hme & Hout
        & Hloop).
  exists added, (G', P', me', C G' G' T), w'. cbn [fst snd].
  split_all; auto.
  - subst G'. apply nodes_add_edges. intros u v H.
    apply (gi_pool_nodes _ _ _ I).
    eapply Permutation_in; [symmetry; exact HP|]. apply in_or_app. now left.
  - intros u v. rewrite has_edge_In. subst G'. rewrite In_neighbors_add_edges.
    unfold neighbors at 1. rewrite Hedgeless. simpl. tauto.
  - intros u v H. apply (Hloop (u, v) H).
Qed.

End Trace.

(** X6 on the two sample terms: two pairs are committed. *)
Lemma main_loop_commits_witness :
  exists added st' w',
    @main_loop sample_random
      (S (List.length (pool_of (initial_state sample_terms None)))) sample_terms
      (initial_state sample_terms None) sample_world = (Ok st', w')
    /\ Permutation (pool_of (initial_state sample_terms None)) (added ++ pool_of st')
    /\ graph_of st' = add_edges (graph_of (initial_state sample_terms None)) added.
Proof.
  destruct (@main_loop_commits sample_random sample_random_laws sample_terms
              None sample_world)
    as (added & st' & w' & E & HP & EG & _).
  exists added, st', w'. auto.
Defined.

(* ================================================================== *)
(** * The initial graph *)

Lemma edges_from_edgeless (G : Graph) :
  (forall n a, In (n, a) G -> a = []) -> forall seen, edges_from seen G = [].
Proof.
  induction G as [|[n a] G IH]; intros H seen; cbn [edges_from]; [reflexivity|].
  rewrite (H n a (or_introl eq_refl)). cbn [map filter app].
  apply IH. intros m b Hm. apply (H m b). now right.
Qed.

Lemma edgeless_edges (G : Graph) : NoDup (nodes_of G) -> edgeless G -> edges G = [].
Proof.
  intros Hnd He. apply edges_from_edgeless. intros n a Hin.
  specialize (He n). unfold adj in He.
  now rewrite (lookup_In_NoDup G n a Hnd Hin) in He.
Qed.

Lemma walk_edgeless (G : Graph) (u v : node) :
  (forall x, neighbors G x = []) -> walk G u v -> u = v.
Proof.
  intros He H. destruct H as [u|u v w Hin _]; [reflexivity|].
  rewrite He in Hin. destruct Hin.
Qed.

Lemma firsts_discrete (r : node -> node -> bool) (vs : list node) :
  (forall u v, r u v = true -> u = v) ->
  NoDup vs ->
  forall reps, (forall x, In x reps -> ~ In x vs) -> firsts r reps vs = vs.
Proof.
  intros Hr. induction 1 as [|v vs Hv Hnd IH]; intros reps Hreps; cbn [firsts];
    [reflexivity|].
  destruct (existsb (fun u => r u v) reps) eqn:E.
  - apply existsb_exists in E. destruct E as [u [Hu E]]. apply Hr in E. subst u.
    exfalso. apply (Hreps v Hu). now left.
  - f_equal. apply IH. intros x [<-|Hx]; [exact Hv|].
    intros Hin. apply (Hreps x Hx). now right.
Qed.

(** Without edges every node is a component of its own. *)
Lemma ncc_edgeless (G : Graph) :
  NoDup (nodes_of G) -> (forall x, neighbors G x = []) ->
  number_connected_components G = List.length (nodes_of G).
Proof.
  intros Hnd He. rewrite ncc_firsts. f_equal.
  apply firsts_discrete; [|exact Hnd|intros x []].
  intros u v H. unfold connb in H. apply memb_In in H.
  apply plain_bfs_spec in H.
  - now apply (walk_edgeless G).
  - intros x w Hw. rewrite He in Hw. destruct Hw.
Qed.

Lemma term_edgeless (G : Graph) (t : list node) :
  wf_graph G -> edgeless G -> (forall n, In n t -> In n (nodes_of G)) ->
  term G t = (1 - Z.of_nat (List.length (nodup string_dec t)))%Z.
Proof.
  intros HG He Ht. unfold term. do 2 f_equal.
  pose proof (wf_subgraph G t HG) as HS.
  rewrite ncc_edgeless.
  - apply Permutation_length, NoDup_Permutation.
    + apply (wf_nodes _ HS).
    + apply NoDup_nodup.
    + intros x. rewrite In_nodes_subgraph, nodup_In. split; [tauto|]. auto.
  - apply (wf_nodes _ HS).
  - intros x. destruct (neighbors (subgraph G t) x) as [|w l] eqn:E; [reflexivity|].
    assert (Hw : In w (neighbors (subgraph G t) x)) by (rewrite E; now left).
    apply In_neighbors_subgraph in Hw; [|exact HG].
    destruct Hw as [Hw _]. unfold neighbors in Hw. rewrite He in Hw. destruct Hw.
Qed.

(** X7.  The graph the loop starts from has the concepts of the terms as its
    nodes, each once, and no edge; the pool holds pairs of concepts of one
    term, each pair once and in one orientation, and every pair of positions
    of a term is in it in one orientation or the other. *)
Theorem create_initial_graph_spec (T : list (list node)) :
  let G := fst (create_initial_graph T) in
  let PossE := snd (create_initial_graph T) in
  (forall n, In n (nodes_of G) <-> exists t, In t T /\ In n t)
  /\ NoDup (nodes_of G)
  /\ edges G = []
  /\ (forall e, In e PossE -> exists t, In t T /\ In e (allpairs t))
  /\ (forall t e, In t T -> In e (allpairs t) -> In e PossE \/ In (swap e) PossE)
  /\ NoDup PossE
  /\ oriented PossE.
Proof.
  cbv zeta.
  pose proof (create_initial_graph_edgeless T) as He.
  pose proof (gi_wf _ _ _ (create_initial_graph_inv T)) as HG.
  rewrite create_initial_graph_fold in *. cbn [fst snd] in *.
  destruct (fold_add_term_nodes_spec T empty_graph) as (A1 & _ & _).
  destruct (fold_add_term_pairs_spec T []) as (_ & B2 & B3 & B4 & B5).
  split_all.
  - intros n. rewrite A1. simpl. tauto.
  - apply (wf_nodes _ HG).
  - apply edgeless_edges; [apply (wf_nodes _ HG) | exact He].
  - intros e H. apply B2 in H. destruct H as [[]|H]. exact H.
  - exact B3.
  - apply B4. constructor.
  - apply B5. intros u v [].
Qed.

(** X8.  The objective the loop starts from: a term with [k] distinct
    concepts contributes [1 - k]. *)
Theorem initial_objective (T : list (list node)) (me : option edge) :
  objfn_of (initial_state T me)
  = Zsum (map (fun t => (1 - Z.of_nat (List.length (nodup string_dec t)))%Z) T).
Proof.
  unfold initial_state, objfn_of. cbn [snd]. rewrite C_sum. f_equal.
  apply map_ext_in. intros t Ht.
  pose proof (create_initial_graph_inv T) as I.
  apply term_edgeless.
  - apply (gi_wf _ _ _ I).
  - apply create_initial_graph_edgeless.
  - intros n Hn. apply (gi_nodes _ _ _ I t n Ht Hn).
Qed.

(* ================================================================== *)
(** * What a pass counts *)

Lemma edges_from_sound (G : Graph) :
  forall seen u v,
    In (u, v) (edges_from seen G) -> exists a, In (u, a) G /\ In v (map fst a).
Proof.
  induction G as [|[n nbrs] G IH]; intros seen u v; cbn [edges_from]; [intros []|].
  rewrite in_app_iff, in_map_iff. intros [[w [[= <- <-] Hw]]|H].
  - apply filter_In in Hw. exists nbrs. split; [now left | tauto].
  - destruct (IH _ _ _ H) as [a [Ha Hv]]. exists a. split; [now right | exact Hv].
Qed.

Lemma edges_from_complete (G : Graph) :
  NoDup (nodes_of G) ->
  forall seen u v a b,
    In (u, a) G -> In (v, b) G -> In v (map fst a) -> In u (map fst b) ->
    ~ In u seen -> ~ In v seen ->
    In (u, v) (edges_from seen G) \/ In (v, u) (edges_from seen G).
Proof.
  induction G as [|[n nbrs] G IH]; intros Hnd seen u v a b Hu Hv Hva Hub Hus Hvs;
    [destruct Hu|].
  cbn [edges_from]. rewrite !in_app_iff, !in_map_iff.
  simpl in Hnd. inversion Hnd as [|? ? Hn Hnd']; subst.
  destruct Hu as [[= -> ->]|Hu].
  - left. left. exists v. split; [reflexivity|].
    apply filter_In. split; [exact Hva|]. apply negb_true_iff, memb_false, Hvs.
  - destruct Hv as [[= -> ->]|Hv].
    + right. left. exists u. split; [reflexivity|].
      apply filter_In. split; [exact Hub|]. apply negb_true_iff, memb_false, Hus.
    + assert (u <> n).
      { intros ->. apply Hn. apply in_map_iff. now exists (n, a). }
      assert (v <> n).
      { intros ->. apply Hn. apply in_map_iff. now exists (n, b). }
      destruct (IH Hnd' (n :: seen) u v a b) as [H'|H']; auto;
        simpl; intuition congruence.
Qed.

(** [G.edges()] reports every edge, and only edges. *)
Lemma edges_has_edge (G : Graph) (u v : node) :
  wf_graph G ->
  (In (u, v) (edges G) -> has_edge G u v = true)
  /\ (has_edge G u v = true -> In (u, v) (edges G) \/ In (v, u) (edges G)).
Proof.
  intros W. rewrite has_edge_In. split.
  - intros H. apply edges_from_sound in H. destruct H as [a [Ha Hv]].
    unfold neighbors, adj.
    now rewrite (lookup_In_NoDup G u a (wf_nodes G W) Ha).
  - intros H. pose proof (wf_sym G W _ _ H) as H'.
    assert (Hl : forall x y, In y (neighbors G x) -> In (x, adj G x) G).
    { intros x y Hy. unfold neighbors, adj in *.
      destruct (lookup x G) as [a|] eqn:E; [|destruct Hy].
      now apply lookup_Some_In. }
    apply (edges_from_complete G (wf_nodes G W) [] u v (adj G u) (adj G v)); eauto.
Qed.

Lemma swap_swap (e : edge) : swap (swap e) = e.
Proof. now destruct e. Qed.

(** With a table that holds no pair in both orientations, counting an edge
    raises the entries that are the edge in either orientation. *)
Lemma count_edge_exact (d d' : freq_table) (e : edge) :
  (forall k, In k (map fst d) -> ~ In (swap k) (map fst d)) ->
  count_edge d e = Ok d' ->
  map fst d' = map fst d
  /\ forall k v, dict_get k d = Some v ->
       dict_get k d' = Some (v + (if touches k e then 1 else 0))%Z.
Proof.
  intros Hor H. pose proof (count_edge_canonical d e) as Hc.
  unfold canonical, dict_contains in Hc.
  assert (Hkey : forall k, dict_get k d <> None -> In k (map fst d))
    by (intros k; apply dict_get_keys).
  destruct (dict_get e d) as [x|] eqn:Ee.
  - destruct Hc as (d1 & E1 & K & Hget). rewrite E1 in H. injection H as <-.
    split; [exact K|]. intros k v Hv. rewrite Hget, Hv. unfold touches.
    destruct (edge_eqb k e) eqn:Ek; cbn [orb option_map].
    + f_equal; lia.
    + destruct (edge_eqb k (swap e)) eqn:Ek'; [|f_equal; lia].
      exfalso. apply edge_eqb_eq in Ek'. subst k.
      apply (Hor (swap e)); [apply Hkey; congruence|].
      rewrite swap_swap. apply Hkey. congruence.
  - destruct (dict_get (swap e) d) as [x|] eqn:Es.
    + destruct Hc as (d1 & E1 & K & Hget). rewrite E1 in H. injection H as <-.
      split; [exact K|]. intros k v Hv. rewrite Hget, Hv. unfold touches.
      destruct (edge_eqb k e) eqn:Ek; cbn [orb option_map].
      * apply edge_eqb_eq in Ek. congruence.
      * destruct (edge_eqb k (swap e)); cbn [option_map]; f_equal; lia.
    + congruence.
Qed.

Lemma adding_edges_exact (es : list edge) :
  forall d d',
    (forall k, In k (map fst d) -> ~ In (swap k) (map fst d)) ->
    adding_edges es d = Ok d' ->
    map fst d' = map fst d
    /\ forall k v, dict_get k d = Some v ->
         dict_get k d' = Some (v + Z.of_nat (List.length (filter (touches k) es)))%Z.
Proof.
  induction es as [|e es IH]; intros d d' Hor; cbn [adding_edges].
  - intros [= <-]. split; [reflexivity|]. intros k v Hv. simpl. rewrite Hv.
    f_equal; lia.
  - destruct (count_edge d e) as [d1| |] eqn:E1; simpl; try discriminate.
    intros H. destruct (count_edge_exact _ _ _ Hor E1) as [K1 B1].
    destruct (IH d1 d') as [K2 B2]; [now rewrite K1 | exact H |].
    split; [congruence|]. intros k v Hv.
    rewrite (B2 k _ (B1 k v Hv)). f_equal. cbn [filter].
    destruct (touches k e); cbn [List.length]; lia.
Qed.

Lemma touches_edges (G : Graph) (k : edge) :
  wf_graph G ->
  List.length (filter (touches k) (edges G))
  = if has_edge G (fst k) (snd k) then 1 else 0.
Proof.
  intros W. destruct (edges_distinct G W) as [Hnd Hor].
  pose proof (touches_once (edges G) k Hnd Hor) as Hle.
  destruct k as [u v]. cbn [fst snd].
  destruct (has_edge G u v) eqn:E.
  - assert (exists e, In e (filter (touches (u, v)) (edges G))) as [e He].
    { apply (edges_has_edge G u v W) in E. destruct E as [E|E].
      - exists (u, v). apply filter_In. split; [exact E|].
        unfold touches. now rewrite edge_eqb_refl.
      - exists (v, u). apply filter_In. split; [exact E|].
        unfold touches, swap. cbn [fst snd]. rewrite edge_eqb_refl.
        apply orb_true_r. }
    destruct (filter (touches (u, v)) (edges G)) as [|a l]; [destruct He|].
    simpl in *. lia.
  - destruct (filter (touches (u, v)) (edges G)) as [|[a b] l] eqn:Ef; [reflexivity|].
    exfalso. assert (Hin : In (a, b) (filter (touches (u, v)) (edges G)))
      by (rewrite Ef; now left).
    apply filter_In in Hin. destruct Hin as [Hin Ht].
    apply (edges_has_edge G a b W) in Hin.
    unfold touches, swap in Ht. cbn [fst snd] in Ht. apply orb_true_iff in Ht.
    destruct Ht as [Ht|Ht]; apply edge_eqb_eq in Ht; injection Ht as -> ->.
    + congruence.
    + apply has_edge_In, (wf_sym G W), has_edge_In in Hin. congruence.
Qed.

Lemma adding_edges_indicator (G : Graph) (d d' : freq_table) :
  wf_graph G ->
  (forall k, In k (map fst d) -> ~ In (swap k) (map fst d)) ->
  adding_edges (edges G) d = Ok d' ->
  map fst d' = map fst d
  /\ forall k v, dict_get k d = Some v ->
       dict_get k d' = Some (v + (if has_edge G (fst k) (snd k) then 1 else 0))%Z.
Proof.
  intros W Hor H. destruct (adding_edges_exact _ _ _ Hor H) as [K B].
  split; [exact K|]. intros k v Hv. rewrite (B k v Hv), (touches_edges G k W).
  now destruct (has_edge G (fst k) (snd k)).
Qed.

Lemma initial_keys : map fst initial_edges_dictionary = allpairs nodes.
Proof. unfold initial_edges_dictionary. rewrite map_map. apply map_id. Qed.

Lemma initial_keys_oriented (k : edge) :
  In k (map fst initial_edges_dictionary) ->
  ~ In (swap k) (map fst initial_edges_dictionary).
Proof.
  rewrite initial_keys. destruct k as [u v].
  apply (ko_orient _ allpairs_nodes_ok).
Qed.

(** X9.  Counting the edges of a graph in a table that holds no pair in both
    orientations keeps the keys, raises by one the entry of every pair that
    is an edge of the graph, and leaves the other entries as they are. *)
Theorem adding_edges_counts (G : Graph) (d d' : freq_table) :
  wf_graph G ->
  (forall k, In k (map fst d) -> ~ In (swap k) (map fst d)) ->
  adding_edges (edges G) d = Ok d' ->
  map fst d' = map fst d
  /\ forall k v, dict_get k d = Some v ->
       dict_get k d' = Some (v + (if has_edge G (fst k) (snd k) then 1 else 0))%Z.
Proof. exact (adding_edges_indicator G d d'). Qed.

(** X9 on a graph with two edges and the table of zeros. *)
Lemma adding_edges_counts_witness :
  exists d',
    adding_edges
      (edges (add_edge (add_edge empty_graph "LOVE" "FEAR" None) "PITY" "FEAR" None))
      initial_edges_dictionary = Ok d'
    /\ dict_get ("FEAR", "PITY") d' = Some 1%Z
    /\ dict_get ("LOVE", "PITY") d' = Some 0%Z.
Proof.
  eexists. split; [vm_compute; reflexivity|].
  match goal with |- dict_get _ ?d' = _ /\ _ =>
    destruct (adding_edges_counts
                (add_edge (add_edge empty_graph "LOVE" "FEAR" None) "PITY" "FEAR" None)
                initial_edges_dictionary d') as [_ H]
  end.
  - apply wf_add_edge, wf_add_edge, wf_empty.
  - exact initial_keys_oriented.
  - vm_compute. reflexivity.
  - split; [apply (H ("FEAR", "PITY") 0%Z) | apply (H ("LOVE", "PITY") 0%Z)];
      reflexivity.
Defined.

Section Pass.

Context {R : Random} {RL : RandomLaws R}.

Variable open_file : string -> option file.
Variable argv : list string.

(** X10.  A pass of the bootstrap loop that ends normally has read its terms
    from the file [sys.argv[1]] names, with the languages it drew; it has
    built a graph on the concepts of those terms whose edges join two
    concepts of one term and in which every term induces a connected
    subgraph; and it has raised by one the count of exactly the pairs that
    are edges of that graph. *)
Theorem iteration_counts (d d' : freq_table) (me me' : option edge) (w w' : World) :
  (forall k, In k (map fst d) -> ~ In (swap k) (map fst d)) ->
  iteration open_file argv (d, me) w = (Ok (d', me'), w') ->
  exists fname lines T G,
    nth_error argv 1 = Some fname
    /\ open_file fname = Some (lines, EndOfFile)
    /\ read_data (fst (random_choices (gen w) languages 12)) [] lines = Ok T
    /\ (forall n, In n (nodes_of G) <-> exists t, In t T /\ In n t)
    /\ (forall u v, has_edge G u v = true ->
          u <> v
          /\ exists t, In t T /\ (In (u, v) (allpairs t) \/ In (v, u) (allpairs t)))
    /\ (forall t, In t T -> number_connected_components (subgraph G t) = 1)
    /\ map fst d' = map fst d
    /\ forall k v, dict_get k d = Some v ->
         dict_get k d' = Some (v + (if has_edge G (fst k) (snd k) then 1 else 0))%Z.
Proof.
  intros Hor. unfold iteration, bind, choices, print, lift, ret. cbn [gen stdout].
  destruct (random_choices (gen w) languages 12) as [L g1]. cbn [fst].
  destruct (nth_error argv 1) as [fname|] eqn:Ef; [|discriminate].
  destruct (open_file fname) as [[lines fend]|] eqn:Eo; [|discriminate].
  destruct (read_file L (lines, fend)) as [T| |] eqn:ET; try discriminate.
  apply read_file_Ok in ET. cbn [fst snd] in ET. destruct ET as [ET ->].
  pose proof (create_initial_graph_inv T) as I.
  pose proof (create_initial_graph_edgeless T) as Hedgeless.
  assert (Hsrc : forall e, In e (snd (create_initial_graph T)) ->
                           exists t, In t T /\ In e (allpairs t)).
  { rewrite create_initial_graph_fold. cbn [snd]. intros e He.
    apply (fold_add_term_pairs_spec T []) in He. destruct He as [[]|He]. exact He. }
  assert (Hnodes : forall n, In n (nodes_of (fst (create_initial_graph T))) <->
                             exists t, In t T /\ In n t).
  { rewrite create_initial_graph_fold. cbn [fst]. intros n.
    rewrite (proj1 (fold_add_term_nodes_spec T empty_graph)). simpl. tauto. }
  destruct (create_initial_graph T) as [G P] eqn:EG. cbn [fst snd] in *.
  match goal with |- context [main_loop _ _ _ ?w0] =>
    destruct (main_loop_trace T (S (List.length P)) G P me w0 I
                (Nat.lt_succ_diag_r _))
      as (added & G' & P' & me1 & w1 & E & Hge & I' & EG' & HP & _ & _ & _ & Hloop)
  end.
  rewrite E. destruct (adding_edges (edges G') d) as [d1| |] eqn:EA; try discriminate.
  intros [= <- <- <-].
  destruct (read_data_appends L lines [] T ET) as (new & -> & Hne & _).
  cbn [app] in *.
  assert (Hadded : forall e, In e added -> In e P).
  { intros e He. eapply Permutation_in; [symmetry; exact HP|].
    apply in_or_app. now left. }
  assert (Hsome : forall c, In c new -> exists n, In n c /\ has_node G' n = true).
  { intros [|n c] Hc; [now apply Hne in Hc|].
    exists n. split; [now left|]. apply has_node_In.
    apply (gi_nodes _ _ _ I' (n :: c) n Hc). now left. }
  exists fname, lines, new, G'. split_all; auto.
  - intros n. rewrite <- Hnodes. subst G'. rewrite nodes_add_edges; [tauto|].
    intros u v Huv. apply (gi_pool_nodes _ _ _ I). auto.
  - intros u v Huv. apply has_edge_In in Huv. subst G'.
    apply In_neighbors_add_edges in Huv.
    unfold neighbors in Huv at 1. rewrite Hedgeless in Huv.
    destruct Huv as [[]|[Huv|Huv]]; pose proof (Hloop _ Huv) as Hapart;
      apply Hadded, Hsrc in Huv; destruct Huv as [t [Ht Huv]];
      (split; [cbn [fst snd] in Hapart; congruence | exists t; auto]).
  - destruct (C_sign G' G' new Hsome) as [Hle Hzero].
    apply Hzero. lia.
  - now apply (adding_edges_indicator G' d _ (gi_wf _ _ _ I') Hor).
  - now apply (adding_edges_indicator G' d _ (gi_wf _ _ _ I') Hor).
Qed.

End Pass.

(** X10 on the sample file and the table of zeros. *)
Lemma iteration_counts_witness :
  exists d' me' w' T G,
    @iteration sample_random sample_fs sample_argv
      (initial_edges_dictionary, None) sample_world = (Ok (d', me'), w')
    /\ read_data (fst (random_choices (gen sample_world) languages 12)) []
         sample_file = Ok T
    /\ (forall t, In t T -> number_connected_components (subgraph G t) = 1)
    /\ forall k v, dict_get k initial_edges_dictionary = Some v ->
         dict_get k d' = Some (v + (if has_edge G (fst k) (snd k) then 1 else 0))%Z.
Proof.
  do 3 eexists.
  match goal with |- exists T G, ?it = ?res /\ _ =>
    assert (E : it = res) by (vm_compute; reflexivity)
  end.
  destruct (@iteration_counts sample_random sample_random_laws sample_fs sample_argv
              _ _ _ _ _ _ initial_keys_oriented E)
    as (fname & lines & T & G & E1 & E2 & E3 & _ & _ & H1 & _ & H2).
  exists T, G. split_all; auto.
  injection E1 as <-. injection E2 as <-. exact E3.
Defined.

(* ================================================================== *)
(** * The final graph for any table *)

Lemma lookup_adj_add_edge (G : Graph) (u v : node) (attr : attrs) (x y : node) :
  lookup y (adj (add_edge G u v attr) x) =
  if (String.eqb x u && String.eqb y v) || (String.eqb x v && String.eqb y u)
  then Some (edge_data G u v attr)
  else lookup y (adj G x).
Proof.
  rewrite adj_add_edge. cbv zeta.
  destruct (String.eqb_spec x v) as [Hxv|Hxv], (String.eqb_spec x u) as [Hxu|Hxu],
           (String.eqb_spec y u) as [Hyu|Hyu], (String.eqb_spec y v) as [Hyv|Hyv];
    subst; rewrite ?String.eqb_refl; rewrite ?lookup_set_item;
    rewrite ?String.eqb_refl; cbn [andb orb]; try reflexivity;
    repeat match goal with
           | |- context [String.eqb ?a ?b] =>
               destruct (String.eqb_spec a b); try congruence
           end;
    rewrite ?lookup_set_item;
    repeat match goal with
           | |- context [String.eqb ?a ?b] =>
               destruct (String.eqb_spec a b); try congruence
           end;
    try reflexivity.
Qed.

Lemma sym_data_add_node (G : Graph) (n : node) : sym_data G -> sym_data (add_node G n).
Proof. intros H u v. rewrite !adj_add_node. apply H. Qed.

Lemma sym_data_add_edge (G : Graph) (a b : node) (attr : attrs) :
  sym_data G -> sym_data (add_edge G a b attr).
Proof.
  intros H u v. rewrite !lookup_adj_add_edge, (H u v).
  destruct (String.eqb u a), (String.eqb v b), (String.eqb u b), (String.eqb v a);
    reflexivity.
Qed.

Lemma sym_data_weight (G : Graph) (u v : node) :
  sym_data G -> edge_weight G u v = edge_weight G v u.
Proof. intros H. unfold edge_weight. now rewrite (H u v). Qed.

Lemma weighted_add_node (G : Graph) (n : node) : weighted G -> weighted (add_node G n).
Proof.
  intros H u v. unfold neighbors, edge_weight. rewrite !adj_add_node. apply H.
Qed.

Lemma weighted_add_edge (G : Graph) (a b : node) (w : Q) :
  weighted G -> weighted (add_edge G a b (Some w)).
Proof.
  intros H m n Hn. unfold edge_weight. rewrite lookup_adj_add_edge.
  destruct ((String.eqb m a && String.eqb n b) || (String.eqb m b && String.eqb n a))
    eqn:E; [discriminate|].
  apply In_neighbors_add_edge in Hn. destruct Hn as [Hn|[[-> ->]|[-> ->]]].
  - apply (H m n Hn).
  - rewrite !String.eqb_refl in E. discriminate.
  - rewrite !String.eqb_refl in E. rewrite orb_true_r in E. discriminate.
Qed.

Lemma edgeless_weighted (G : Graph) : edgeless G -> weighted G /\ sym_data G.
Proof.
  intros H. split.
  - intros m n Hn. unfold neighbors in Hn. rewrite H in Hn. destruct Hn.
  - intros u v. now rewrite !H.
Qed.

(** What the thresholding loop does to any table, from any graph. *)
Lemma fold_threshold_any (d : freq_table) :
  forall st,
    wf_graph (fst st) -> sym_data (fst st) -> weighted (fst st) ->
    let st' := fold_left threshold_step d st in
    wf_graph (fst st') /\ sym_data (fst st') /\ weighted (fst st')
    /\ (forall u v, In v (neighbors (fst st') u) <->
          In v (neighbors (fst st) u)
          \/ exists f, (In ((u, v), f) d \/ In ((v, u), f) d) /\ (250 <= f)%Z)
    /\ snd st' = snd st ++ map fst (filter (fun item => (snd item >? 500)%Z) d).
Proof.
  induction d as [|[[a b] f] d IH]; intros [G l] W S Wt; cbv zeta;
    cbn [fold_left fst snd].
  - split_all; auto.
    + intros u v. split; [auto | intros [H|[f [[[]|[]] _]]]; exact H].
    + cbn [filter map]. now rewrite app_nil_r.
  - cbn [fst snd] in W, S, Wt.
    match goal with |- context [fold_left threshold_step d ?x] =>
      assert (Estep : x = if (f <? 250)%Z then (G, l)
                          else (add_edge G a b (Some (Qmake f 200)),
                                if (f >? 500)%Z then l ++ [(a, b)] else l))
        by (unfold threshold_step; cbn [fst snd];
            destruct (f <? 250)%Z, (f >? 500)%Z; reflexivity);
      rewrite Estep; clear Estep
    end.
    destruct (Z.ltb_spec f 250) as [Hlt|Hge].
    + destruct (IH (G, l) W S Wt) as (W' & S' & Wt' & N' & L').
      cbn [fst snd] in *. split_all; auto.
      * intros u v. rewrite N'. split; intros [H|[f' [H Hf]]]; auto; right.
        -- exists f'. simpl. tauto.
        -- exists f'. split; [|exact Hf].
           destruct H as [[H|H]|[H|H]]; auto; injection H as -> -> ->; lia.
      * rewrite L'. cbn [filter snd].
        destruct (Z.gtb_spec f 500) as [Hgt|_]; [lia | reflexivity].
    + assert (W1 : wf_graph (add_edge G a b (Some (Qmake f 200))))
        by now apply wf_add_edge.
      assert (S1 : sym_data (add_edge G a b (Some (Qmake f 200))))
        by now apply sym_data_add_edge.
      assert (Wt1 : weighted (add_edge G a b (Some (Qmake f 200))))
        by now apply weighted_add_edge.
      assert (N1 : forall l' u v,
                 In v (neighbors
                         (fst (fold_left threshold_step d
                                 (add_edge G a b (Some (Qmake f 200)), l'))) u) <->
                 In v (neighbors G u)
                 \/ exists f', (In ((u, v), f') (((a, b), f) :: d)
                                \/ In ((v, u), f') (((a, b), f) :: d))
                               /\ (250 <= f')%Z).
      { intros l' u v.
        destruct (IH (add_edge G a b (Some (Qmake f 200)), l') W1 S1 Wt1)
          as (_ & _ & _ & N' & _).
        cbn [fst snd] in N'. rewrite N', In_neighbors_add_edge. split.
        - intros [[H|[[-> ->]|[-> ->]]]|[f' [H Hf]]]; auto; right.
          + exists f. simpl. auto.
          + exists f. simpl. auto.
          + exists f'. simpl. tauto.
        - intros [H|[f' [[[H|H]|[H|H]] Hf]]]; auto.
          + injection H as -> -> ->. auto.
          + right. exists f'. auto.
          + injection H as -> -> ->. auto.
          + right. exists f'. auto. }
      destruct (Z.gtb_spec f 500) as [Hgt|Hle].
      * destruct (IH (add_edge G a b (Some (Qmake f 200)), l ++ [(a, b)]) W1 S1 Wt1)
          as (W' & S' & Wt' & _ & L').
        cbn [fst snd] in *. split_all; auto.
        rewrite L'. cbn [filter snd map].
        destruct (Z.gtb_spec f 500); [|lia]. cbn [map fst]. now rewrite <- app_assoc.
      * destruct (IH (add_edge G a b (Some (Qmake f 200)), l) W1 S1 Wt1)
          as (W' & S' & Wt' & _ & L').
        cbn [fst snd] in *. split_all; auto.
        rewrite L'. cbn [filter snd map].
        destruct (Z.gtb_spec f 500); [lia | reflexivity].
Qed.

Lemma final_graph_any (d : freq_table) :
  let G := fst (final_graph_creation d) in
  wf_graph G /\ sym_data G /\ weighted G
  /\ (forall u v, In v (neighbors G u) <->
        exists f, (In ((u, v), f) d \/ In ((v, u), f) d) /\ (250 <= f)%Z)
  /\ snd (final_graph_creation d)
     = map fst (filter (fun item => (snd item >? 500)%Z) d).
Proof.
  cbv zeta. rewrite final_graph_creation_fold.
  destruct (fold_add_node_spec nodes empty_graph) as (_ & W0 & E0).
  specialize (W0 wf_empty).
  assert (E1 : edgeless (fold_left add_node nodes empty_graph))
    by (apply E0; intros x; reflexivity).
  destruct (edgeless_weighted _ E1) as [Wt0 S0].
  destruct (fold_threshold_any d (fold_left add_node nodes empty_graph, [])
              W0 S0 Wt0) as (W & S & Wt & N & L).
  split_all; auto.
  intros u v. rewrite N. cbn [fst]. unfold neighbors at 1. rewrite E1.
  simpl. tauto.
Qed.

(** X11.  Whatever the table holds, the final graph is a well-formed graph
    in which two concepts are joined exactly when the table has their pair,
    in either order, with a count of 250 or more; every edge carries a
    weight, the same from both ends; the important links are the keys whose
    count exceeds 500, in the order of the table, and each of them is an
    edge. *)
Theorem final_graph_any_table (d : freq_table) :
  let G := fst (final_graph_creation d) in
  wf_graph G
  /\ (forall u v, has_edge G u v = true <->
        exists f, (In ((u, v), f) d \/ In ((v, u), f) d) /\ (250 <= f)%Z)
  /\ (forall u v, has_edge G u v = true ->
        edge_weight G u v <> None /\ edge_weight G u v = edge_weight G v u)
  /\ snd (final_graph_creation d)
     = map fst (filter (fun item => (snd item >? 500)%Z) d)
  /\ (forall k, In k (snd (final_graph_creation d)) ->
        has_edge G (fst k) (snd k) = true).
Proof.
  cbv zeta. destruct (final_graph_any d) as (W & S & Wt & N & L).
  split_all; auto.
  - intros u v. rewrite has_edge_In. apply N.
  - intros u v H. split; [|now apply sym_data_weight].
    apply Wt. now apply has_edge_In.
  - intros [u v] Hk. rewrite L in Hk. apply in_map_iff in Hk.
    destruct Hk as [[k f] [E Hk]]. cbn [fst] in E. subst k.
    apply filter_In in Hk. destruct Hk as [Hk Hf]. cbn [fst snd] in *.
    apply has_edge_In, N. exists f. split; [auto | lia].
Qed.

(* ================================================================== *)
(** * The number of edges of the final graph *)

Lemma NoDup_map_inj_in {A B} (f : A -> B) (l : list A) :
  (forall x y, In x l -> In y l -> f x = f y -> x = y) ->
  NoDup l -> NoDup (map f l).
Proof.
  intros Hinj. induction 1 as [|x l Hx Hnd IH]; simpl; constructor.
  - rewrite in_map_iff. intros [y [E Hy]]. apply Hx.
    rewrite (Hinj x y); simpl; auto.
  - apply IH. intros a b Ha Hb. apply Hinj; simpl; auto.
Qed.

Lemma oriented_swap_fixed (P : list edge) (e : edge) :
  oriented P -> In e P -> In (swap e) P -> swap e = e.
Proof.
  destruct e as [u v]. unfold swap. cbn [fst snd]. intros Hor H1 H2.
  now rewrite (Hor u v H1 H2).
Qed.

(** A list of undirected pairs, each once, is no longer than a list that
    holds each of them in some orientation. *)
Lemma oriented_incl_length (P Q : list edge) :
  NoDup P -> oriented P ->
  (forall e, In e P -> In e Q \/ In (swap e) Q) ->
  List.length P <= List.length Q.
Proof.
  intros Hnd Hor Hin.
  set (f := fun e : edge => if edge_memb e Q then e else swap e).
  rewrite <- (length_map f P). apply NoDup_incl_length.
  - apply NoDup_map_inj_in; [|exact Hnd].
    intros x y Hx Hy. unfold f.
    destruct (edge_memb x Q), (edge_memb y Q); intros E.
    + exact E.
    + subst x. now apply (oriented_swap_fixed P).
    + subst y. symmetry. now apply (oriented_swap_fixed P).
    + rewrite <- (swap_swap x), E. apply swap_swap.
  - intros e He. apply in_map_iff in He. destruct He as [x [<- Hx]]. unfold f.
    destruct (edge_memb x Q) eqn:E.
    + now apply edge_memb_In.
    + apply edge_memb_false in E. destruct (Hin x Hx); tauto.
Qed.

Lemma NoDup_keys_filter {A B} (p : A * B -> bool) (d : list (A * B)) :
  NoDup (map fst d) -> NoDup (map fst (filter p d)).
Proof.
  induction d as [|x d IH]; simpl; [auto|]. intros H.
  inversion H as [|? ? Hx Hnd]; subst.
  destruct (p x); simpl; auto. constructor; auto.
  intros Hin. apply Hx. apply in_map_iff in Hin. destruct Hin as [y [E Hy]].
  apply filter_In in Hy. apply in_map_iff. exists y. tauto.
Qed.

Lemma filter_length_impl {A} (p q : A -> bool) (l : list A) :
  (forall x, p x = true -> q x = true) ->
  List.length (filter p l) <= List.length (filter q l).
Proof.
  intros H. induction l as [|x l IH]; simpl; [lia|].
  destruct (p x) eqn:E.
  - rewrite (H x E). simpl. lia.
  - destruct (q x); simpl; lia.
Qed.

Lemma In_dict_get (d : freq_table) (k : edge) (f : Z) :
  NoDup (map fst d) -> In (k, f) d -> dict_get k d = Some f.
Proof.
  induction d as [|[k' x] d IH]; simpl; [tauto|]. intros Hnd.
  inversion Hnd as [|? ? Hout Hnd']; subst. intros [[= -> ->]|H].
  - now rewrite edge_eqb_refl.
  - destruct (edge_eqb k k') eqn:E; [|auto].
    apply edge_eqb_eq in E. subst k'. exfalso. apply Hout.
    apply in_map_iff. now exists (k, f).
Qed.

Lemma final_graph_edges_length (d : freq_table) :
  map fst d = allpairs nodes ->
  List.length (edges (fst (final_graph_creation d)))
  = List.length (filter (fun item => negb (snd item <? 250)%Z) d).
Proof.
  intros Hk. destruct (final_graph_any d) as (W & _ & _ & N & _).
  destruct (edges_distinct _ W) as [End Eor].
  pose proof allpairs_nodes_ok as K. rewrite <- Hk in K.
  set (kept := filter (fun item : edge * Z => negb (snd item <? 250)%Z) d).
  rewrite <- (length_map fst kept).
  assert (Hkept : forall e, In e (map fst kept) <->
                            exists f, In (e, f) d /\ (250 <= f)%Z).
  { intros e. unfold kept. rewrite in_map_iff. split.
    - intros [[k f] [<- H]]. apply filter_In in H. destruct H as [H Hf].
      exists f. cbn [fst snd] in *. split; [exact H|].
      apply negb_true_iff in Hf. lia.
    - intros [f [H Hf]]. exists (e, f). split; [reflexivity|].
      apply filter_In. split; [exact H|]. cbn [snd]. apply negb_true_iff. lia. }
  assert (Kor : oriented (map fst kept)).
  { intros u v H1 H2. exfalso. apply Hkept in H1, H2.
    destruct H1 as [f1 [H1 _]], H2 as [f2 [H2 _]].
    apply (ko_orient _ K u v).
    - apply in_map_iff. now exists ((u, v), f1).
    - apply in_map_iff. now exists ((v, u), f2). }
  apply Nat.le_antisymm; apply oriented_incl_length; auto.
  - intros [u v] He. apply (edges_has_edge _ u v W), has_edge_In, N in He.
    destruct He as [f [[H|H] Hf]]; [left | right]; apply Hkept; exists f; auto.
  - apply NoDup_keys_filter, (ko_nodup _ K).
  - intros [u v] He. apply Hkept in He. destruct He as [f [H Hf]].
    apply (edges_has_edge _ u v W), has_edge_In, N. exists f. auto.
Qed.

Lemma final_graph_edge_count_bounds (d : freq_table) :
  map fst d = allpairs nodes ->
  List.length (snd (final_graph_creation d))
  <= List.length (edges (fst (final_graph_creation d))) <= 66.
Proof.
  intros Hk. rewrite (final_graph_edges_length d Hk).
  destruct (final_graph_any d) as (_ & _ & _ & _ & L). rewrite L, length_map.
  split.
  - apply filter_length_impl. intros [k f]. cbn [snd]. intros H.
    apply negb_true_iff. destruct (Z.gtb_spec f 500); [lia | discriminate].
  - etransitivity; [apply filter_length_le|].
    rewrite <- (length_map fst d), Hk. reflexivity.
Qed.

(** X12.  For a table over the pairs of the twelve concepts, the number of
    edges the report gives is the number of entries with a count of 250 or
    more, and there are at most as many important links. *)
Theorem final_graph_edge_count (d : freq_table) :
  map fst d = allpairs nodes ->
  List.length (edges (fst (final_graph_creation d)))
  = List.length (filter (fun item => negb (snd item <? 250)%Z) d)
  /\ List.length (snd (final_graph_creation d))
     <= List.length (edges (fst (final_graph_creation d)))
  /\ List.length (edges (fst (final_graph_creation d))) <= 66.
Proof.
  intros Hk. destruct (final_graph_edge_count_bounds d Hk) as [H1 H2].
  split_all; auto. apply (final_graph_edges_length d Hk).
Qed.

(** X12 on the sample table: all 66 pairs are kept. *)
Lemma final_graph_edge_count_witness :
  List.length (edges (fst (final_graph_creation sample_table))) = 66
  /\ List.length (snd (final_graph_creation sample_table)) = 1.
Proof.
  assert (Hk : map fst sample_table = allpairs nodes).
  { unfold sample_table. rewrite map_map. apply map_id. }
  destruct (final_graph_edge_count sample_table Hk) as (E & _ & _).
  split; [rewrite E|]; reflexivity.
Defined.

(* ================================================================== *)
(** * The map a run returns *)

Section FinalMap.

Context {R : Random} {RL : RandomLaws R}.

Variable open_file : string -> option file.
Variable argv : list string.

Lemma main_Ok (w : World) (final : Graph * list edge) :
  fst (main open_file argv w) = Ok final ->
  exists st w0 w1,
    bootstrap open_file argv 1000 (initial_edges_dictionary, None) w0 = (Ok st, w1)
    /\ final = final_graph_creation (fst st).
Proof.
  unfold main, bind.
  destruct ((if List.length argv =? 2 then ret tt else print print_usage) w)
    as [[[]| |] w0] eqn:E0; cbv zeta; try discriminate.
  destruct (bootstrap open_file argv 1000 (initial_edges_dictionary, None) w0)
    as [[st| |] w1] eqn:E1; try discriminate.
  unfold ret. cbn [fst]. intros [= <-]. now exists st, w0, w1.
Qed.

(** The table after any number of passes: the 66 pairs, each with a count
    between 0 and the number of passes. *)
Lemma bootstrap_table (n : nat) (me : option edge) (st : freq_table * option edge)
  (w w' : World) :
  bootstrap open_file argv n (initial_edges_dictionary, me) w = (Ok st, w') ->
  map fst (fst st) = allpairs nodes
  /\ forall k f, In (k, f) (fst st) -> (0 <= f <= Z.of_nat n)%Z.
Proof.
  intros H. pose proof (bootstrap_keys _ _ _ _ _ _ _ H) as K.
  split; [exact K|]. intros k f Hin.
  destruct (bootstrap_bound open_file argv _ _ _ _ _ H) as [K' B]. cbn [fst] in *.
  assert (Hnd : NoDup (map fst (fst st))).
  { rewrite K. apply (ko_nodup _ allpairs_nodes_ok). }
  assert (Hk : In k (map fst initial_edges_dictionary)).
  { rewrite <- K'. apply in_map_iff. now exists (k, f). }
  apply dict_get_keys in Hk.
  destruct (dict_get k initial_edges_dictionary) as [v|] eqn:Ev; [|congruence].
  pose proof (initial_edges_dictionary_zero k v Ev). subst v.
  destruct (B k 0%Z Ev) as (v' & Hv' & Hb).
  rewrite (In_dict_get _ _ _ Hnd Hin) in Hv'. injection Hv' as ->. lia.
Qed.

(** X13.  The map a run returns: its nodes are the twelve concepts; every
    edge joins two different concepts and carries, from both ends, the weight
    count/200 with a count between 250 and 1000; every important link is
    one of the 66 pairs and an edge whose count exceeds 500; there are at
    most 66 edges, and no more important links than edges. *)
Theorem main_final_map (w : World) (final : Graph * list edge) :
  fst (main open_file argv w) = Ok final ->
  nodes_of (fst final) = nodes
  /\ (forall u v, has_edge (fst final) u v = true ->
        u <> v
        /\ exists f, (250 <= f <= 1000)%Z
                     /\ edge_weight (fst final) u v = Some (Qmake f 200)
                     /\ edge_weight (fst final) v u = Some (Qmake f 200))
  /\ (forall k, In k (snd final) ->
        In k (allpairs nodes)
        /\ exists f, (500 < f <= 1000)%Z
                     /\ edge_weight (fst final) (fst k) (snd k) = Some (Qmake f 200))
  /\ List.length (snd final) <= List.length (edges (fst final)) <= 66.
Proof.
  intros H. destruct (main_Ok w final H) as (st & w0 & w1 & E & ->).
  destruct (bootstrap_table _ _ _ _ _ E) as [Hk Hb]. cbn [Z.of_nat] in Hb.
  set (d := fst st) in *.
  assert (K : keys_ok (map fst ([] ++ d))).
  { cbn [app]. rewrite Hk. apply allpairs_nodes_ok. }
  pose proof (fold_threshold_inv d [] _ K threshold_inv_init) as [I1 I2 I3 I4].
  rewrite <- final_graph_creation_fold in I1, I2, I3, I4.
  cbn [app] in K, I2, I3, I4.
  destruct (final_graph_any d) as (_ & S & _ & _ & _).
  split_all.
  - exact I1.
  - intros u v Huv. apply has_edge_In, I2 in Huv.
    destruct Huv as [f [[Hin|Hin] Hf]].
    + split.
      * apply (ko_apart _ K u v). apply in_map_iff. now exists ((u, v), f).
      * exists f. pose proof (Hb _ _ Hin). split_all; try lia.
        -- now apply I3.
        -- rewrite <- (sym_data_weight _ u v S). now apply I3.
    + split.
      * intros ->. apply (ko_apart _ K v v); [|reflexivity].
        apply in_map_iff. now exists ((v, v), f).
      * exists f. pose proof (Hb _ _ Hin). split_all; try lia.
        -- rewrite (sym_data_weight _ u v S). now apply I3.
        -- now apply I3.
  - intros [u v] Hin. apply I4 in Hin. destruct Hin as [f [Hin Hf]]. split.
    + rewrite <- Hk. apply in_map_iff. now exists ((u, v), f).
    + exists f. pose proof (Hb _ _ Hin). cbn [fst snd]. split; [lia|].
      apply I3; [exact Hin | lia].
  - apply (final_graph_edge_count_bounds d Hk).
  - apply (final_graph_edge_count_bounds d Hk).
Qed.

End FinalMap.

(** X13 on the sample file. *)
Lemma main_final_map_witness :
  match fst (@main sample_random sample_fs sample_argv sample_world) with
  | Ok final =>
      nodes_of (fst final) = nodes
      /\ List.length (snd final) <= List.length (edges (fst final)) <= 66
  | _ => False
  end.
Proof.
  destruct (fst (@main sample_random sample_fs sample_argv sample_world))
    as [final| |] eqn:E.
  - destruct (@main_final_map sample_random sample_random_laws sample_fs sample_argv
                sample_world final E) as (H1 & _ & _ & H2).
    split; assumption.
  - vm_compute in E. discriminate.
  - vm_compute in E. discriminate.
Defined.

(* ================================================================== *)
(** * The DOT text *)

Lemma append_assoc (a b c : string) : (a +++ b) +++ c = a +++ (b +++ c).
Proof. induction a as [|x a IH]; simpl; [reflexivity | now rewrite IH]. Qed.

Lemma append_nil_r (a : string) : a +++ EmptyString = a.
Proof. induction a as [|x a IH]; simpl; [reflexivity | now rewrite IH]. Qed.

Lemma lines_of_app (l1 l2 : list string) :
  lines_of (l1 ++ l2) = lines_of l1 +++ lines_of l2.
Proof.
  induction l1 as [|x l1 IH]; simpl; [reflexivity|].
  now rewrite IH, append_assoc.
Qed.

Lemma ltb_irrefl (s : string) : String.ltb s s = false.
Proof.
  unfold String.ltb. pose proof (String.compare_antisym s s) as H.
  destruct (String.compare s s); simpl in H; congruence.
Qed.

Lemma ltb_total (s t : string) :
  s <> t -> String.ltb s t = negb (String.ltb t s).
Proof.
  intros Hne. unfold String.ltb. rewrite (String.compare_antisym t s).
  destruct (String.compare s t) eqn:E; simpl; try reflexivity.
  apply String.compare_eq_iff in E. contradiction.
Qed.

Lemma In_dot_pairs (G : Graph) (m n : node) :
  In (m, n) (dot_pairs G) <->
  In n (neighbors G m) /\ String.ltb m n = true.
Proof.
  unfold dot_pairs. rewrite in_flat_map. split.
  - intros [x [Hx H]]. apply in_map_iff in H. destruct H as [y [[= -> ->] Hy]].
    now apply filter_In in Hy.
  - intros [Hn Hlt]. exists m. split.
    + destruct (in_dec string_dec m (nodes_of G)) as [H|H]; [exact H|].
      unfold neighbors in Hn. rewrite (adj_absent G m H) in Hn. destruct Hn.
    + apply in_map. now apply filter_In.
Qed.

Lemma NoDup_flat_map_pair (f : node -> list node) (ms : list node) :
  NoDup ms -> (forall m, NoDup (f m)) ->
  NoDup (flat_map (fun m => map (pair m) (f m)) ms).
Proof.
  intros Hnd Hf. induction Hnd as [|m ms Hm Hnd IH]; simpl; [constructor|].
  apply NoDup_app.
  - apply NoDup_map_pair, Hf.
  - exact IH.
  - intros [a b] H1 H2. apply in_map_iff in H1. destruct H1 as [y [[= <- <-] _]].
    apply in_flat_map in H2. destruct H2 as [x [Hx H2]].
    apply in_map_iff in H2. destruct H2 as [z [[= ->] _]]. contradiction.
Qed.

Section DotText.

Variable str_float : Q -> string.

Let edge_text (G : Graph) (e : edge) : string :=
  dot_edge_line str_float (fst e) (snd e) (weight_of G e).

Lemma dot_nodes_lines (ns : list node) :
  forall s,
    fold_left (fun s n => s +++ ("  " +++ dquote) +++ n +++ (dquote +++ ";" +++ newline))
              ns s
    = s +++ lines_of (map dot_node_line ns).
Proof.
  induction ns as [|n ns IH]; intros s; cbn [fold_left map lines_of fold_right].
  - now rewrite append_nil_r.
  - rewrite IH. fold (lines_of (map dot_node_line ns)).
    unfold dot_node_line. now rewrite !append_assoc.
Qed.

Lemma dot_edge_weighted (G : Graph) (m n : node) (s : string) (w : Q) :
  String.ltb m n = true -> edge_weight G m n = Some w ->
  dot_edge str_float G m s n = Ok (s +++ dot_edge_line str_float m n w).
Proof.
  intros Hlt Hw. unfold dot_edge. rewrite Hlt, Hw. f_equal.
  unfold dot_edge_line. now rewrite !append_assoc.
Qed.

Lemma dot_neighbors_lines (G : Graph) (m : node) (ns : list node) :
  forall s,
    (forall n, In n ns -> String.ltb m n = true -> edge_weight G m n <> None) ->
    dot_neighbors str_float G m s ns
    = Ok (s +++ lines_of (map (edge_text G) (map (pair m) (filter (String.ltb m) ns)))).
Proof.
  induction ns as [|n ns IH]; intros s H; cbn [dot_neighbors filter map].
  - simpl. now rewrite append_nil_r.
  - destruct (String.ltb m n) eqn:Hlt.
    + destruct (edge_weight G m n) as [w|] eqn:Hw;
        [|exfalso; apply (H n (or_introl eq_refl) Hlt Hw)].
      rewrite (dot_edge_weighted G m n s w Hlt Hw). cbn [obind map].
      rewrite IH by (intros x Hx; apply H; now right).
      f_equal. cbn [lines_of fold_right]. fold (lines_of
        (map (edge_text G) (map (pair m) (filter (String.ltb m) ns)))).
      rewrite append_assoc. unfold edge_text at 2, weight_of. cbn [fst snd].
      now rewrite Hw.
    + unfold dot_edge. rewrite Hlt. cbn [obind].
      apply IH. intros x Hx. apply H. now right.
Qed.

Lemma dot_edges_lines (G : Graph) (ms : list node) :
  forall s,
    (forall m n, In m ms -> In n (neighbors G m) -> String.ltb m n = true ->
                 edge_weight G m n <> None) ->
    dot_edges str_float G s ms
    = Ok (s +++ lines_of
                  (map (edge_text G)
                       (flat_map (fun m => map (pair m)
                                             (filter (String.ltb m) (neighbors G m)))
                                 ms))).
Proof.
  induction ms as [|m ms IH]; intros s H; cbn [dot_edges flat_map].
  - simpl. now rewrite append_nil_r.
  - rewrite dot_neighbors_lines by (intros n Hn; apply H; [now left | exact Hn]).
    cbn [obind]. rewrite IH by (intros x n Hx; apply H; now right).
    now rewrite map_app, lines_of_app, append_assoc.
Qed.

Lemma graphviz_output_text (G : Graph) :
  (forall e, In e (dot_pairs G) -> edge_weight G (fst e) (snd e) <> None) ->
  graphviz_output str_float G
  = Ok (dot_preamble +++ lines_of (map dot_node_line (nodes_of G))
          +++ dot_subgraph_line
          +++ lines_of (map (edge_text G) (dot_pairs G))
          +++ dot_closing).
Proof.
  intros H. unfold graphviz_output. cbv zeta.
  rewrite dot_nodes_lines, dot_edges_lines.
  - cbn [obind]. f_equal. unfold dot_preamble, dot_subgraph_line, dot_closing, dot_pairs.
    now rewrite !append_assoc.
  - intros m n _ Hn Hlt. apply (H (m, n)). now apply In_dot_pairs.
Qed.

Lemma dot_edge_outcome (G : Graph) (m n : node) (s : string) :
  (exists s', dot_edge str_float G m s n = Ok s')
  \/ dot_edge str_float G m s n = Raise KeyError.
Proof.
  unfold dot_edge. destruct (String.ltb m n); [|eauto].
  destruct (edge_weight G m n); eauto.
Qed.

Lemma dot_neighbors_outcome (G : Graph) (m : node) (ns : list node) :
  forall s,
    (exists s', dot_neighbors str_float G m s ns = Ok s')
    \/ dot_neighbors str_float G m s ns = Raise KeyError.
Proof.
  induction ns as [|n ns IH]; intros s; cbn [dot_neighbors]; [eauto|].
  destruct (dot_edge_outcome G m n s) as [[s' ->]| ->]; cbn [obind]; auto.
Qed.

Lemma dot_neighbors_raises (G : Graph) (m : node) (ns : list node) :
  forall s,
    (exists n, In n ns /\ String.ltb m n = true /\ edge_weight G m n = None) ->
    dot_neighbors str_float G m s ns = Raise KeyError.
Proof.
  induction ns as [|n ns IH]; intros s [x [Hx [Hlt Hw]]]; [destruct Hx|].
  cbn [dot_neighbors]. unfold dot_edge.
  destruct (String.ltb m n) eqn:En.
  - destruct (edge_weight G m n) as [w|] eqn:Ew; [|reflexivity].
    cbn [obind]. apply IH. exists x. destruct Hx as [->|Hx]; [congruence | auto].
  - cbn [obind]. apply IH. exists x. destruct Hx as [->|Hx]; [congruence | auto].
Qed.

Lemma dot_edges_raises (G : Graph) (ms : list node) :
  forall s,
    (exists m n, In m ms /\ In n (neighbors G m) /\ String.ltb m n = true
                 /\ edge_weight G m n = None) ->
    dot_edges str_float G s ms = Raise KeyError.
Proof.
  induction ms as [|m ms IH]; intros s (x & n & Hx & Hn & Hlt & Hw); [destruct Hx|].
  cbn [dot_edges].
  destruct (dot_neighbors_outcome G m (neighbors G m) s) as [[s' E]|E];
    rewrite E; cbn [obind]; [|reflexivity].
  apply IH. exists x, n. destruct Hx as [->|Hx]; [|auto].
  rewrite dot_neighbors_raises in E by eauto. discriminate.
Qed.

(** X14.  On a graph in which every pair it prints carries a weight,
    [graphviz_output] returns the preamble, one line per node in the order of
    the graph, the subgraph header, one arrow per printed pair with its
    weight as pen width, and the closing braces. *)
Theorem graphviz_output_layout (G : Graph) :
  (forall e, In e (dot_pairs G) -> edge_weight G (fst e) (snd e) <> None) ->
  graphviz_output str_float G
  = Ok (dot_preamble +++ lines_of (map dot_node_line (nodes_of G))
          +++ dot_subgraph_line
          +++ lines_of (map (fun e => dot_edge_line str_float (fst e) (snd e)
                                        (weight_of G e)) (dot_pairs G))
          +++ dot_closing).
Proof. exact (graphviz_output_text G). Qed.

(** X15.  On a graph with an edge that has no weight, such as the graphs of
    the greedy loop, [graphviz_output] raises [KeyError] and returns no
    text. *)
Theorem graphviz_output_unweighted (G : Graph) :
  (exists e, In e (dot_pairs G) /\ edge_weight G (fst e) (snd e) = None) ->
  graphviz_output str_float G = Raise KeyError.
Proof.
  intros [[m n] [He Hw]]. unfold graphviz_output. cbv zeta.
  rewrite dot_edges_raises; [reflexivity|].
  pose proof He as He'. apply In_dot_pairs in He'. destruct He' as [Hn Hlt].
  exists m, n. split_all; auto.
  destruct (in_dec string_dec m (nodes_of G)) as [H|H]; [exact H|].
  unfold neighbors in Hn. rewrite (adj_absent G m H) in Hn. destruct Hn.
Qed.

(** X16.  The final graph can always be printed: whatever the table holds,
    [graphviz_output] returns its text and raises nothing. *)
Theorem graphviz_output_final (d : freq_table) :
  let G := fst (final_graph_creation d) in
  graphviz_output str_float G
  = Ok (dot_preamble +++ lines_of (map dot_node_line (nodes_of G))
          +++ dot_subgraph_line
          +++ lines_of (map (fun e => dot_edge_line str_float (fst e) (snd e)
                                        (weight_of G e)) (dot_pairs G))
          +++ dot_closing).
Proof.
  cbv zeta. apply graphviz_output_text. intros [m n] He.
  destruct (final_graph_any d) as (_ & _ & Wt & _ & _).
  apply Wt. now apply In_dot_pairs in He.
Qed.

End DotText.

(** The pairs an arrow is printed for. *)
Lemma dot_pairs_spec (G : Graph) :
  wf_graph G ->
  NoDup (dot_pairs G)
  /\ (forall m n, In (m, n) (dot_pairs G) <->
        has_edge G m n = true /\ String.ltb m n = true)
  /\ (forall m n, has_edge G m n = true -> m <> n ->
        (In (m, n) (dot_pairs G) /\ ~ In (n, m) (dot_pairs G))
        \/ (In (n, m) (dot_pairs G) /\ ~ In (m, n) (dot_pairs G)))
  /\ (forall m, ~ In (m, m) (dot_pairs G)).
Proof.
  intros W. split_all.
  - unfold dot_pairs.
    apply (NoDup_flat_map_pair (fun m => filter (String.ltb m) (neighbors G m))).
    + apply (wf_nodes G W).
    + intros m. apply NoDup_filter, (wf_nbrs G W).
  - intros m n. rewrite In_dot_pairs, has_edge_In. tauto.
  - intros m n Hmn Hne. rewrite !In_dot_pairs.
    apply has_edge_In in Hmn. pose proof (wf_sym G W _ _ Hmn) as Hnm.
    rewrite (ltb_total m n Hne).
    destruct (String.ltb n m); simpl; [right | left]; intuition congruence.
  - intros m H. apply In_dot_pairs in H. rewrite ltb_irrefl in H.
    destruct H. discriminate.
Qed.

(** X17.  The arrows in the text [graphviz_output] returns for a well-formed
    graph whose edges all carry a weight: the text is the preamble, the node
    lines, the subgraph header, one line per arrow and the closing braces,
    where an arrow is printed for a pair exactly when it is an edge and its
    first concept is the smaller string; so no arrow is printed twice, an
    edge between two different concepts gets one arrow, in one of its two
    orientations, and a loop gets none. *)
Theorem graphviz_output_arrows (str_float : Q -> string) (G : Graph) :
  wf_graph G -> weighted G ->
  exists arrows : list edge,
    graphviz_output str_float G
    = Ok (dot_preamble +++ lines_of (map dot_node_line (nodes_of G))
            +++ dot_subgraph_line
            +++ lines_of (map (fun e => dot_edge_line str_float (fst e) (snd e)
                                          (weight_of G e)) arrows)
            +++ dot_closing)
    /\ NoDup arrows
    /\ (forall m n, In (m, n) arrows <->
          has_edge G m n = true /\ String.ltb m n = true)
    /\ (forall m n, has_edge G m n = true -> m <> n ->
          (In (m, n) arrows /\ ~ In (n, m) arrows)
          \/ (In (n, m) arrows /\ ~ In (m, n) arrows))
    /\ (forall m, ~ In (m, m) arrows).
Proof.
  intros W Wt. exists (dot_pairs G). split; [|now apply dot_pairs_spec].
  apply graphviz_output_text. intros [m n] He.
  apply Wt. now apply In_dot_pairs in He.
Qed.

(** X14 on two concepts joined with weight 1.5. *)
Lemma graphviz_output_layout_witness :
  graphviz_output sample_str_float sample_map
  = Ok (dot_preamble +++ dot_node_line "LOVE" +++ dot_node_line "FEAR"
          +++ dot_subgraph_line
          +++ dot_edge_line sample_str_float "FEAR" "LOVE" (Qmake 3 2)
          +++ dot_closing).
Proof.
  rewrite (graphviz_output_layout sample_str_float sample_map).
  - reflexivity.
  - intros e [<-|[]]. discriminate.
Defined.

(** X15 on the graph of the greedy loop with [X] and [Y] joined. *)
Lemma graphviz_output_unweighted_witness :
  graphviz_output sample_str_float sample_graph = Raise KeyError.
Proof.
  apply (graphviz_output_unweighted sample_str_float sample_graph).
  exists ("X", "Y"). split; [left|]; reflexivity.
Defined.

Lemma sample_map_wf : wf_graph sample_map /\ weighted sample_map.
Proof.
  unfold sample_map. split.
  - apply wf_add_edge, wf_add_node, wf_add_node, wf_empty.
  - apply weighted_add_edge, weighted_add_node, weighted_add_node.
    apply edgeless_weighted. intros x. reflexivity.
Qed.

(** X17 on two concepts joined with weight 1.5: the one arrow goes from
    [FEAR] to [LOVE]. *)
Lemma graphviz_output_arrows_witness :
  exists arrows : list edge,
    graphviz_output sample_str_float sample_map
    = Ok (dot_preamble +++ lines_of (map dot_node_line (nodes_of sample_map))
            +++ dot_subgraph_line
            +++ lines_of (map (fun e => dot_edge_line sample_str_float (fst e) (snd e)
                                          (weight_of sample_map e)) arrows)
            +++ dot_closing)
    /\ NoDup arrows
    /\ In ("FEAR", "LOVE") arrows
    /\ ~ In ("LOVE", "FEAR") arrows.
Proof.
  destruct (graphviz_output_arrows sample_str_float sample_map
              (proj1 sample_map_wf) (proj2 sample_map_wf))
    as (arrows & E & Hnd & Hin & _ & _).
  exists arrows. split_all; auto.
  - apply Hin. split; reflexivity.
  - intros H. apply Hin in H. destruct H as [_ H]. discriminate.
Defined.

(* ================================================================== *)
(** * What the objective measures *)

(** One component: any two nodes are joined by a walk. *)
Lemma ncc_one_connected (H : Graph) :
  wf_graph H -> H <> [] ->
  (number_connected_components H = 1 <->
   forall a b, In a (nodes_of H) -> In b (nodes_of H) -> walk H a b).
Proof.
  intros W Hne. split.
  - rewrite ncc_firsts. intros E a b Ha Hb.
    pose proof (firsts_cover (connb H) (walk H)
                  (fun u v => connb_spec H u v W) (walk_here H) (nodes_of H) []) as Hc.
    destruct (firsts (connb H) [] (nodes_of H)) as [|r [|r' l]]; try discriminate.
    destruct (Hc a Ha) as [ra [[[]|[<-|[]]] Wa]].
    destruct (Hc b Hb) as [rb [[[]|[<-|[]]] Wb]].
    eapply walk_trans; [|exact Wb]. apply walk_sym; [apply (wf_sym H W) | exact Wa].
  - intros Hall. pose proof (ncc_pos H Hne) as Hpos.
    destruct (le_lt_dec 2 (number_connected_components H)) as [H2|H2]; [|lia].
    destruct (ncc_two_apart H W H2) as (a & b & Ha & Hb & _ & Hab).
    exfalso. apply Hab. now apply Hall.
Qed.

(** X18.  On a well-formed graph that has a concept of every constraint, the
    objective is zero exactly when, in every constraint, any two concepts
    that are nodes of the graph are joined by a walk that stays inside the
    constraint. *)
Theorem C_zero_connected (G g : Graph) (s : list (list node)) :
  wf_graph G ->
  (forall c, In c s -> exists n, In n c /\ has_node G n = true) ->
  (C G g s = 0%Z <->
   forall c a b, In c s -> In a c -> In b c ->
                 has_node G a = true -> has_node G b = true ->
                 walk (subgraph G c) a b).
Proof.
  intros W Hs. rewrite (proj2 (C_sign G g s Hs)).
  assert (Hone : forall c, In c s ->
            (number_connected_components (subgraph G c) = 1 <->
             forall a b, In a (nodes_of (subgraph G c)) ->
                         In b (nodes_of (subgraph G c)) -> walk (subgraph G c) a b)).
  { intros c Hc. apply ncc_one_connected; [now apply wf_subgraph|].
    destruct (Hs c Hc) as [n [Hn Hg]]. apply has_node_In in Hg.
    assert (Hin : In n (nodes_of (subgraph G c))) by now apply In_nodes_subgraph.
    intros E. rewrite E in Hin. destruct Hin. }
  split.
  - intros H c a b Hc Ha Hb Ga Gb. apply (Hone c Hc); [now apply H | |];
      apply In_nodes_subgraph; split; auto; now apply has_node_In.
  - intros H c Hc. apply (Hone c Hc). intros a b Ha Hb.
    apply In_nodes_subgraph in Ha, Hb.
    apply H; try tauto; apply has_node_In; tauto.
Qed.

(** X18 on the sample graph: [X] and [Y] are joined, [Z] is alone. *)
Lemma C_zero_connected_witness :
  C sample_graph sample_graph [["X"; "Y"]; ["Z"]] = 0%Z
  /\ walk (subgraph sample_graph ["X"; "Y"]) "X" "Y".
Proof.
  assert (Hs : forall c, In c [["X"; "Y"]; ["Z"]] ->
                         exists n, In n c /\ has_node sample_graph n = true).
  { intros c [<-|[<-|[]]]; [exists "X" | exists "Z"]; split; simpl; auto. }
  pose proof (C_zero_connected sample_graph sample_graph [["X"; "Y"]; ["Z"]]
                sample_graph_wf Hs) as H.
  split; [reflexivity|].
  apply (proj1 H eq_refl ["X"; "Y"] "X" "Y"); simpl; auto.
Defined.

(** X19.  Adding an edge between two nodes of a well-formed graph never
    lowers the objective: the score of a trial is never negative. *)
Theorem C_add_edge_monotone (T : list (list node)) (G : Graph) (a b : node) :
  wf_graph G -> In a (nodes_of G) -> In b (nodes_of G) ->
  (C G G T <= C (add_edge G a b None) (add_edge G a b None) T)%Z
  /\ (0 <= gain T G (C G G T) (a, b))%Z.
Proof.
  intros W Ha Hb. pose proof (gain_nonneg T G a b W Ha Hb) as H.
  split; [|exact H]. unfold gain in H. cbn [fst snd] in H. lia.
Qed.

(** X19 on the sample graph and the edge from [Y] to [Z]. *)
Lemma C_add_edge_monotone_witness :
  (C sample_graph sample_graph sample_terms
   <= C (add_edge sample_graph "Y" "Z" None) (add_edge sample_graph "Y" "Z" None)
        sample_terms)%Z
  /\ (0 <= gain sample_terms sample_graph
              (C sample_graph sample_graph sample_terms) ("Y", "Z"))%Z.
Proof.
  apply (C_add_edge_monotone sample_terms sample_graph "Y" "Z" sample_graph_wf);
    simpl; auto.
Defined.

(* ================================================================== *)
(** * How a run can end *)

Lemma append_term_raises (n : nat) (fields : list string) :
  forall T e, append_term n fields T = Raise e -> e = IndexError.
Proof.
  induction n as [|n IH]; intros T e; cbn [append_term]; [discriminate|].
  destruct (nth_error fields 1); [|congruence].
  destruct (nth_error fields 2); [apply IH | congruence].
Qed.

Lemma read_data_raises (L : list string) (lines : list string) :
  forall T e, read_data L T lines = Raise e -> e = IndexError.
Proof.
  induction lines as [|line rest IH]; intros T e; simpl; [discriminate|].
  unfold read_line.
  destruct (append_term _ _ T) as [T'| |] eqn:E; simpl.
  - apply IH.
  - intros [= <-]. now apply append_term_raises in E.
  - discriminate.
Qed.

Lemma read_file_raises (L : list string) (f : file) (e : exn) :
  read_file L f = Raise e ->
  (e = IndexError /\ read_data L [] (fst f) = Raise IndexError)
  \/ (e = UnicodeDecodeError /\ snd f = DecodeError
      /\ exists T, read_data L [] (fst f) = Ok T).
Proof.
  unfold read_file. destruct (read_data L [] (fst f)) as [T|e'|] eqn:E; cbn [obind].
  - destruct (snd f); [discriminate|]. intros [= <-]. right. eauto.
  - intros [= <-]. left. rewrite (read_data_raises _ _ _ _ E). auto.
  - discriminate.
Qed.

Lemma adding_edges_raises (es : list edge) :
  forall d e, adding_edges es d = Raise e -> e = KeyError.
Proof.
  induction es as [|x es IH]; intros d e; cbn [adding_edges]; [discriminate|].
  unfold count_edge at 1.
  destruct (dict_incr _ d); cbn [obind]; [apply IH | congruence].
Qed.

Section Outcomes.

Context {R : Random} {RL : RandomLaws R}.

Variable open_file : string -> option file.
Variable argv : list string.

Lemma iteration_outcome (st : freq_table * option edge) (w : World) :
  match fst (iteration open_file argv st w) with
  | Ok _ => True
  | Raise e => input_error e
  | OutOfFuel => False
  end.
Proof.
  pose proof (iteration_fuel open_file argv st w) as Hfuel.
  destruct st as [d me]. revert Hfuel.
  unfold iteration, bind, choices, print, lift, ret, input_error. cbn [gen stdout].
  destruct (random_choices (gen w) languages 12) as [L g1].
  destruct (nth_error argv 1) as [fname|]; [|cbn [fst]; auto].
  destruct (open_file fname) as [f|]; [|cbn [fst]; auto].
  destruct (read_file L f) as [T| |] eqn:ET; cbn [fst]; try congruence.
  2: { apply read_file_raises in ET. tauto. }
  destruct (create_initial_graph T) as [G P] eqn:EG.
  pose proof (create_initial_graph_inv T) as I. rewrite EG in I. cbn [fst snd] in I.
  match goal with |- context [main_loop _ _ _ ?w0] =>
    destruct (main_loop_converges T (S (List.length P)) G P me w0 I
                (Nat.lt_succ_diag_r _))
      as (G' & P' & me1 & w1 & E & _ & I' & _)
  end.
  rewrite E. destruct (adding_edges (edges G') d) as [d1| |] eqn:EA; cbn [fst]; auto.
  apply adding_edges_raises in EA. auto 6.
Qed.

Lemma bootstrap_outcome (n : nat) :
  forall st w,
    match fst (bootstrap open_file argv n st w) with
    | Ok _ => True
    | Raise e => input_error e
    | OutOfFuel => False
    end.
Proof.
  induction n as [|n IH]; intros st w; [exact I|].
  cbn [bootstrap]. unfold bind.
  pose proof (iteration_outcome st w) as H.
  destruct (iteration open_file argv st w) as [[st1| |] w1]; cbn [fst] in *; auto.
  apply IH.
Qed.

(** X20.  Printing aside, a run up to the final report returns a final map
    or ends with one of four exceptions: [IndexError] (no [sys.argv[1]], or a
    delivered line of a drawn language with fewer than three fields),
    [OSError] (the file cannot be opened), [UnicodeDecodeError] (the file
    holds bytes that are not UTF-8) or [KeyError] (an edge outside the
    table).  The statements of the greedy loop raise nothing: [max_edge] is
    bound when it is read, [PossE.remove] and [G.remove_edge] find what they
    remove, and the loop stays within its bound of passes. *)
Theorem main_outcomes (w : World) :
  match fst (main open_file argv w) with
  | Ok _ => True
  | Raise e => input_error e
  | OutOfFuel => False
  end
  /\ (nth_error argv 1 = None -> fst (main open_file argv w) = Raise IndexError)
  /\ (forall fname, nth_error argv 1 = Some fname -> open_file fname = None ->
        fst (main open_file argv w) = Raise OSError)
  /\ (forall fname lines,
        nth_error argv 1 = Some fname ->
        open_file fname = Some (lines, DecodeError) ->
        fst (main open_file argv w) = Raise UnicodeDecodeError
        \/ fst (main open_file argv w) = Raise IndexError).
Proof.
  unfold main, bind.
  destruct ((if List.length argv =? 2 then ret tt else print print_usage) w)
    as [[[]| |] w0] eqn:E0; cbv zeta.
  - split_all.
    + pose proof (bootstrap_outcome 1000 (initial_edges_dictionary, None) w0) as H.
      destruct (bootstrap open_file argv 1000 (initial_edges_dictionary, None) w0)
        as [[st1| |] w1]; cbn [fst] in *; auto.
    + intros Ha. change 1000 with (S 999). cbn [bootstrap].
      unfold bind, iteration, bind, choices, print, lift. cbn [gen stdout].
      destruct (random_choices (gen w0) languages 12) as [L g1].
      now rewrite Ha.
    + intros fname Ha Ho. change 1000 with (S 999). cbn [bootstrap].
      unfold bind, iteration, bind, choices, print, lift. cbn [gen stdout].
      destruct (random_choices (gen w0) languages 12) as [L g1].
      now rewrite Ha, Ho.
    + intros fname lines Ha Ho. change 1000 with (S 999). cbn [bootstrap].
      unfold bind, iteration, bind, choices, print, lift. cbn [gen stdout].
      destruct (random_choices (gen w0) languages 12) as [L g1].
      rewrite Ha, Ho.
      destruct (read_file L (lines, DecodeError)) as [T|e|] eqn:ET; cbn [fst].
      * apply read_file_Ok in ET. destruct ET as [_ ET]. discriminate.
      * apply read_file_raises in ET. destruct ET as [[-> _]|[-> _]]; auto.
      * now apply read_file_fuel in ET.
  - exfalso. destruct (List.length argv =? 2); discriminate.
  - exfalso. destruct (List.length argv =? 2); discriminate.
Qed.

End Outcomes.

(** X20 on a file that holds the two sample lines and then bytes that are
    not UTF-8. *)
Lemma main_outcomes_witness :
  fst (@main sample_random (fun _ => Some (sample_file, DecodeError))
         sample_argv sample_world) = Raise UnicodeDecodeError
  /\ input_error UnicodeDecodeError.
Proof.
  pose proof (@main_outcomes sample_random sample_random_laws
                (fun _ => Some (sample_file, DecodeError))
                sample_argv sample_world) as [H1 _].
  assert (E : fst (@main sample_random (fun _ => Some (sample_file, DecodeError))
                     sample_argv sample_world) = Raise UnicodeDecodeError)
    by (vm_compute; reflexivity).
  rewrite E in H1 |- *. split; [reflexivity | exact H1].
Defined.

(* ================================================================== *)
(** * A run on a well-formed file *)

Lemma read_data_well_formed (L : list string) (lines : list string) :
  (forall line, In line lines -> well_formed_line line) ->
  forall T,
    (forall t c, In t T -> In c t -> In c nodes) ->
    exists T', read_data L T lines = Ok T'
               /\ forall t c, In t T' -> In c t -> In c nodes.
Proof.
  induction lines as [|line rest IH]; intros Hwf T HT; cbn [read_data]; [eauto|].
  destruct (Hwf line (or_introl eq_refl)) as (_ & f2 & E2 & Hc).
  unfold read_line. rewrite (append_term_repeat _ _ f2 E2). cbn [obind].
  apply IH; [intros l Hl; apply Hwf; now right|].
  intros t c Ht. apply in_app_or in Ht. destruct Ht as [Ht|Ht]; [now apply (HT t)|].
  apply repeat_spec in Ht. subst t. apply Hc.
Qed.

Lemma adding_edges_Ok (es : list edge) :
  forall d,
    (forall e, In e es -> canonical d e <> None) ->
    exists d', adding_edges es d = Ok d' /\ map fst d' = map fst d.
Proof.
  induction es as [|e es IH]; intros d H; simpl; [eauto|].
  pose proof (count_edge_canonical d e) as Hc.
  destruct (canonical d e) as [k|] eqn:E; [|now destruct (H e (or_introl eq_refl))].
  destruct Hc as (d1 & E1 & K1 & _). rewrite E1. simpl.
  destruct (IH d1) as (d' & E' & K').
  - intros x Hx. rewrite (canonical_keys d d1 x K1). apply H. simpl. auto.
  - exists d'. split; [exact E' | congruence].
Qed.

Lemma canonical_vocabulary (d : freq_table) (u v : node) :
  map fst d = allpairs nodes -> In u nodes -> In v nodes -> u <> v ->
  canonical d (u, v) <> None.
Proof.
  intros K Hu Hv Hne. unfold canonical, dict_contains, swap. cbn [fst snd].
  assert (Hk : forall k, In k (allpairs nodes) -> dict_get k d <> None)
    by (intros k Hk; apply dict_get_keys; now rewrite K).
  destruct (allpairs_cover nodes u v Hu Hv Hne) as [H|H]; apply Hk in H.
  - destruct (dict_get (u, v) d); [discriminate | congruence].
  - destruct (dict_get (u, v) d); [discriminate|].
    destruct (dict_get (v, u) d); [discriminate | congruence].
Qed.

Section WellFormed.

Context {R : Random} {RL : RandomLaws R}.

Variable open_file : string -> option file.
Variable argv : list string.
Variables (fname : string) (lines : list string).

Hypothesis argv_1 : nth_error argv 1 = Some fname.
Hypothesis file_opens : open_file fname = Some (lines, EndOfFile).
Hypothesis lines_well_formed : forall line, In line lines -> well_formed_line line.

Lemma iteration_returns (d : freq_table) (me : option edge) (w : World) :
  map fst d = allpairs nodes ->
  exists d' me' w',
    iteration open_file argv (d, me) w = (Ok (d', me'), w')
    /\ map fst d' = allpairs nodes.
Proof.
  intros K. unfold iteration, bind, choices, print, lift, ret. cbn [gen stdout].
  destruct (random_choices (gen w) languages 12) as [L g1].
  rewrite argv_1, file_opens.
  destruct (read_data_well_formed L lines lines_well_formed [])
    as (T & ET & HT); [intros t c []|].
  rewrite (proj2 (read_file_Ok L (lines, EndOfFile) T) (conj ET eq_refl)).
  pose proof (create_initial_graph_inv T) as I.
  pose proof (create_initial_graph_edgeless T) as Hedgeless.
  assert (Hsrc : forall e, In e (snd (create_initial_graph T)) ->
                           exists t, In t T /\ In e (allpairs t)).
  { rewrite create_initial_graph_fold. cbn [snd]. intros e He.
    apply (fold_add_term_pairs_spec T []) in He. destruct He as [[]|He]. exact He. }
  destruct (create_initial_graph T) as [G P] eqn:EG. cbn [fst snd] in *.
  match goal with |- context [main_loop _ _ _ ?w0] =>
    destruct (main_loop_trace T (S (List.length P)) G P me w0 I
                (Nat.lt_succ_diag_r _))
      as (added & G' & P' & me1 & w1 & E & _ & I' & EG' & HP & _ & _ & _ & Hloop)
  end.
  rewrite E.
  destruct (adding_edges_Ok (edges G') d) as (d' & Ed & Kd).
  - intros [u v] He.
    apply (edges_has_edge G' u v (gi_wf _ _ _ I')), has_edge_In in He.
    subst G'. apply In_neighbors_add_edges in He.
    unfold neighbors in He at 1. rewrite Hedgeless in He.
    assert (Hin : forall a b, In (a, b) added ->
                              In a nodes /\ In b nodes /\ a <> b).
    { intros a b Hab. pose proof (Hloop _ Hab) as Hne. cbn [fst snd] in Hne.
      assert (HabP : In (a, b) P).
      { eapply Permutation_in; [symmetry; exact HP|]. apply in_or_app. now left. }
      destruct (Hsrc _ HabP) as (t & Ht & Hp). apply allpairs_In in Hp.
      split_all; [apply (HT t a) | apply (HT t b) | exact Hne]; tauto. }
    destruct He as [[]|[He|He]]; apply Hin in He; destruct He as (H1 & H2 & H3);
      apply canonical_vocabulary; auto.
  - rewrite Ed. exists d', me1, w1. split; [reflexivity | congruence].
Qed.

Lemma bootstrap_returns (n : nat) :
  forall (d : freq_table) me w,
    map fst d = allpairs nodes ->
    exists st' w', bootstrap open_file argv n (d, me) w = (Ok st', w').
Proof.
  induction n as [|n IH]; intros d me w K; cbn [bootstrap]; [unfold ret; eauto|].
  unfold bind. destruct (iteration_returns d me w K) as (d' & me' & w' & E & K').
  rewrite E. now apply IH.
Qed.


End WellFormed.

